(** * Template functions of xo (internal/funcs.go): a shallow embedding

    The Go functions that the templates call are transcribed as Rocq
    functions: strings are byte strings, Go maps are [gmap]s, the [int]
    counters are integers with the 64-bit wrap-around written out, and the
    two pieces of mutable state (the short name cache and the warning log)
    are threaded explicitly. *)

From Stdlib Require Import ZArith Lia Ascii String List.
From stdpp Require Import base option list gmap strings pretty.

Local Open Scope string_scope.

(** ** Go [int] (64-bit targets) *)

Module GoInt.
Local Open Scope Z_scope.

Definition min_int : Z := -9223372036854775808.
Definition max_int : Z := 9223372036854775807.

(** Two's complement reduction of an integer to the [int] range. *)
Definition wrap (z : Z) : Z :=
  (z + 9223372036854775808) `mod` 18446744073709551616 - 9223372036854775808.

(** [i++] *)
Definition incr (i : Z) : Z := wrap (i + 1).

(** [x - y] *)
Definition sub (x y : Z) : Z := wrap (x - y).

Definition in_range (z : Z) : Prop := min_int ≤ z ≤ max_int.
End GoInt.

(** ** The parts of Go's [strings] package that funcs.go calls *)

Module strings.

(** [strings.Join(elems, sep)] *)
Definition Join (elems : list string) (sep : string) : string :=
  String.concat sep elems.

(** Lower-casing of one byte; bytes outside [A-Z] are kept. *)
Definition lower_byte (c : ascii) : ascii :=
  let n := nat_of_ascii c in
  if (65 <=? n)%nat && (n <=? 90)%nat then ascii_of_nat (n + 32) else c.

(** Upper-casing of one byte; bytes outside [a-z] are kept. *)
Definition upper_byte (c : ascii) : ascii :=
  let n := nat_of_ascii c in
  if (97 <=? n)%nat && (n <=? 122)%nat then ascii_of_nat (n - 32) else c.

Fixpoint map_bytes (f : ascii → ascii) (s : string) : string :=
  match s with
  | EmptyString => EmptyString
  | String c s' => String (f c) (map_bytes f s')
  end.

(** [strings.ToLower] and [strings.ToUpper] on ASCII text (the identifiers
    and column names handled here). Go's functions decode UTF-8 and map the
    letters outside ASCII as well; here bytes from 128 on are left as they
    are, so the two agree with Go on text of bytes below 128. *)
Definition ToLower (s : string) : string := map_bytes lower_byte s.
Definition ToUpper (s : string) : string := map_bytes upper_byte s.

(** [strings.Split(s, sep)] for a separator of one byte: the pieces between
    the separators, a single empty piece for the empty string. *)
Fixpoint Split (s : string) (sep : ascii) : list string :=
  match s with
  | EmptyString => [EmptyString]
  | String c s' =>
      if decide (c = sep) then EmptyString :: Split s' sep
      else match Split s' sep with
           | w :: ws => String c w :: ws
           | [] => [String c EmptyString]
           end
  end.

(** [strings.ReplaceAll(s, old, new)] for [old] of one byte. *)
Fixpoint ReplaceAll (s : string) (old : ascii) (new : string) : string :=
  match s with
  | EmptyString => EmptyString
  | String c s' =>
      if decide (c = old) then new +:+ ReplaceAll s' old new
      else String c (ReplaceAll s' old new)
  end.

Fixpoint mem_byte (c : ascii) (cutset : string) : bool :=
  match cutset with
  | EmptyString => false
  | String d cutset' => if decide (c = d) then true else mem_byte c cutset'
  end.

Fixpoint TrimLeft (s cutset : string) : string :=
  match s with
  | EmptyString => EmptyString
  | String c s' => if mem_byte c cutset then TrimLeft s' cutset else s
  end.

Definition TrimRight (s cutset : string) : string :=
  String.rev (TrimLeft (String.rev s) cutset).

(** [strings.Trim(s, cutset)]: drops every leading and trailing byte that
    occurs in [cutset]. *)
Definition Trim (s cutset : string) : string :=
  TrimRight (TrimLeft s cutset) cutset.

(** [strings.HasPrefix(s, prefix)] *)
Definition HasPrefix (s prefix : string) : bool := String.prefix prefix s.

(** [strings.HasSuffix(s, suffix)] *)
Definition HasSuffix (s suffix : string) : bool :=
  String.prefix (String.rev suffix) (String.rev s).

(** [strings.TrimSuffix(s, suffix)] *)
Definition TrimSuffix (s suffix : string) : string :=
  if HasSuffix s suffix
  then String.substring 0 (String.length s - String.length suffix) s
  else s.

(** [strings.Compare(a, b) < 0]: byte-wise lexicographic order. *)
Definition Less (a b : string) : bool := String.ltb a b.

(** [s[:1]] on a non-empty string. *)
Definition first_byte (s : string) : string := String.substring 0 1 s.

(** [s[n:]] *)
Definition drop_bytes (n : nat) (s : string) : string :=
  String.substring n (String.length s - n) s.

End strings.

(** ** Data model (internal/types.go, models.Column, ArgType) *)

(** Modelled from the spec: the [models.Column] declaration is outside the
    files at hand; section 3 describes it as holding the raw schema column
    name and the nullability flag, which are the two members funcs.go reads
    ([ColumnName], [NotNull]). *)
Module Column.
Record t := mk { ColumnName : string; NotNull : bool }.
End Column.

(** [Field] of types.go. Its [Type] member is spelled [Typ]; the [Col]
    pointer is taken to be non-nil, as in a populated schema model. *)
Module Field.
Record t := mk {
  Name : string;
  Typ : string;
  NilType : string;
  Len : Z;
  Col : Column.t;
  Comment : string
}.
End Field.

(** [QueryParam] of types.go. *)
Module QueryParam.
Record t := mk { Name : string; Typ : string; Interpolate : bool }.
End QueryParam.

(** [EscType] of types.go. *)
Inductive EscType := SchemaEsc | TableEsc | ColumnEsc.

(** Modelled from the spec: the [Loader] interface is declared outside the
    files at hand; funcs.go calls its dialect-specific placeholder numbering
    function [NthParam] and its identifier escaping [Escape]. *)
Module Loader.
Record t := mk {
  NthParam : Z → string;
  Escape : EscType → string → string
}.
End Loader.

(** Modelled from the spec: the [ArgType] declaration is outside the files
    at hand; the record holds the configuration knobs of section 6 that
    funcs.go reads. Maps that are only tested for the presence of a key
    ([GeoInfoTypeMap], [KnownTypeMap]) are sets of keys. The mutable
    [ShortNameTypeMap] is kept apart, in the threaded state below. *)
Module ArgType.
Record t := mk {
  Loader : Loader.t;
  EscapeColumnNames : bool;
  NameConflictSuffix : string;
  GeoInfoTypeMap : gset string;
  KnownTypeMap : gset string;
  CustomTypePackage : string;
  ToPBTypeMap : gmap string string;
  IncompatilbePBType : gmap string bool;
  WrapperTypeMap : gmap string string;
  ImportMap : gmap string string;
  ServerProtoPathPrefix : string
}.
End ArgType.

(** ** SQL clause builders *)

(** [colname] *)
Definition colname (a : ArgType.t) (col : Column.t) : string :=
  if ArgType.EscapeColumnNames a
  then Loader.Escape (ArgType.Loader a) ColumnEsc (Column.ColumnName col)
  else Column.ColumnName col.

(** [ignore := map[string]bool{}; for _, n := range ignoreNames { ignore[n] = true }] *)
Definition ignoreOfNames (ignoreNames : list string) : gmap string bool :=
  foldl (λ ignore n, <[n := true]> ignore) ∅ ignoreNames.

(** [for _, f := range ignoreNames { ignore[f.Name] = true }] *)
Definition ignoreOfFields (ignoreNames : list Field.t) : gmap string bool :=
  foldl (λ ignore f, <[Field.Name f := true]> ignore) ∅ ignoreNames.

(** [ignore[f.Name]]: a missing key reads as [false]. *)
Definition ignored (ignore : gmap string bool) (f : Field.t) : bool :=
  default false (ignore !! Field.Name f).

(** [_, ok := a.GeoInfoTypeMap[f.Type]] *)
Definition isGeo (a : ArgType.t) (f : Field.t) : bool :=
  bool_decide (Field.Typ f ∈ ArgType.GeoInfoTypeMap a).

(** [colcount] *)
Definition colcount (a : ArgType.t) (fields : list Field.t)
    (ignoreNames : list string) : Z :=
  let ignore := ignoreOfNames ignoreNames in
  foldl (λ i f, if ignored ignore f then i else GoInt.incr i) 1%Z fields.

(** [colnames] *)
Definition colnames (a : ArgType.t) (fields : list Field.t)
    (ignoreNames : list string) : string :=
  let ignore := ignoreOfNames ignoreNames in
  fst (foldl (λ '(str, i) f,
    if ignored ignore f then (str, i) else
    let str := if decide (i ≠ 0%Z) then str +:+ ", " else str in
    let str := str +:+ colname a (Field.Col f) in
    (str, GoInt.incr i)) ("", 0%Z) fields).

(** [colnamesgeo] *)
Definition colnamesgeo (a : ArgType.t) (fields : list Field.t)
    (ignoreNames : list string) : string :=
  let ignore := ignoreOfNames ignoreNames in
  fst (foldl (λ '(str, i) f,
    if ignored ignore f then (str, i) else
    let str := if decide (i ≠ 0%Z) then str +:+ ", " else str in
    let str :=
      if isGeo a f
      then str +:+ ("ST_AsBinary(" +:+ colname a (Field.Col f) +:+ ")")
      else str +:+ colname a (Field.Col f) in
    (str, GoInt.incr i)) ("", 0%Z) fields).

(** [colnamesmulti] *)
Definition colnamesmulti (a : ArgType.t) (fields : list Field.t)
    (ignoreNames : list Field.t) : string :=
  let ignore := ignoreOfFields ignoreNames in
  fst (foldl (λ '(str, i) f,
    if ignored ignore f then (str, i) else
    let str := if decide (i ≠ 0%Z) then str +:+ ", " else str in
    let str := str +:+ colname a (Field.Col f) in
    (str, GoInt.incr i)) ("", 0%Z) fields).

(** [colnamesgeomulti] *)
Definition colnamesgeomulti (a : ArgType.t) (fields : list Field.t)
    (ignoreNames : list Field.t) : string :=
  let ignore := ignoreOfFields ignoreNames in
  fst (foldl (λ '(str, i) f,
    if ignored ignore f then (str, i) else
    let str := if decide (i ≠ 0%Z) then str +:+ ", " else str in
    let str :=
      if isGeo a f
      then str +:+ ("ST_AsBinary(" +:+ colname a (Field.Col f) +:+ ")")
      else str +:+ colname a (Field.Col f) in
    (str, GoInt.incr i)) ("", 0%Z) fields).

(** The tail of [colnamesquery] and [colnamesquerymulti]:
    [if hasDeletedField && !skipDeleted { str += sep; str += "is_deleted = false" }] *)
Definition appendDeleted (hasDeletedField skipDeleted : bool)
    (sep str : string) : string :=
  if hasDeletedField && negb skipDeleted
  then (str +:+ sep) +:+ "is_deleted = false"
  else str.

(** [colnamesquery] *)
Definition colnamesquery (a : ArgType.t) (fields : list Field.t)
    (hasDeletedField : bool) (sep : string) (ignoreNames : list string)
    : string :=
  let ignore := ignoreOfNames ignoreNames in
  let '(str, i, skipDeleted) := foldl (λ '(str, i, skipDeleted) f,
    if ignored ignore f then (str, i, skipDeleted) else
    let skipDeleted :=
      if decide (Field.Name f = "is_deleted") then true else skipDeleted in
    let str := if decide (i ≠ 0%Z) then str +:+ sep else str in
    let str :=
      if isGeo a f
      then str +:+ colname a (Field.Col f) +:+ " = " +:+ "ST_GeomFromWKB(?)"
      else str +:+ colname a (Field.Col f) +:+ " = "
               +:+ Loader.NthParam (ArgType.Loader a) i in
    (str, GoInt.incr i, skipDeleted)) ("", 0%Z, false) fields in
  appendDeleted hasDeletedField skipDeleted sep str.

(** [colnamesquerymulti] *)
Definition colnamesquerymulti (a : ArgType.t) (fields : list Field.t)
    (hasDeletedField : bool) (sep : string) (startCount : Z)
    (ignoreNames : list Field.t) : string :=
  let ignore := ignoreOfFields ignoreNames in
  let '(str, i, skipDeleted) := foldl (λ '(str, i, skipDeleted) f,
    if ignored ignore f then (str, i, skipDeleted) else
    let skipDeleted :=
      if decide (Field.Name f = "is_deleted") then true else skipDeleted in
    let str := if decide (startCount < i)%Z then str +:+ sep else str in
    let str :=
      if isGeo a f
      then str +:+ colname a (Field.Col f) +:+ " = " +:+ "ST_GeomFromWKB(?)"
      else str +:+ colname a (Field.Col f) +:+ " = "
               +:+ Loader.NthParam (ArgType.Loader a) i in
    (str, GoInt.incr i, skipDeleted)) ("", startCount, false) fields in
  appendDeleted hasDeletedField skipDeleted sep str.

(** [colprefixnames] *)
Definition colprefixnames (a : ArgType.t) (fields : list Field.t)
    (prefix : string) (ignoreNames : list string) : string :=
  let ignore := ignoreOfNames ignoreNames in
  fst (foldl (λ '(str, i) f,
    if ignored ignore f then (str, i) else
    let str := if decide (i ≠ 0%Z) then str +:+ ", " else str in
    let str := str +:+ prefix +:+ "." +:+ colname a (Field.Col f) in
    (str, GoInt.incr i)) ("", 0%Z) fields).

(** [colvals] *)
Definition colvals (a : ArgType.t) (fields : list Field.t)
    (ignoreNames : list string) : string :=
  let ignore := ignoreOfNames ignoreNames in
  fst (foldl (λ '(str, i) f,
    if ignored ignore f then (str, i) else
    let str := if decide (i ≠ 0%Z) then str +:+ ", " else str in
    let str :=
      if isGeo a f
      then str +:+ "ST_GeomFromWKB(?)"
      else str +:+ Loader.NthParam (ArgType.Loader a) i in
    (str, GoInt.incr i)) ("", 0%Z) fields).

(** [colvalsmulti] *)
Definition colvalsmulti (a : ArgType.t) (fields : list Field.t)
    (ignoreNames : list Field.t) : string :=
  let ignore := ignoreOfFields ignoreNames in
  fst (foldl (λ '(str, i) f,
    if ignored ignore f then (str, i) else
    let str := if decide (i ≠ 0%Z) then str +:+ ", " else str in
    let str :=
      if isGeo a f
      then str +:+ "ST_GeomFromWKB(?)"
      else str +:+ Loader.NthParam (ArgType.Loader a) i in
    (str, GoInt.incr i)) ("", 0%Z) fields).

(** [fieldnames] *)
Definition fieldnames (a : ArgType.t) (fields : list Field.t)
    (prefix : string) (ignoreNames : list string) : string :=
  let ignore := ignoreOfNames ignoreNames in
  fst (foldl (λ '(str, i) f,
    if ignored ignore f then (str, i) else
    let str := if decide (i ≠ 0%Z) then str +:+ ", " else str in
    let str := str +:+ prefix +:+ "." +:+ Field.Name f in
    (str, GoInt.incr i)) ("", 0%Z) fields).

(** [fieldnamesmulti] *)
Definition fieldnamesmulti (a : ArgType.t) (fields : list Field.t)
    (prefix : string) (ignoreNames : list Field.t) : string :=
  let ignore := ignoreOfFields ignoreNames in
  fst (foldl (λ '(str, i) f,
    if ignored ignore f then (str, i) else
    let str := if decide (i ≠ 0%Z) then str +:+ ", " else str in
    let str := str +:+ prefix +:+ "." +:+ Field.Name f in
    (str, GoInt.incr i)) ("", 0%Z) fields).

(** [getstartcount] *)
Definition getstartcount (a : ArgType.t) (fields pkFields : list Field.t) : Z :=
  GoInt.sub (Z.of_nat (length fields)) (Z.of_nat (length pkFields)).

(** [hasfield] *)
Definition hasfield (a : ArgType.t) (fields : list Field.t) (name : string)
    : bool :=
  existsb (λ f, bool_decide (Field.Name f = name)) fields.

(** [hascolumn] *)
Definition hascolumn (a : ArgType.t) (fields : list Field.t) (name : string)
    : bool :=
  existsb (λ f, bool_decide (Column.ColumnName (Field.Col f) = name)) fields.

(** ** Remaining schema model types (internal/types.go) *)

(** [RelType] *)
Inductive RelType := Table | View.

(** [Type] of types.go (a table, view or custom query), with the members
    that are plain data; the back references ([Indexes], [Table]) are not
    read by funcs.go. *)
Module Type_.
Record t := mk {
  Name : string;
  Schema : string;
  RelType_ : RelType;
  PrimaryKeyFields : list Field.t;
  Fields : list Field.t;
  Comment : string;
  HasDeletedField : bool
}.
End Type_.

(** [ModelToPBConfig]; [SkipFields] is a [map[string]struct{}], a set. *)
Module ModelToPBConfig.
Record t := mk { ImportService : string; SkipFields : gset string }.
End ModelToPBConfig.

(** [MethodsOption] *)
Module MethodsOption.
Record t := mk {
  Type_ : Type_.t;
  Sub : string;
  ListFields : bool;
  ModelToPB : bool;
  ModelToPBConfig : ModelToPBConfig.t
}.
End MethodsOption.

(** ** Mutable state and panics *)

(** The state that the template functions mutate: the short name cache held
    by [ArgType] and the records written through [log.Printf]. *)
Record State := mkState {
  ShortNameTypeMap : gmap string string;
  Log : list string
}.

Inductive Result (A : Type) : Type :=
| Ok (x : A)
| Panic (msg : string).
Arguments Ok {A} x.
Arguments Panic {A} msg.

Definition M (A : Type) : Type := State → Result A * State.

Definition ret {A} (x : A) : M A := λ st, (Ok x, st).

Definition bind {A B} (m : M A) (k : A → M B) : M B := λ st,
  match m st with
  | (Ok x, st') => k x st'
  | (Panic msg, st') => (Panic msg, st')
  end.

Notation "'let*' x ':=' m 'in' k" := (bind m (λ x, k))
  (at level 10, x name, m at level 100, k at level 200).

(** [panic(msg)] *)
Definition panic {A} (msg : string) : M A := λ st, (Panic msg, st).

(** [a.ShortNameTypeMap[typ]] *)
Definition cacheLookup (typ : string) : M (option string) := λ st,
  (Ok (ShortNameTypeMap st !! typ), st).

(** [a.ShortNameTypeMap[typ] = v] *)
Definition cacheStore (typ v : string) : M unit := λ st,
  (Ok tt, mkState (<[typ := v]> (ShortNameTypeMap st)) (Log st)).

(** [log.Printf]: one record appended to the log. *)
Definition logPrintf (record : string) : M unit := λ st,
  (Ok tt, mkState (ShortNameTypeMap st) (Log st ++ [record])%list).

(** A [range] loop whose body runs in [M]. *)
Fixpoint rangeM {A B} (body : A → B → M A) (acc : A) (l : list B) : M A :=
  match l with
  | [] => ret acc
  | x :: l' => let* acc' := body acc x in rangeM body acc' l'
  end.

(** ** Identifier resolver *)

(** [goReservedNames] *)
Definition goReservedNamesTable : list (string * string) :=
  [ ("break", "brk"); ("case", "cs"); ("chan", "chn"); ("const", "cnst");
    ("continue", "cnt"); ("default", "def"); ("defer", "dfr"); ("else", "els");
    ("fallthrough", "flthrough"); ("for", "fr"); ("func", "fn");
    ("go", "goVal"); ("goto", "gt"); ("if", "ifVal"); ("import", "imp");
    ("interface", "iface"); ("map", "mp"); ("package", "pkg");
    ("range", "rnge"); ("return", "ret"); ("select", "slct");
    ("struct", "strct"); ("switch", "swtch"); ("type", "typ"); ("var", "vr");
    ("error", "e"); ("bool", "b"); ("string", "str"); ("byte", "byt");
    ("rune", "r"); ("uintptr", "uptr"); ("int", "i"); ("int8", "i8");
    ("int16", "i16"); ("int32", "i32"); ("int64", "i64"); ("uint", "u");
    ("uint8", "u8"); ("uint16", "u16"); ("uint32", "u32"); ("uint64", "u64");
    ("float32", "z"); ("float64", "f"); ("complex64", "c");
    ("complex128", "c128") ].

Definition goReservedNames : gmap string string :=
  list_to_map goReservedNamesTable.

(** The dynamic types that a [scopeConflicts ...interface{}] argument can
    hold: the three that [shortname] recognises, and anything else. *)
Inductive ScopeConflict :=
| ScopeString (k : string)
| ScopeFields (k : list Field.t)
| ScopeQueryParams (k : list QueryParam.t)
| ScopeOther.

(** The conflicts that [shortname] starts from. *)
Definition defaultConflicts : gmap string bool :=
  list_to_map [ ("sql", true); ("driver", true); ("csv", true);
                ("errors", true); ("fmt", true); ("regexp", true);
                ("strings", true); ("time", true) ].

(** The [switch k := c.(type)] of [shortname], for one scope argument. *)
Definition addScopeConflict (conflicts : gmap string bool) (c : ScopeConflict)
    : M (gmap string bool) :=
  match c with
  | ScopeString k => ret (<[k := true]> conflicts)
  | ScopeFields k =>
      ret (foldl (λ conflicts f, <[Field.Name f := true]> conflicts) conflicts k)
  | ScopeQueryParams k =>
      ret (foldl (λ conflicts f, <[QueryParam.Name f := true]> conflicts)
             conflicts k)
  | ScopeOther => panic "not implemented"
  end.

Section Funcs.
(** The two functions of the snaker package that funcs.go calls. *)
Variable CamelToSnake : string → string.
Variable ForceLowerCamelIdentifier : string → string.

(** The name that [shortname] computes when the cache has no entry for
    [typ]: the first bytes of the words of the snake form of [typ], the
    words "id" left out. *)
Definition shortnameLetters (typ : string) : string :=
  let u := foldl (λ u s,
    if decide (0 < String.length s ∧ s ≠ "id")
    then (u ++ [strings.first_byte s])%list else u) []
    (strings.Split (strings.ToLower (CamelToSnake typ)) "_"%char) in
  strings.Join u "".

(** [if n, ok := goReservedNames[v]; ok { v = n }] *)
Definition checkReserved (v : string) : string :=
  match goReservedNames !! v with
  | Some n => n
  | None => v
  end.

Definition calcShortName (typ : string) : string :=
  checkReserved (shortnameLetters typ).

(** [shortname] *)
Definition shortname (a : ArgType.t) (typ : string)
    (scopeConflicts : list ScopeConflict) : M string :=
  let* cached := cacheLookup typ in
  let* v :=
    match cached with
    | Some v => ret v
    | None =>
        let v := calcShortName typ in
        let* _ := cacheStore typ v in ret v
    end in
  let* conflicts := rangeM addScopeConflict defaultConflicts scopeConflicts in
  if bool_decide (is_Some (conflicts !! v))
  then ret (v +:+ ArgType.NameConflictSuffix a)
  else ret v.

(** ** Protobuf bridge *)

(** Bytes that the templates of the bridge contain. *)
Definition LF : string := String (ascii_of_nat 10) EmptyString.
Definition TAB : string := String (ascii_of_nat 9) EmptyString.
Definition QUOTE : string := String (ascii_of_nat 34) EmptyString.

(** [SnakeToCamelWithoutInitialisms] *)
Definition SnakeToCamelWithoutInitialisms (str : string) : string :=
  foldl (λ r w,
    if decide (w = "") then r
    else r +:+ strings.ToUpper (strings.first_byte w)
           +:+ strings.ToLower (strings.drop_bytes 1 w))
    "" (strings.Split str "_"%char).

(** [goPackageName] *)
Definition goPackageName (name : string) : string :=
  let name := strings.ReplaceAll name "-"%char "" in
  strings.ReplaceAll name "_"%char "".

(** [ProtoName] *)
Definition ProtoName (name : string) : string :=
  strings.ReplaceAll name "-"%char "_".

(** [_, ok := option.ModelToPBConfig.SkipFields[field.Col.ColumnName]] *)
Definition skipped (opt : MethodsOption.t) (field : Field.t) : bool :=
  bool_decide (Column.ColumnName (Field.Col field)
                 ∈ ModelToPBConfig.SkipFields (MethodsOption.ModelToPBConfig opt)).

(** [field.Col.NotNull || field.Type == "[]byte"] *)
Definition plainField (field : Field.t) : bool :=
  Column.NotNull (Field.Col field) || bool_decide (Field.Typ field = "[]byte").

(** [a.IncompatilbePBType[t]] *)
Definition incompatible (a : ArgType.t) (t : string) : bool :=
  default false (ArgType.IncompatilbePBType a !! t).

(** The record written for a nullable field without a wrapper type. *)
Definition warnNull (opt : MethodsOption.t) (field : Field.t) : string :=
  "WARN: " +:+ Type_.Name (MethodsOption.Type_ opt) +:+ "."
    +:+ Field.Name field +:+ " could be null, skipping!".

(** The first loop of [modelToPB], over the fields that are not nullable:
    the statements put in front of the literal, and its members. *)
Definition modelToPBPlain (a : ArgType.t) (opt : MethodsOption.t)
    (shortName : string) : string * list string :=
  foldl (λ '(body, fieldsAssignment) field,
    if skipped opt field then (body, fieldsAssignment) else
    if negb (Column.NotNull (Field.Col field))
       && negb (bool_decide (Field.Typ field = "[]byte"))
    then (body, fieldsAssignment) else
    let col := Column.ColumnName (Field.Col field) in
    let '(body, fa) :=
      if decide (Field.Typ field = "time.Time") then
        let f := ForceLowerCamelIdentifier col in
        (body +:+ (f +:+ ", err := ptypes.TimestampProto(" +:+ shortName
                   +:+ "." +:+ Field.Name field +:+ ")" +:+ LF
                   +:+ TAB +:+ "if err != nil {" +:+ LF
                   +:+ TAB +:+ TAB +:+ "return nil, err" +:+ LF
                   +:+ TAB +:+ "}" +:+ LF),
         SnakeToCamelWithoutInitialisms col +:+ ":" +:+ f +:+ ",")
      else
        match ArgType.ToPBTypeMap a !! Field.Typ field with
        | Some t =>
            if negb (incompatible a t)
            then (body, SnakeToCamelWithoutInitialisms col +:+ ":" +:+ t
                          +:+ "(" +:+ shortName +:+ "." +:+ Field.Name field
                          +:+ "),")
            else (body, SnakeToCamelWithoutInitialisms col +:+ ":"
                          +:+ shortName +:+ "." +:+ Field.Name field +:+ ",")
        | None =>
            (body, SnakeToCamelWithoutInitialisms col +:+ ":"
                     +:+ shortName +:+ "." +:+ Field.Name field +:+ ",")
        end in
    (body, (fieldsAssignment ++ [fa])%list))
    ("", []) (Type_.Fields (MethodsOption.Type_ opt)).

(** The statement that the second loop of [modelToPB] builds for a nullable
    field: [None] in the last branch, which builds none. *)
Definition modelToPBNullable (a : ArgType.t) (opt : MethodsOption.t)
    (shortName : string) (field : Field.t) : option string :=
  let T := MethodsOption.Type_ opt in
  let s := SnakeToCamelWithoutInitialisms
             (Column.ColumnName (Field.Col field)) in
  if decide (Field.Typ field = "mysql.NullTime") then
    let f := ForceLowerCamelIdentifier
               (Column.ColumnName (Field.Col field)) in
    Some ("if " +:+ shortName +:+ "." +:+ Field.Name field
          +:+ ".Valid {" +:+ LF
          +:+ TAB +:+ f +:+ ", err := ptypes.TimestampProto("
          +:+ shortName +:+ "." +:+ Field.Name field +:+ ".Time)" +:+ LF
          +:+ TAB +:+ "if err != nil {" +:+ LF
          +:+ TAB +:+ TAB +:+ "return nil, err" +:+ LF
          +:+ TAB +:+ "}" +:+ LF
          +:+ TAB +:+ "proto" +:+ Type_.Name T +:+ "." +:+ s +:+ " = "
          +:+ f +:+ LF
          +:+ "}" +:+ LF)
  else
    match ArgType.WrapperTypeMap a !! Field.Typ field with
    | Some typ =>
        Some ("if " +:+ shortName +:+ "." +:+ Field.Name field
              +:+ ".Valid {" +:+ LF
              +:+ TAB +:+ "proto" +:+ Type_.Name T +:+ "." +:+ s
              +:+ " = &wrappers." +:+ typ +:+ "{Value:" +:+ shortName
              +:+ "." +:+ Field.Name field +:+ "."
              +:+ strings.Trim typ "Value" +:+ "}" +:+ LF
              +:+ "}" +:+ LF)
    | None => None
    end.

(** The literal that [modelToPB] writes after its first loop, and its
    closing [return]. *)
Definition modelToPBLiteral (opt : MethodsOption.t)
    (fieldsAssignment : list string) : string :=
  let T := MethodsOption.Type_ opt in
  "proto" +:+ Type_.Name T +:+ " := &"
    +:+ goPackageName (ModelToPBConfig.ImportService
                         (MethodsOption.ModelToPBConfig opt))
    +:+ "." +:+ Type_.Name T +:+ "{" +:+ LF
    +:+ TAB +:+ strings.Join fieldsAssignment LF +:+ LF
    +:+ "}" +:+ LF.

Definition modelToPBReturn (opt : MethodsOption.t) : string :=
  LF +:+ "return proto" +:+ Type_.Name (MethodsOption.Type_ opt) +:+ ", nil".

(** [modelToPB] *)
Definition modelToPB (a : ArgType.t) (opt : MethodsOption.t) : M string :=
  if negb (MethodsOption.ModelToPB opt) then ret "" else
  let T := MethodsOption.Type_ opt in
  let* shortName := shortname a (Type_.Name T) [] in
  let '(body, fieldsAssignment) := modelToPBPlain a opt shortName in
  let body := body +:+ modelToPBLiteral opt fieldsAssignment in
  let* body := rangeM (λ body field,
    if plainField field then ret body else
    if skipped opt field then ret body else
    let* fa :=
      match modelToPBNullable a opt shortName field with
      | Some fa => ret fa
      | None => let* _ := logPrintf (warnNull opt field) in ret ""
      end in
    ret (body +:+ fa)) body (Type_.Fields T) in
  ret (body +:+ modelToPBReturn opt).

(** The first loop of [PBToModel]. *)
Definition PBToModelPlain (a : ArgType.t) (opt : MethodsOption.t)
    : string * list string :=
  let T := MethodsOption.Type_ opt in
  foldl (λ '(body, fieldsAssignment) field,
    if skipped opt field then (body, fieldsAssignment) else
    if negb (Column.NotNull (Field.Col field))
       && negb (bool_decide (Field.Typ field = "[]byte"))
    then (body, fieldsAssignment) else
    let col := Column.ColumnName (Field.Col field) in
    let '(body, fa) :=
      if decide (Field.Typ field = "time.Time") then
        let f := ForceLowerCamelIdentifier col in
        (body +:+ (f +:+ ", err := ptypes.Timestamp(proto" +:+ Type_.Name T
                   +:+ "." +:+ Field.Name field +:+ ")" +:+ LF
                   +:+ TAB +:+ "if err != nil {" +:+ LF
                   +:+ TAB +:+ TAB +:+ "return nil, err" +:+ LF
                   +:+ TAB +:+ "}" +:+ LF),
         Field.Name field +:+ ":" +:+ f +:+ ",")
      else
        match ArgType.ToPBTypeMap a !! Field.Typ field with
        | Some t =>
            if negb (incompatible a t)
            then (body, Field.Name field +:+ ":" +:+ Field.Typ field
                          +:+ "(proto" +:+ Type_.Name T +:+ "."
                          +:+ SnakeToCamelWithoutInitialisms col +:+ "),")
            else (body, Field.Name field +:+ ":proto" +:+ Type_.Name T
                          +:+ "." +:+ SnakeToCamelWithoutInitialisms col
                          +:+ ",")
        | None =>
            (body, Field.Name field +:+ ":proto" +:+ Type_.Name T
                     +:+ "." +:+ SnakeToCamelWithoutInitialisms col +:+ ",")
        end in
    (body, (fieldsAssignment ++ [fa])%list)) ("", []) (Type_.Fields T).

(** The statement that the second loop of [PBToModel] builds for a nullable
    field: [None] in the last branch, which builds none. *)
Definition PBToModelNullable (a : ArgType.t) (opt : MethodsOption.t)
    (shortName : string) (field : Field.t) : option string :=
  let T := MethodsOption.Type_ opt in
  let s := SnakeToCamelWithoutInitialisms
             (Column.ColumnName (Field.Col field)) in
  if decide (Field.Typ field = "mysql.NullTime") then
    let f := ForceLowerCamelIdentifier
               (Column.ColumnName (Field.Col field)) in
    Some ("if proto" +:+ Type_.Name T +:+ "." +:+ s +:+ " != nil {" +:+ LF
          +:+ TAB +:+ f +:+ ", err := ptypes.Timestamp(proto"
          +:+ Type_.Name T +:+ "." +:+ s +:+ ")" +:+ LF
          +:+ TAB +:+ "if err != nil {" +:+ LF
          +:+ TAB +:+ TAB +:+ "return nil, err" +:+ LF
          +:+ TAB +:+ "}" +:+ LF
          +:+ TAB +:+ shortName +:+ "." +:+ Field.Name field
          +:+ " = mysql.NullTime{Time:" +:+ f +:+ ", Valid:true}" +:+ LF
          +:+ "}" +:+ LF)
  else
    match ArgType.WrapperTypeMap a !! Field.Typ field with
    | Some typ =>
        Some ("if proto" +:+ Type_.Name T +:+ "." +:+ s +:+ " != nil {"
              +:+ LF
              +:+ TAB +:+ shortName +:+ "." +:+ Field.Name field +:+ " = "
              +:+ Field.Typ field +:+ "{"
              +:+ strings.TrimSuffix typ "Value" +:+ ":proto"
              +:+ Type_.Name T +:+ "." +:+ s +:+ ".Value, Valid:true}"
              +:+ LF
              +:+ "}" +:+ LF)
    | None => None
    end.

(** The literal that [PBToModel] writes after its first loop, and its
    closing [return]. *)
Definition PBToModelLiteral (opt : MethodsOption.t) (shortName : string)
    (fieldsAssignment : list string) : string :=
  shortName +:+ " := &" +:+ Type_.Name (MethodsOption.Type_ opt) +:+ "{" +:+ LF
    +:+ TAB +:+ strings.Join fieldsAssignment LF +:+ LF
    +:+ "}" +:+ LF.

Definition PBToModelReturn (shortName : string) : string :=
  LF +:+ "return " +:+ shortName +:+ ", nil".

(** [PBToModel] *)
Definition PBToModel (a : ArgType.t) (opt : MethodsOption.t) : M string :=
  if negb (MethodsOption.ModelToPB opt) then ret "" else
  let T := MethodsOption.Type_ opt in
  let* shortName := shortname a (Type_.Name T) [] in
  let '(body, fieldsAssignment) := PBToModelPlain a opt in
  let body := body +:+ PBToModelLiteral opt shortName fieldsAssignment in
  let* body := rangeM (λ body field,
    if skipped opt field then ret body else
    if plainField field then ret body else
    let* fa :=
      match PBToModelNullable a opt shortName field with
      | Some fa => ret fa
      | None => let* _ := logPrintf (warnNull opt field) in ret ""
      end in
    ret (body +:+ fa)) body (Type_.Fields T) in
  ret (body +:+ PBToModelReturn shortName).

(** [sort.Stable(pc)] with [Less] comparing the [Sub] members: the slice
    ends up ordered by [Sub], entries with equal [Sub] in their former
    order. [insertBySub] places an entry in front of the sorted entries
    that come after it. *)
Fixpoint insertBySub (x : MethodsOption.t) (l : list MethodsOption.t)
    : list MethodsOption.t :=
  match l with
  | [] => [x]
  | y :: l' =>
      if strings.Less (MethodsOption.Sub y) (MethodsOption.Sub x)
      then y :: insertBySub x l'
      else x :: y :: l'
  end.

Definition sortStable (pc : list MethodsOption.t) : list MethodsOption.t :=
  foldr insertBySub [] pc.

(** The first loop of [proto]: the import lines, without duplicates. *)
Definition protoImports (a : ArgType.t) (pc : list MethodsOption.t)
    : list string :=
  fst (foldl (λ acc p,
    foldl (λ '(imports, m) f,
      if skipped p f then (imports, m) else
      match ArgType.ImportMap a !! Field.Typ f with
      | Some i =>
          if decide (i ∈ m) then (imports, m)
          else ((imports ++ ["import " +:+ QUOTE +:+ i +:+ QUOTE +:+ ";"])%list,
                {[i]} ∪ m)
      | None => (imports, m)
      end) acc (Type_.Fields (MethodsOption.Type_ p)))
    ([], (∅ : gset string)) pc).

(** The declaration of one message field with number [count]. *)
Definition protoFieldDef (a : ArgType.t) (f : Field.t) (count : Z) : string :=
  let col := Column.ColumnName (Field.Col f) in
  let def := TAB +:+ Field.Typ f +:+ " " +:+ col +:+ " = "
               +:+ pretty count +:+ ";" in
  let def :=
    match ArgType.ToPBTypeMap a !! Field.Typ f with
    | Some v => TAB +:+ v +:+ " " +:+ col +:+ " = " +:+ pretty count +:+ ";"
    | None => def
    end in
  let def :=
    match ArgType.WrapperTypeMap a !! Field.Typ f with
    | Some v => TAB +:+ "google.protobuf." +:+ v +:+ " " +:+ col +:+ " = "
                  +:+ pretty count +:+ ";"
    | None => def
    end in
  let def :=
    if bool_decide (Field.Typ f = "mysql.NullTime")
       || bool_decide (Field.Typ f = "time.Time")
    then TAB +:+ "google.protobuf.Timestamp " +:+ col +:+ " = "
           +:+ pretty count +:+ ";"
    else def in
  if decide (Field.Comment f ≠ "")
  then Field.Comment f +:+ LF +:+ def
  else def.

(** The inner loop of the second loop of [proto]: the declarations of the
    fields of one message. *)
Definition protoFieldsDef (a : ArgType.t) (p : MethodsOption.t) : list string :=
  fst (foldl (λ '(fieldsDef, count) f,
    if skipped p f then (fieldsDef, count) else
    let def := protoFieldDef a f count in
    ((fieldsDef ++ [def])%list, GoInt.incr count))
    ([], 1%Z) (Type_.Fields (MethodsOption.Type_ p))).

(** The header that [proto] writes once the slice is sorted: the package
    of the first entry, the imports and the options. *)
Definition protoHeader (a : ArgType.t) (pc : list MethodsOption.t) : string :=
  let svc :=
    match pc with
    | p0 :: _ => ModelToPBConfig.ImportService
                   (MethodsOption.ModelToPBConfig p0)
    | [] => ""
    end in
  let imports := protoImports a pc in
  "package proto." +:+ ProtoName svc +:+ ";" +:+ LF
    +:+ LF
    +:+ strings.Join imports LF +:+ LF
    +:+ LF
    +:+ "option go_package = " +:+ QUOTE
    +:+ ArgType.ServerProtoPathPrefix a +:+ "/service/"
    +:+ goPackageName svc +:+ QUOTE +:+ ";" +:+ LF
    +:+ "option java_multiple_files = true;" +:+ LF
    +:+ "option objc_class_prefix = " +:+ QUOTE +:+ "RPC" +:+ QUOTE
    +:+ ";" +:+ LF
    +:+ LF.

(** The message that the second loop of [proto] writes for one entry. *)
Definition protoMessage (a : ArgType.t) (p : MethodsOption.t) : string :=
  let fieldsDef := protoFieldsDef a p in
  "message " +:+ Type_.Name (MethodsOption.Type_ p) +:+ " {" +:+ LF
    +:+ strings.Join fieldsDef LF +:+ LF
    +:+ "}" +:+ LF.

(** The text that [proto] builds once the slice is sorted. *)
Definition protoBody (a : ArgType.t) (pc : list MethodsOption.t) : string :=
  let body := "" in
  let body := body +:+ protoHeader a pc in
  foldl (λ body p, body +:+ protoMessage a p) body pc.

(** [proto]. The second component is the caller's slice as [sort.Stable]
    leaves it: the sort is done in place. *)
Definition proto (a : ArgType.t) (pc : list MethodsOption.t)
    : string * list MethodsOption.t :=
  match pc with
  | [] => ("", pc)
  | _ :: _ =>
      let pc := sortStable pc in
      (protoBody a pc, pc)
  end.

End Funcs.

(** ** Further template functions (internal/funcs.go, internal/types.go) *)

(** [strings.Contains(s, substr)] for [substr] of one byte. *)
Definition Contains (s : string) (c : ascii) : bool := strings.mem_byte c s.

(** The loop of [retype]:
    [for strings.HasPrefix(typ, "[]") { typ = typ[2:]; prefix = prefix + "[]" }];
    the result is the final [(typ, prefix)]. *)
Fixpoint stripSlices (typ prefix : string) : string * string :=
  match typ with
  | String c1 (String c2 rest) =>
      if decide (c1 = "["%char ∧ c2 = "]"%char)
      then stripSlices rest (prefix +:+ "[]")
      else (typ, prefix)
  | _ => (typ, prefix)
  end.

(** [pkg := a.CustomTypePackage; if pkg != "" { pkg = pkg + "." }] *)
Definition customPackage (a : ArgType.t) : string :=
  let pkg := ArgType.CustomTypePackage a in
  if decide (pkg ≠ "") then pkg +:+ "." else pkg.

(** [retype] *)
Definition retype (a : ArgType.t) (typ : string) : string :=
  if Contains typ "."%char then typ else
  let '(typ, prefix) := stripSlices typ "" in
  if decide (typ ∉ ArgType.KnownTypeMap a)
  then prefix +:+ customPackage a +:+ typ
  else prefix +:+ typ.

(** [reniltype] *)
Definition reniltype (a : ArgType.t) (typ : string) : string :=
  if Contains typ "."%char then typ else
  if strings.HasSuffix typ "{}" then
    if decide (String.substring 0 (String.length typ - 2) typ
               ∈ ArgType.KnownTypeMap a)
    then typ
    else customPackage a +:+ typ
  else typ.

(** [convext] *)
Definition convext (a : ArgType.t) (prefix : string) (f t : Field.t) : string :=
  let expr := prefix +:+ "." +:+ Field.Name f in
  if decide (Field.Typ f = Field.Typ t) then expr else
  let ft := Field.Typ f in
  let '(expr, ft) :=
    if strings.HasPrefix ft "sql.Null"
    then (expr +:+ "." +:+ strings.drop_bytes 8 (Field.Typ f),
          strings.ToLower (strings.drop_bytes 8 (Field.Typ f)))
    else (expr, ft) in
  if decide (Field.Typ t ≠ ft)
  then Field.Typ t +:+ "(" +:+ expr +:+ ")"
  else expr.

(** [schemafn]. The toggles [EscapeTableNames] and [EscapeSchemaName] of
    [ArgType], which the record above does not carry, are arguments. The
    escaped names are also written back into the caller's slice, which a
    variadic call from a template does not see. *)
Definition schemafn (a : ArgType.t) (EscapeTableNames EscapeSchemaName : bool)
    (s : string) (names : list string) : string :=
  let names :=
    if EscapeTableNames
    then Loader.Escape (ArgType.Loader a) TableEsc <$> names
    else names in
  let n := strings.Join names "." in
  if decide (s = "" ∧ n = "") then "" else
  let s :=
    if decide (s ≠ "" ∧ n ≠ "")
    then (if EscapeSchemaName
          then Loader.Escape (ArgType.Loader a) SchemaEsc s else s) +:+ "."
    else s in
  s +:+ n.

(** [TemplateType], a [uint], with its constants in [iota] order. *)
Module TemplateType.
Definition EnumTemplate : N := 0.
Definition ProcTemplate : N := 1.
Definition TypeTemplate : N := 2.
Definition ForeignKeyTemplate : N := 3.
Definition IndexTemplate : N := 4.
Definition MapTemplate : N := 5.
Definition QueryTypeTemplate : N := 6.
Definition QueryTemplate : N := 7.
Definition OptionalTemplate : N := 8.
Definition TypeProtoTemplate : N := 9.
Definition XOTemplate : N := 10.

(** [func (tt TemplateType) String() string] *)
Definition String_ (tt : N) : Result string :=
  if decide (tt = XOTemplate) then Ok "xo_db"
  else if decide (tt = EnumTemplate) then Ok "enum"
  else if decide (tt = ProcTemplate) then Ok "proc"
  else if decide (tt = TypeTemplate) then Ok "type"
  else if decide (tt = ForeignKeyTemplate) then Ok "foreignkey"
  else if decide (tt = IndexTemplate) then Ok "index"
  else if decide (tt = MapTemplate) then Ok "map"
  else if decide (tt = QueryTypeTemplate) then Ok "querytype"
  else if decide (tt = QueryTemplate) then Ok "query"
  else if decide (tt = OptionalTemplate) then Ok "optional"
  else if decide (tt = TypeProtoTemplate) then Ok "type"
  else Panic "unknown TemplateType".
End TemplateType.

(** [func (rt RelType) String() string] on the [uint] under a [RelType]:
    0 is [Table], 1 is [View]. *)
Definition RelTypeString (rt : N) : Result string :=
  if decide (rt = 0%N) then Ok "TABLE"
  else if decide (rt = 1%N) then Ok "VIEW"
  else Panic "unknown RelType".

(** [t[i]] for an [int] index: nothing outside the slice, where Go
    panics. *)
Definition sliceAt {A} (t : list A) (i : Z) : option A :=
  if decide (0 ≤ i)%Z then t !! Z.to_nat i else None.

(** [ProtoConfig.Len], [ProtoConfig.Swap] and [ProtoConfig.Less]; an index
    outside the slice panics. *)
Definition ProtoConfigLen (t : list MethodsOption.t) : Z := Z.of_nat (length t).

Definition ProtoConfigSwap (t : list MethodsOption.t) (i j : Z)
    : Result (list MethodsOption.t) :=
  match sliceAt t i, sliceAt t j with
  | Some x, Some y => Ok (<[Z.to_nat j := x]> (<[Z.to_nat i := y]> t))
  | _, _ => Panic "index out of range"
  end.

Definition ProtoConfigLess (t : list MethodsOption.t) (i j : Z) : Result bool :=
  match sliceAt t i, sliceAt t j with
  | Some x, Some y =>
      Ok (strings.Less (MethodsOption.Sub x) (MethodsOption.Sub y))
  | _, _ => Panic "index out of range"
  end.

(** A [range] loop whose body can panic. *)
Fixpoint rangeR {A B} (body : A → B → Result A) (acc : A) (l : list B)
    : Result A :=
  match l with
  | [] => Ok acc
  | x :: l' =>
      match body acc x with
      | Ok acc' => rangeR body acc' l'
      | Panic msg => Panic msg
      end
  end.

Section MoreFuncs.
Variable CamelToSnake : string → string.

(** The name that [goparamlist] gives to the field at position [i] among
    the kept fields, before the reserved names are checked. The slice
    expression [f.Name[len(n[0]):]] panics when [n[0]] is longer than the
    name. *)
Definition goparamName (i : Z) (f : Field.t) : Result string :=
  let s := "v" +:+ pretty i in
  if decide (0 < String.length (Field.Name f)) then
    match strings.Split (CamelToSnake (Field.Name f)) "_"%char with
    | n0 :: _ =>
        if decide (String.length n0 ≤ String.length (Field.Name f))%nat
        then Ok (strings.ToLower n0
                 +:+ strings.drop_bytes (String.length n0) (Field.Name f))
        else Panic "slice bounds out of range"
    | [] => Panic "index out of range"
    end
  else Ok s.

(** The loop of [goparamlist]: the values that are joined. *)
Definition goparamVals (a : ArgType.t) (fields : list Field.t)
    (addType : bool) (ignoreNames : list string) : Result (list string) :=
  let ignore := ignoreOfNames ignoreNames in
  match rangeR (λ '(i, vals) f,
    if ignored ignore f then Ok (i, vals) else
    match goparamName i f with
    | Ok s =>
        let s :=
          match goReservedNames !! strings.ToLower s with
          | Some r => r
          | None => s
          end in
        let s := if addType then s +:+ " " +:+ retype a (Field.Typ f) else s in
        Ok (GoInt.incr i, (vals ++ [s])%list)
    | Panic msg => Panic msg
    end) (0%Z, []) fields with
  | Ok (_, vals) => Ok vals
  | Panic msg => Panic msg
  end.

(** [goparamlist] *)
Definition goparamlist (a : ArgType.t) (fields : list Field.t)
    (addPrefix addType : bool) (ignoreNames : list string) : Result string :=
  match goparamVals a fields addType ignoreNames with
  | Ok vals =>
      let str := strings.Join vals ", " in
      if addPrefix && negb (bool_decide (str = ""))
      then Ok (", " +:+ str)
      else Ok str
  | Panic msg => Panic msg
  end.

End MoreFuncs.

(** ** Vocabulary of the statements *)

(** The fields that a builder keeps: those whose [Name] is not among the
    names to ignore, in the order of the list. *)
Definition kept (names : list string) (fields : list Field.t) : list Field.t :=
  filter (λ f, Field.Name f ∉ names) fields.

(** What a builder writes for a list of fields, none of them to skip: one
    piece per field, the counter going up by one [i++] per field. *)
Fixpoint emit (piece : Z → Field.t → string) (i : Z) (l : list Field.t)
    : string :=
  match l with
  | [] => ""
  | f :: l' => piece i f +:+ emit piece (GoInt.incr i) l'
  end.

(** The counter after [n] increments. *)
Fixpoint advance (n : nat) (i : Z) : Z :=
  match n with
  | O => i
  | S n' => advance n' (GoInt.incr i)
  end.

(** The separator that a builder writes in front of a piece: none while the
    counter still has its initial value. *)
Definition commaAt (i : Z) : string := if decide (i ≠ 0%Z) then ", " else "".

Definition sepAt (sep : string) (i : Z) : string :=
  if decide (i ≠ 0%Z) then sep else "".

Definition sepAfter (startCount : Z) (sep : string) (i : Z) : string :=
  if decide (startCount < i)%Z then sep else "".

(** The text written for one field by the geometry-aware column lists, by
    the placeholder lists and by the assignment clauses. *)
Definition geoColumn (a : ArgType.t) (f : Field.t) : string :=
  if isGeo a f
  then "ST_AsBinary(" +:+ colname a (Field.Col f) +:+ ")"
  else colname a (Field.Col f).

Definition valuePlaceholder (a : ArgType.t) (i : Z) (f : Field.t) : string :=
  if isGeo a f then "ST_GeomFromWKB(?)"
  else Loader.NthParam (ArgType.Loader a) i.

Definition queryClause (a : ArgType.t) (i : Z) (f : Field.t) : string :=
  colname a (Field.Col f) +:+ " = " +:+ valuePlaceholder a i f.

Definition isDeletedField (f : Field.t) : bool :=
  bool_decide (Field.Name f = "is_deleted").

(** [strings.Join] as a first element followed by separated elements. *)
Fixpoint leading (sep : string) (xs : list string) : string :=
  match xs with
  | [] => ""
  | x :: xs' => sep +:+ x +:+ leading sep xs'
  end.

(** The conflict-scope arguments that [shortname] recognises. *)
Definition supportedScope (c : ScopeConflict) : bool :=
  match c with
  | ScopeOther => false
  | _ => true
  end.

(** The names that the recognised conflict-scope arguments bring in. *)
Definition scopeNames (scopeConflicts : list ScopeConflict) : list string :=
  scopeConflicts ≫= λ c,
    match c with
    | ScopeString k => [k]
    | ScopeFields k => Field.Name <$> k
    | ScopeQueryParams k => QueryParam.Name <$> k
    | ScopeOther => []
    end.

(** The names that [shortname] always treats as taken. *)
Definition defaultNames : list string :=
  ["sql"; "driver"; "csv"; "errors"; "fmt"; "regexp"; "strings"; "time"].

(** The fields that [proto] declares: those whose column name is not in the
    skip set, in the order of the field list. *)
Definition postSkip (skip : gset string) (fields : list Field.t)
    : list Field.t :=
  filter (λ f, Column.ColumnName (Field.Col f) ∉ skip) fields.

(** The declarations written for a list of fields, none of them skipped,
    the count going up by one [count++] per field. *)
Fixpoint numbered (def : Field.t → Z → string) (count : Z)
    (l : list Field.t) : list string :=
  match l with
  | [] => []
  | f :: l' => def f count :: numbered def (GoInt.incr count) l'
  end.

(** [opt] with another field list for its type. *)
Definition withFields (opt : MethodsOption.t) (fields : list Field.t)
    : MethodsOption.t :=
  let T := MethodsOption.Type_ opt in
  MethodsOption.mk
    (Type_.mk (Type_.Name T) (Type_.Schema T) (Type_.RelType_ T)
       (Type_.PrimaryKeyFields T) fields (Type_.Comment T)
       (Type_.HasDeletedField T))
    (MethodsOption.Sub opt) (MethodsOption.ListFields opt)
    (MethodsOption.ModelToPB opt) (MethodsOption.ModelToPBConfig opt).

(** The type that [proto] writes in the declaration of a field: that of the
    last of its assignments to [def] that applies (the timestamp, else the
    wrapper, else the entry of [ToPBTypeMap], else the Go type). *)
Definition protoTypeName (a : ArgType.t) (f : Field.t) : string :=
  if bool_decide (Field.Typ f = "mysql.NullTime")
     || bool_decide (Field.Typ f = "time.Time")
  then "google.protobuf.Timestamp"
  else
    match ArgType.WrapperTypeMap a !! Field.Typ f with
    | Some v => "google.protobuf." +:+ v
    | None =>
        match ArgType.ToPBTypeMap a !! Field.Typ f with
        | Some v => v
        | None => Field.Typ f
        end
    end.

(** What [proto] writes in the declaration of a field in front of the
    number: the comment line if there is a comment, a tab, the type and the
    column name. *)
Definition declarationHead (a : ArgType.t) (f : Field.t) : string :=
  (if decide (Field.Comment f ≠ "") then Field.Comment f +:+ LF else "")
  +:+ TAB +:+ protoTypeName a f +:+ " " +:+ Column.ColumnName (Field.Col f).

(** Text of bytes below 128 only, on which Go's case mappings are the byte
    maps [strings.ToLower] and [strings.ToUpper] above. *)
Fixpoint isASCII (s : string) : bool :=
  match s with
  | EmptyString => true
  | String c s' => (nat_of_ascii c <? 128)%nat && isASCII s'
  end.

(** [opt] with the skipped fields taken out of the field list of its type. *)
Definition withoutSkipped (opt : MethodsOption.t) : MethodsOption.t :=
  withFields opt
    (postSkip (ModelToPBConfig.SkipFields (MethodsOption.ModelToPBConfig opt))
       (Type_.Fields (MethodsOption.Type_ opt))).

(** The line that [proto] writes for an import path:
    [fmt.Sprintf(`import "%s";`, i)]. *)
Definition importLine (i : string) : string :=
  "import " +:+ QUOTE +:+ i +:+ QUOTE +:+ ";".

(** The slice expression [f.Name[len(n[0]):]] of [goparamlist] is within
    bounds: the first word of the snake form of the name is no longer than
    the name. For an empty name the expression is not evaluated. *)
Definition sliceInBounds (CamelToSnake : string → string) (f : Field.t)
    : Prop :=
  Field.Name f = ""
  ∨ (String.length
       (default "" (head (strings.Split (CamelToSnake (Field.Name f))
                            "_"%char)))
     ≤ String.length (Field.Name f))%nat.

(** A field that the conversion bodies have no statement for: nullable, not
    a [[]byte], not skipped, neither a [mysql.NullTime] nor of a type with a
    wrapper. *)
Definition unmappedNullable (a : ArgType.t) (opt : MethodsOption.t)
    (f : Field.t) : bool :=
  negb (plainField f || skipped opt f)
  && bool_decide (Field.Typ f ≠ "mysql.NullTime"
                  ∧ ArgType.WrapperTypeMap a !! Field.Typ f = None).

(** The records that one call of [modelToPB] or of [PBToModel] logs: one for
    each such field, in the order of the field list. *)
Definition warningsFor (a : ArgType.t) (opt : MethodsOption.t)
    (fields : list Field.t) : list string :=
  warnNull opt <$> filter (λ f, unmappedNullable a opt f = true) fields.

Definition warnings (a : ArgType.t) (opt : MethodsOption.t) : list string :=
  warningsFor a opt (Type_.Fields (MethodsOption.Type_ opt)).

(** A slice in the order that [sort.Stable] establishes: no entry has a
    [Sub] below that of the entry in front of it. *)
Fixpoint sortedBySub (l : list MethodsOption.t) : Prop :=
  match l with
  | [] => True
  | x :: l' =>
      match l' with
      | [] => True
      | y :: _ =>
          strings.Less (MethodsOption.Sub y) (MethodsOption.Sub x) = false
      end ∧ sortedBySub l'
  end.

Section Statements.
Variable CamelToSnake : string → string.
Variable ForceLowerCamelIdentifier : string → string.

(** The name that [shortname] goes on with after consulting the cache, and
    the state that this leaves. *)
Definition cachedOrCalc (st : State) (typ : string) : string :=
  match ShortNameTypeMap st !! typ with
  | Some v => v
  | None => calcShortName CamelToSnake typ
  end.

Definition cacheAfter (st : State) (typ : string) : State :=
  match ShortNameTypeMap st !! typ with
  | Some _ => st
  | None => mkState (<[typ := calcShortName CamelToSnake typ]>
                       (ShortNameTypeMap st)) (Log st)
  end.

(** The identifier that [shortname] returns for a call without conflict
    scopes. *)
Definition resolvedName (a : ArgType.t) (st : State) (typ : string)
    : string :=
  let v := cachedOrCalc st typ in
  if decide (v ∈ defaultNames) then v +:+ ArgType.NameConflictSuffix a else v.

(** The texts of the two bodies for a given short name. *)
Definition modelToPBText (a : ArgType.t) (opt : MethodsOption.t)
    (shortName : string) : string :=
  let '(body, fieldsAssignment) :=
    modelToPBPlain ForceLowerCamelIdentifier a opt shortName in
  foldl (λ body f,
      if plainField f || skipped opt f then body
      else body +:+ default ""
             (modelToPBNullable ForceLowerCamelIdentifier a opt shortName f))
    (body +:+ modelToPBLiteral opt fieldsAssignment)
    (Type_.Fields (MethodsOption.Type_ opt))
  +:+ modelToPBReturn opt.

Definition PBToModelText (a : ArgType.t) (opt : MethodsOption.t)
    (shortName : string) : string :=
  let '(body, fieldsAssignment) :=
    PBToModelPlain ForceLowerCamelIdentifier a opt in
  foldl (λ body f,
      if plainField f || skipped opt f then body
      else body +:+ default ""
             (PBToModelNullable ForceLowerCamelIdentifier a opt shortName f))
    (body +:+ PBToModelLiteral opt shortName fieldsAssignment)
    (Type_.Fields (MethodsOption.Type_ opt))
  +:+ PBToModelReturn shortName.

(** [later a st st']: the state [st'] is reached from [st] by calls of
    [shortname], [modelToPB] and [PBToModel] with the arguments [a]. *)
Inductive later (a : ArgType.t) (st : State) : State → Prop :=
| later_refl : later a st st
| later_shortname st' typ scopeConflicts :
    later a st st' →
    later a st (snd (shortname CamelToSnake a typ scopeConflicts st'))
| later_modelToPB st' opt :
    later a st st' →
    later a st
      (snd (modelToPB CamelToSnake ForceLowerCamelIdentifier a opt st'))
| later_PBToModel st' opt :
    later a st st' →
    later a st
      (snd (PBToModel CamelToSnake ForceLowerCamelIdentifier a opt st')).

End Statements.

(** ** Example inputs *)

Definition exampleLoader : Loader.t :=
  Loader.mk (λ i, "$" +:+ pretty i) (λ _ s, s).

Definition exampleArgs : ArgType.t :=
  ArgType.mk exampleLoader false "Val" {["geometry"]} ∅ "" ∅ ∅ ∅ ∅ "".

Definition exampleArgsSuffix (suffix : string) : ArgType.t :=
  ArgType.mk exampleLoader false suffix {["geometry"]} ∅ "" ∅ ∅ ∅ ∅ "".

Definition exampleField (name typ : string) : Field.t :=
  Field.mk name typ "" 0 (Column.mk name true) "".

(** A nullable column of a type without a wrapper. *)
Definition exampleNullable (name typ : string) : Field.t :=
  Field.mk name typ "" 0 (Column.mk name false) "".

Definition exampleType (fields : list Field.t) : Type_.t :=
  Type_.mk "User" "public" Table [] fields "" false.

Definition exampleOption (fields : list Field.t) (skip : gset string)
    : MethodsOption.t :=
  MethodsOption.mk (exampleType fields) "user" false true
    (ModelToPBConfig.mk "user-svc" skip).

(** A stand-in for [snaker.CamelToSnake] to run the examples with: an
    underscore goes in front of a capital that follows a small letter or a
    digit, and capitals become small letters. On names without initialisms
    or runs of capitals, as used below, snaker gives the same. *)
Fixpoint camelToSnakeFrom (afterLower : bool) (s : string) : string :=
  match s with
  | EmptyString => EmptyString
  | String c s' =>
      let n := nat_of_ascii c in
      let upper := (65 <=? n)%nat && (n <=? 90)%nat in
      let lower := ((97 <=? n)%nat && (n <=? 122)%nat)
                   || ((48 <=? n)%nat && (n <=? 57)%nat) in
      (if afterLower && upper then "_" else "")
        +:+ String (strings.lower_byte c) (camelToSnakeFrom lower s')
  end.

Definition exampleCamelToSnake (s : string) : string :=
  camelToSnakeFrom false s.

Definition emptyState : State := mkState ∅ [].

(** * Properties *)

(** ** Go [int] arithmetic *)

Lemma wrap_in_range z : GoInt.in_range z → GoInt.wrap z = z.
Proof.
  unfold GoInt.in_range, GoInt.min_int, GoInt.max_int, GoInt.wrap. intros Hz.
  rewrite Z.mod_small by lia. lia.
Qed.

Lemma incr_below_max i :
  (GoInt.min_int ≤ i < GoInt.max_int)%Z → GoInt.incr i = (i + 1)%Z.
Proof.
  intros Hi. unfold GoInt.incr. apply wrap_in_range.
  unfold GoInt.in_range, GoInt.min_int, GoInt.max_int in *. lia.
Qed.

Lemma incr_max_int : GoInt.incr GoInt.max_int = GoInt.min_int.
Proof. reflexivity. Qed.

(** ** Strings *)

Lemma append_nil_r (s : string) : s +:+ "" = s.
Proof.
  induction s as [|c s IH]; [done|].
  change (String c (s +:+ "") = String c s). by rewrite IH.
Qed.

Lemma append_assoc (s1 s2 s3 : string) :
  (s1 +:+ s2) +:+ s3 = s1 +:+ (s2 +:+ s3).
Proof.
  induction s1 as [|c s1 IH]; [done|].
  change (String c ((s1 +:+ s2) +:+ s3) = String c (s1 +:+ (s2 +:+ s3))).
  by rewrite IH.
Qed.

(** ** The ignore maps *)

Lemma ignoreOfNames_fold (names : list string) (m : gmap string bool) n :
  foldl (λ ignore n, <[n := true]> ignore) m names !! n
  = if decide (n ∈ names) then Some true else m !! n.
Proof.
  revert m. induction names as [|x names IH]; intros m.
  - case_decide as Hin; [by apply elem_of_nil in Hin | done].
  - cbn [foldl]. rewrite IH.
    destruct (decide (n ∈ names)) as [Hin|Hnin].
    + by rewrite decide_True by by apply list_elem_of_further.
    + destruct (decide (n = x)) as [->|Hne].
      * by rewrite lookup_insert_eq, decide_True by apply list_elem_of_here.
      * rewrite lookup_insert_ne by done. rewrite decide_False; [done|].
        intros [?|?]%elem_of_cons; done.
Qed.

Lemma ignored_names (names : list string) (f : Field.t) :
  ignored (ignoreOfNames names) f = bool_decide (Field.Name f ∈ names).
Proof.
  unfold ignored, ignoreOfNames. rewrite ignoreOfNames_fold, lookup_empty.
  by destruct (decide (Field.Name f ∈ names));
    [rewrite bool_decide_eq_true_2 | rewrite bool_decide_eq_false_2].
Qed.

Lemma ignoreOfFields_names (fs : list Field.t) :
  ignoreOfFields fs = ignoreOfNames (Field.Name <$> fs).
Proof.
  unfold ignoreOfFields, ignoreOfNames. generalize (∅ : gmap string bool).
  induction fs as [|f fs IH]; intros m; simpl; [done | apply IH].
Qed.

Lemma ignored_fields (fs : list Field.t) (f : Field.t) :
  ignored (ignoreOfFields fs) f
  = bool_decide (Field.Name f ∈ Field.Name <$> fs).
Proof. rewrite ignoreOfFields_names. apply ignored_names. Qed.

(** ** The loops of the clause builders *)

Lemma foldl_pointwise {A B} (f g : A → B → A) (l : list B) (x : A) :
  (∀ y b, f y b = g y b) → foldl f x l = foldl g x l.
Proof.
  intros Hfg. revert x. induction l as [|b l IH]; intros x; simpl; [done|].
  by rewrite Hfg, IH.
Qed.

Lemma range_emit (names : list string) (ign : Field.t → bool)
    (piece : Z → Field.t → string) (fields : list Field.t) :
  (∀ f, ign f = bool_decide (Field.Name f ∈ names)) →
  ∀ str i,
    fst (foldl (λ '(str, i) f,
           if ign f then (str, i) else (str +:+ piece i f, GoInt.incr i))
         (str, i) fields)
    = str +:+ emit piece i (kept names fields).
Proof.
  intros Hign. unfold kept.
  induction fields as [|f fields IH]; intros str i; simpl.
  - by rewrite append_nil_r.
  - rewrite Hign. destruct (decide (Field.Name f ∈ names)) as [Hin|Hnin].
    + rewrite bool_decide_eq_true_2, filter_cons_False by auto. apply IH.
    + rewrite bool_decide_eq_false_2, filter_cons_True by done.
      rewrite IH. simpl. by rewrite append_assoc.
Qed.

Lemma range_emit_deleted (names : list string) (ign : Field.t → bool)
    (piece : Z → Field.t → string) (fields : list Field.t) :
  (∀ f, ign f = bool_decide (Field.Name f ∈ names)) →
  ∀ str i skipDeleted,
    foldl (λ '(str, i, skipDeleted) f,
        if ign f then (str, i, skipDeleted) else
        (str +:+ piece i f, GoInt.incr i,
         if decide (Field.Name f = "is_deleted") then true else skipDeleted))
      (str, i, skipDeleted) fields
    = (str +:+ emit piece i (kept names fields),
       advance (length (kept names fields)) i,
       skipDeleted
       || existsb (λ f, bool_decide (Field.Name f = "is_deleted"))
            (kept names fields)).
Proof.
  intros Hign. unfold kept.
  induction fields as [|f fields IH]; intros str i skipDeleted; simpl.
  - by rewrite append_nil_r, orb_false_r.
  - rewrite Hign. destruct (decide (Field.Name f ∈ names)) as [Hin|Hnin].
    + rewrite bool_decide_eq_true_2, filter_cons_False by auto. apply IH.
    + rewrite bool_decide_eq_false_2, filter_cons_True by done.
      rewrite IH. simpl. rewrite append_assoc. f_equal.
      destruct (decide (Field.Name f = "is_deleted")) as [Hd|Hd].
      * by rewrite bool_decide_eq_true_2, orb_true_r by done.
      * by rewrite bool_decide_eq_false_2 by done.
Qed.

Lemma append_nil_l (s : string) : "" +:+ s = s.
Proof. reflexivity. Qed.

Lemma builder_emit (names : list string) (ign : Field.t → bool)
    (piece : Z → Field.t → string)
    (body : string * Z → Field.t → string * Z) (fields : list Field.t) i0 :
  (∀ f, ign f = bool_decide (Field.Name f ∈ names)) →
  (∀ st f, body st f
           = if ign f then st else (st.1 +:+ piece st.2 f, GoInt.incr st.2)) →
  fst (foldl body ("", i0) fields) = emit piece i0 (kept names fields).
Proof.
  intros Hign Hbody.
  rewrite (foldl_pointwise body (λ '(str, i) f,
    if ign f then (str, i) else (str +:+ piece i f, GoInt.incr i))).
  - by rewrite (range_emit names).
  - intros [str i] f. apply Hbody.
Qed.

Lemma builder_emit_deleted (names : list string) (ign : Field.t → bool)
    (piece : Z → Field.t → string)
    (body : string * Z * bool → Field.t → string * Z * bool)
    (fields : list Field.t) i0 :
  (∀ f, ign f = bool_decide (Field.Name f ∈ names)) →
  (∀ st f, body st f
           = if ign f then st else
             (st.1.1 +:+ piece st.1.2 f, GoInt.incr st.1.2,
              if decide (Field.Name f = "is_deleted") then true else st.2)) →
  foldl body ("", i0, false) fields
  = (emit piece i0 (kept names fields),
     advance (length (kept names fields)) i0,
     existsb isDeletedField (kept names fields)).
Proof.
  intros Hign Hbody.
  rewrite (foldl_pointwise body (λ '(str, i, skipDeleted) f,
    if ign f then (str, i, skipDeleted) else
    (str +:+ piece i f, GoInt.incr i,
     if decide (Field.Name f = "is_deleted") then true else skipDeleted))).
  - by rewrite (range_emit_deleted names).
  - intros [[str i] sk] f. apply Hbody.
Qed.

Ltac loop_body :=
  intros [? ?] ?; cbn beta iota; cbn [fst snd];
  unfold commaAt, sepAt, sepAfter, geoColumn, queryClause, valuePlaceholder;
  repeat match goal with
         | |- context [if ?b then _ else _] => destruct b
         end;
  rewrite ?append_assoc, ?append_nil_l; reflexivity.

Ltac loop_body3 :=
  intros [[? ?] ?] ?; cbn beta iota; cbn [fst snd];
  unfold commaAt, sepAt, sepAfter, geoColumn, queryClause, valuePlaceholder;
  repeat match goal with
         | |- context [if ?b then _ else _] => destruct b
         end;
  rewrite ?append_assoc, ?append_nil_l; reflexivity.

(** ** The builders keep the fields that are not ignored, in order *)

Section Builders.
Variable a : ArgType.t.
Variable fields : list Field.t.

Lemma colnames_emit names :
  colnames a fields names
  = emit (λ i f, commaAt i +:+ colname a (Field.Col f)) 0 (kept names fields).
Proof.
  apply (builder_emit names (ignored (ignoreOfNames names)));
    [apply ignored_names | loop_body].
Qed.

Lemma colnamesgeo_emit names :
  colnamesgeo a fields names
  = emit (λ i f, commaAt i +:+ geoColumn a f) 0 (kept names fields).
Proof.
  apply (builder_emit names (ignored (ignoreOfNames names)));
    [apply ignored_names | loop_body].
Qed.

Lemma colnamesmulti_emit ignoreFields :
  colnamesmulti a fields ignoreFields
  = emit (λ i f, commaAt i +:+ colname a (Field.Col f)) 0
      (kept (Field.Name <$> ignoreFields) fields).
Proof.
  apply (builder_emit _ (ignored (ignoreOfFields ignoreFields)));
    [apply ignored_fields | loop_body].
Qed.

Lemma colnamesgeomulti_emit ignoreFields :
  colnamesgeomulti a fields ignoreFields
  = emit (λ i f, commaAt i +:+ geoColumn a f) 0
      (kept (Field.Name <$> ignoreFields) fields).
Proof.
  apply (builder_emit _ (ignored (ignoreOfFields ignoreFields)));
    [apply ignored_fields | loop_body].
Qed.

Lemma colprefixnames_emit prefix names :
  colprefixnames a fields prefix names
  = emit (λ i f, commaAt i +:+ prefix +:+ "." +:+ colname a (Field.Col f)) 0
      (kept names fields).
Proof.
  apply (builder_emit names (ignored (ignoreOfNames names)));
    [apply ignored_names | loop_body].
Qed.

Lemma colvals_emit names :
  colvals a fields names
  = emit (λ i f, commaAt i +:+ valuePlaceholder a i f) 0 (kept names fields).
Proof.
  apply (builder_emit names (ignored (ignoreOfNames names)));
    [apply ignored_names | loop_body].
Qed.

Lemma colvalsmulti_emit ignoreFields :
  colvalsmulti a fields ignoreFields
  = emit (λ i f, commaAt i +:+ valuePlaceholder a i f) 0
      (kept (Field.Name <$> ignoreFields) fields).
Proof.
  apply (builder_emit _ (ignored (ignoreOfFields ignoreFields)));
    [apply ignored_fields | loop_body].
Qed.

Lemma fieldnames_emit prefix names :
  fieldnames a fields prefix names
  = emit (λ i f, commaAt i +:+ prefix +:+ "." +:+ Field.Name f) 0
      (kept names fields).
Proof.
  apply (builder_emit names (ignored (ignoreOfNames names)));
    [apply ignored_names | loop_body].
Qed.

Lemma fieldnamesmulti_emit prefix ignoreFields :
  fieldnamesmulti a fields prefix ignoreFields
  = emit (λ i f, commaAt i +:+ prefix +:+ "." +:+ Field.Name f) 0
      (kept (Field.Name <$> ignoreFields) fields).
Proof.
  apply (builder_emit _ (ignored (ignoreOfFields ignoreFields)));
    [apply ignored_fields | loop_body].
Qed.

Lemma colnamesquery_emit hasDeletedField sep names :
  colnamesquery a fields hasDeletedField sep names
  = appendDeleted hasDeletedField
      (existsb isDeletedField (kept names fields)) sep
      (emit (λ i f, sepAt sep i +:+ queryClause a i f) 0 (kept names fields)).
Proof.
  unfold colnamesquery.
  by rewrite (builder_emit_deleted names (ignored (ignoreOfNames names))
                (λ i f, sepAt sep i +:+ queryClause a i f));
    [|apply ignored_names | loop_body3].
Qed.

Lemma colnamesquerymulti_emit hasDeletedField sep startCount ignoreFields :
  colnamesquerymulti a fields hasDeletedField sep startCount ignoreFields
  = appendDeleted hasDeletedField
      (existsb isDeletedField (kept (Field.Name <$> ignoreFields) fields)) sep
      (emit (λ i f, sepAfter startCount sep i +:+ queryClause a i f)
         startCount (kept (Field.Name <$> ignoreFields) fields)).
Proof.
  unfold colnamesquerymulti.
  by rewrite (builder_emit_deleted (Field.Name <$> ignoreFields)
                (ignored (ignoreOfFields ignoreFields))
                (λ i f, sepAfter startCount sep i +:+ queryClause a i f));
    [|apply ignored_fields | loop_body3].
Qed.

End Builders.

(** ** Numbering of the placeholders *)

Lemma Join_cons (sep x : string) (xs : list string) :
  strings.Join (x :: xs) sep = x +:+ leading sep xs.
Proof.
  unfold strings.Join. revert x.
  induction xs as [|y xs IH]; intros x; simpl.
  - by rewrite append_nil_r.
  - by rewrite <- IH.
Qed.

Lemma imap_shift {A} (g : Z → A → string) (i : Z) (l : list A) :
  imap ((λ k f, g (i + Z.of_nat k)%Z f) ∘ S) l
  = imap (λ k f, g (i + 1 + Z.of_nat k)%Z f) l.
Proof.
  apply imap_ext. intros k f _. simpl. f_equal. lia.
Qed.

Lemma emit_leading (s : Z → string) (render : Z → Field.t → string)
    (sep : string) (lo : Z) (l : list Field.t) :
  (∀ j, (lo < j)%Z → s j = sep) →
  ∀ i, (lo < i)%Z → (GoInt.min_int ≤ i)%Z →
    (i + Z.of_nat (length l) ≤ GoInt.max_int + 1)%Z →
    emit (λ i f, s i +:+ render i f) i l
    = leading sep (imap (λ k f, render (i + Z.of_nat k)%Z f) l).
Proof.
  intros Hs. induction l as [|f l IH]; intros i Hlo Hmin Hmax; [done|].
  cbn [emit imap leading]. rewrite Hs, Z.add_0_r, append_assoc by done.
  do 2 f_equal. rewrite imap_shift.
  destruct l as [|g l]; [done|].
  cbn [length] in *.
  rewrite incr_below_max by lia. apply IH; cbn [length]; lia.
Qed.

Lemma emit_Join (s : Z → string) (render : Z → Field.t → string)
    (sep : string) (start : Z) (l : list Field.t) :
  s start = "" →
  (∀ j, (start < j)%Z → s j = sep) →
  (GoInt.min_int ≤ start)%Z →
  (start + Z.of_nat (length l) ≤ GoInt.max_int + 1)%Z →
  emit (λ i f, s i +:+ render i f) start l
  = strings.Join (imap (λ k f, render (start + Z.of_nat k)%Z f) l) sep.
Proof.
  intros Hstart Hs Hmin Hmax. destruct l as [|f l]; [done|].
  cbn [imap]. rewrite Join_cons, imap_shift.
  cbn [emit]. rewrite Hstart, append_nil_l, Z.add_0_r. f_equal.
  destruct l as [|g l]; [done|]. cbn [length] in *.
  rewrite incr_below_max by lia.
  apply (emit_leading s render sep start); [done | cbn [length]; lia..].
Qed.

Lemma commaAt_0 : commaAt 0 = "".
Proof. reflexivity. Qed.

Lemma commaAt_pos j : (0 < j)%Z → commaAt j = ", ".
Proof. intros Hj. unfold commaAt. rewrite decide_True; [done | lia]. Qed.

Lemma sepAt_0 sep : sepAt sep 0 = "".
Proof. reflexivity. Qed.

Lemma sepAt_pos sep j : (0 < j)%Z → sepAt sep j = sep.
Proof. intros Hj. unfold sepAt. rewrite decide_True; [done | lia]. Qed.

Lemma sepAfter_start startCount sep : sepAfter startCount sep startCount = "".
Proof. unfold sepAfter. rewrite decide_False; [done | lia]. Qed.

Lemma sepAfter_later startCount sep j :
  (startCount < j)%Z → sepAfter startCount sep j = sep.
Proof. intros Hj. unfold sepAfter. by rewrite decide_True. Qed.

Lemma advance_in_range (n : nat) (i : Z) :
  (GoInt.min_int ≤ i)%Z → (i + Z.of_nat n ≤ GoInt.max_int)%Z →
  advance n i = (i + Z.of_nat n)%Z.
Proof.
  revert i. induction n as [|n IH]; intros i Hmin Hmax; cbn [advance].
  - lia.
  - rewrite incr_below_max by lia. rewrite IH by lia. lia.
Qed.

Lemma colcount_advance a fields names :
  colcount a fields names = advance (length (kept names fields)) 1.
Proof.
  unfold colcount, kept. generalize 1%Z.
  induction fields as [|f fields IH]; intros i; [done|].
  cbn [foldl]. rewrite ignored_names.
  destruct (decide (Field.Name f ∈ names)) as [Hin|Hnin].
  - rewrite bool_decide_eq_true_2, filter_cons_False by auto. apply IH.
  - rewrite bool_decide_eq_false_2, filter_cons_True by done. apply IH.
Qed.

Lemma length_kept_complement names (fields : list Field.t) :
  length (kept names fields)
  = length fields - length (filter (λ f, Field.Name f ∈ names) fields).
Proof.
  unfold kept. induction fields as [|f fields IH]; [done|].
  pose proof (length_filter (λ f, Field.Name f ∈ names) fields).
  destruct (decide (Field.Name f ∈ names)) as [Hin|Hnin].
  - rewrite filter_cons_False, filter_cons_True by auto. cbn [length]. lia.
  - rewrite filter_cons_True, filter_cons_False by auto. cbn [length]. lia.
Qed.

Lemma length_ignored_fields names (fields : list Field.t) :
  NoDup names → NoDup (Field.Name <$> fields) →
  names ⊆ Field.Name <$> fields →
  length (filter (λ f, Field.Name f ∈ names) fields) = length names.
Proof.
  intros Hnames Hfields Hsub.
  rewrite <- (length_fmap Field.Name).
  apply Permutation_length, NoDup_Permutation; [|done|].
  - eapply sublist_NoDup; [exact Hfields|].
    apply fmap_sublist, sublist_filter.
  - intros n. rewrite list_elem_of_fmap. split.
    + intros (f & -> & Hf). by apply list_elem_of_filter in Hf as [Hin _].
    + intros Hn. pose proof (Hsub n Hn) as Hf.
      apply list_elem_of_fmap in Hf as (f & -> & Hf).
      exists f. split; [done|]. by apply list_elem_of_filter.
Qed.

(** ** Example inputs *)

(** ** Claims about the clause builders and the count helper *)

(** C8. [colcount] returns one more than the number of fields whose [Name]
    is not among the names to ignore, that is [1 + (len(fields) - k)] for
    [k] the number of fields of the list that are ignored. This is
    [1 + (len(fields) - len(ignoreNames))] when the names to ignore are
    distinct and each names a field of a list without repeated names. *)
Theorem colcount_counts_kept_fields a fields names :
  (Z.of_nat (length (kept names fields)) < GoInt.max_int)%Z →
  colcount a fields names = (1 + Z.of_nat (length (kept names fields)))%Z
  ∧ colcount a fields names
    = (1 + (Z.of_nat (length fields)
            - Z.of_nat (length (filter (λ f, Field.Name f ∈ names) fields))))%Z
  ∧ (NoDup names → NoDup (Field.Name <$> fields) →
     names ⊆ Field.Name <$> fields →
     colcount a fields names
     = (1 + (Z.of_nat (length fields) - Z.of_nat (length names)))%Z).
Proof.
  intros Hlen.
  assert (colcount a fields names
          = (1 + Z.of_nat (length (kept names fields)))%Z) as Hcount.
  { rewrite colcount_advance. apply advance_in_range; [done | lia]. }
  pose proof (length_kept_complement names fields) as Hkept.
  pose proof (length_filter (λ f, Field.Name f ∈ names) fields) as Hle.
  split; [done|]. split.
  - rewrite Hcount. lia.
  - intros Hnames Hfields Hsub.
    rewrite <- (length_ignored_fields names fields) by done.
    rewrite Hcount. lia.
Qed.

Lemma colcount_counts_kept_fields_witness :
  (Z.of_nat (length (kept ["b"] [exampleField "a" "int"; exampleField "b" "int";
                               exampleField "c" "int"])) < GoInt.max_int)%Z
  ∧ colcount exampleArgs
      [exampleField "a" "int"; exampleField "b" "int"; exampleField "c" "int"]
      ["b"] = 3%Z.
Proof.
  assert (Z.of_nat (length (kept ["b"]
            [exampleField "a" "int"; exampleField "b" "int";
             exampleField "c" "int"])) < GoInt.max_int)%Z as Hlen
    by (vm_compute; reflexivity).
  split; [exact Hlen|].
  exact (proj1 (colcount_counts_kept_fields exampleArgs
    [exampleField "a" "int"; exampleField "b" "int"; exampleField "c" "int"]
    ["b"] Hlen)).
Defined.

(** C2. Every clause builder writes one piece for each field whose [Name] is
    not among the names to ignore (given as names or as fields), and for no
    other field, in the order of the field list. *)
Theorem builders_keep_unignored_fields_in_order
    a fields names ignoreFields prefix hasDeletedField sep startCount :
  let keptN := kept names fields in
  let keptF := kept (Field.Name <$> ignoreFields) fields in
  colnames a fields names
    = emit (λ i f, commaAt i +:+ colname a (Field.Col f)) 0 keptN
  ∧ colnamesgeo a fields names
    = emit (λ i f, commaAt i +:+ geoColumn a f) 0 keptN
  ∧ colnamesmulti a fields ignoreFields
    = emit (λ i f, commaAt i +:+ colname a (Field.Col f)) 0 keptF
  ∧ colnamesgeomulti a fields ignoreFields
    = emit (λ i f, commaAt i +:+ geoColumn a f) 0 keptF
  ∧ colnamesquery a fields hasDeletedField sep names
    = appendDeleted hasDeletedField (existsb isDeletedField keptN) sep
        (emit (λ i f, sepAt sep i +:+ queryClause a i f) 0 keptN)
  ∧ colnamesquerymulti a fields hasDeletedField sep startCount ignoreFields
    = appendDeleted hasDeletedField (existsb isDeletedField keptF) sep
        (emit (λ i f, sepAfter startCount sep i +:+ queryClause a i f)
           startCount keptF)
  ∧ colprefixnames a fields prefix names
    = emit (λ i f, commaAt i +:+ prefix +:+ "." +:+ colname a (Field.Col f))
        0 keptN
  ∧ colvals a fields names
    = emit (λ i f, commaAt i +:+ valuePlaceholder a i f) 0 keptN
  ∧ colvalsmulti a fields ignoreFields
    = emit (λ i f, commaAt i +:+ valuePlaceholder a i f) 0 keptF
  ∧ fieldnames a fields prefix names
    = emit (λ i f, commaAt i +:+ prefix +:+ "." +:+ Field.Name f) 0 keptN
  ∧ fieldnamesmulti a fields prefix ignoreFields
    = emit (λ i f, commaAt i +:+ prefix +:+ "." +:+ Field.Name f) 0 keptF.
Proof.
  intros keptN keptF. subst keptN keptF.
  repeat split;
    auto using colnames_emit, colnamesgeo_emit, colnamesmulti_emit,
      colnamesgeomulti_emit, colnamesquery_emit, colnamesquerymulti_emit,
      colprefixnames_emit, colvals_emit, colvalsmulti_emit, fieldnames_emit,
      fieldnamesmulti_emit.
Qed.

(** C1 (as amended). [colvals], [colvalsmulti] and [colnamesquery] give the
    fields they keep the positions 0, 1, 2, ...; [colnamesquerymulti] gives
    them [startCount], [startCount + 1], ... as long as the last of these
    positions is an [int]. A kept field of a geometry type takes its position
    like any other, although the spatial call is written in place of the
    numbered placeholder. *)
Theorem placeholders_number_kept_fields
    a fields names ignoreFields hasDeletedField sep startCount :
  let keptN := kept names fields in
  let keptF := kept (Field.Name <$> ignoreFields) fields in
  (Z.of_nat (length fields) ≤ GoInt.max_int)%Z →
  (GoInt.min_int ≤ startCount)%Z →
  (startCount + Z.of_nat (length keptF) ≤ GoInt.max_int + 1)%Z →
  colvals a fields names
    = strings.Join (imap (λ k f, valuePlaceholder a (Z.of_nat k) f) keptN) ", "
  ∧ colvalsmulti a fields ignoreFields
    = strings.Join (imap (λ k f, valuePlaceholder a (Z.of_nat k) f) keptF) ", "
  ∧ colnamesquery a fields hasDeletedField sep names
    = appendDeleted hasDeletedField (existsb isDeletedField keptN) sep
        (strings.Join (imap (λ k f, queryClause a (Z.of_nat k) f) keptN) sep)
  ∧ colnamesquerymulti a fields hasDeletedField sep startCount ignoreFields
    = appendDeleted hasDeletedField (existsb isDeletedField keptF) sep
        (strings.Join
           (imap (λ k f, queryClause a (startCount + Z.of_nat k) f) keptF) sep).
Proof.
  intros keptN keptF Hfields Hmin Hmax.
  assert (∀ ns, (0 + Z.of_nat (length (kept ns fields))
                 ≤ GoInt.max_int + 1)%Z) as Hkept.
  { intros ns. pose proof (length_filter (λ f, Field.Name f ∉ ns) fields).
    unfold kept. lia. }
  assert (GoInt.min_int ≤ 0)%Z as Hmin0 by done.
  split; [|split; [|split]].
  - rewrite colvals_emit.
    by rewrite (emit_Join commaAt (valuePlaceholder a) ", " 0)
      by auto using commaAt_0, commaAt_pos.
  - rewrite colvalsmulti_emit.
    by rewrite (emit_Join commaAt (valuePlaceholder a) ", " 0)
      by auto using commaAt_0, commaAt_pos.
  - rewrite colnamesquery_emit.
    by rewrite (emit_Join (sepAt sep) (queryClause a) sep 0)
      by auto using sepAt_0, sepAt_pos.
  - rewrite colnamesquerymulti_emit.
    by rewrite (emit_Join (sepAfter startCount sep) (queryClause a) sep
                  startCount)
      by auto using sepAfter_start, sepAfter_later.
Qed.

Lemma placeholders_number_kept_fields_witness :
  let fields := [exampleField "a" "int"; exampleField "b" "geometry";
                 exampleField "c" "int"; exampleField "d" "int"] in
  ((Z.of_nat (length fields) ≤ GoInt.max_int)%Z
   ∧ (GoInt.min_int ≤ 5)%Z
   ∧ (5 + Z.of_nat (length (kept (Field.Name <$> [exampleField "c" "int"])
                              fields)) ≤ GoInt.max_int + 1)%Z)
  ∧ colvals exampleArgs fields ["c"] = "$0, ST_GeomFromWKB(?), $2"
  ∧ colnamesquerymulti exampleArgs fields false " AND " 5
      [exampleField "c" "int"]
    = "a = $5 AND b = ST_GeomFromWKB(?) AND d = $7".
Proof.
  intros fields.
  assert (Z.of_nat (length fields) ≤ GoInt.max_int)%Z as H1
    by (vm_compute; discriminate).
  assert (GoInt.min_int ≤ 5)%Z as H2 by (vm_compute; discriminate).
  assert (5 + Z.of_nat (length (kept (Field.Name <$> [exampleField "c" "int"])
                                  fields)) ≤ GoInt.max_int + 1)%Z as H3
    by (vm_compute; discriminate).
  split; [by repeat split|].
  destruct (placeholders_number_kept_fields exampleArgs fields ["c"]
              [exampleField "c" "int"] false " AND " 5 H1 H2 H3)
    as (Hvals & _ & _ & Hmulti).
  split.
  - rewrite Hvals. by vm_compute.
  - rewrite Hmulti. by vm_compute.
Defined.

(** C1 (as stated) fails for a start count at the end of the [int] range:
    from [startCount = 9223372036854775807] the second kept field gets the
    position [-9223372036854775808], and no separator is written. *)
Lemma placeholders_wrap_at_max_int :
  let fa := exampleField "a" "int" in
  let fb := exampleField "b" "int" in
  let out := colnamesquerymulti exampleArgs [fa; fb] false ", "
               GoInt.max_int [] in
  out = "a = $9223372036854775807b = $-9223372036854775808"
  ∧ out ≠ strings.Join [queryClause exampleArgs GoInt.max_int fa;
                        queryClause exampleArgs (GoInt.max_int + 1) fb] ", ".
Proof. split; [by vm_compute | by vm_compute]. Qed.

Lemma kept_nil_names (fields : list Field.t) : kept [] fields = fields.
Proof.
  unfold kept. induction fields as [|f fields IH]; [done|].
  rewrite filter_cons_True by apply not_elem_of_nil. by rewrite IH.
Qed.

Lemma kept_all_ignored names (fields : list Field.t) :
  Forall (λ f, Field.Name f ∈ names) fields → kept names fields = [].
Proof.
  unfold kept. induction 1 as [|f fields Hf _ IH]; [done|].
  by rewrite filter_cons_False by auto.
Qed.

(** C6. For two fields, neither named "is_deleted", nothing ignored and
    [hasDeletedField] set, [colnamesquery] returns the two clauses and then
    the soft-delete predicate once, each joined to what precedes it by the
    separator. *)
Theorem colnamesquery_appends_deleted_predicate a colA colB sep :
  Field.Name colA ≠ "is_deleted" →
  Field.Name colB ≠ "is_deleted" →
  colnamesquery a [colA; colB] true sep []
  = queryClause a 0 colA +:+ sep +:+ queryClause a 1 colB +:+ sep
      +:+ "is_deleted = false".
Proof.
  intros HA HB. rewrite colnamesquery_emit, kept_nil_names.
  cbn [existsb emit]. unfold isDeletedField.
  rewrite !bool_decide_eq_false_2 by done.
  change (GoInt.incr 0) with 1%Z.
  rewrite sepAt_0, sepAt_pos by done.
  unfold appendDeleted. cbn [andb orb negb].
  by rewrite append_nil_l, append_nil_r, !append_assoc.
Qed.

Lemma colnamesquery_appends_deleted_predicate_witness :
  (Field.Name (exampleField "id" "int") ≠ "is_deleted"
   ∧ Field.Name (exampleField "shape" "geometry") ≠ "is_deleted")
  ∧ colnamesquery exampleArgs
      [exampleField "id" "int"; exampleField "shape" "geometry"] true " AND " []
    = "id = $0 AND shape = ST_GeomFromWKB(?) AND is_deleted = false".
Proof.
  assert (Field.Name (exampleField "id" "int") ≠ "is_deleted") as HA by done.
  assert (Field.Name (exampleField "shape" "geometry") ≠ "is_deleted") as HB
    by done.
  split; [by split|].
  rewrite (colnamesquery_appends_deleted_predicate exampleArgs _ _ " AND " HA HB).
  by vm_compute.
Defined.

(** C10. With [hasDeletedField] set and every field of the list ignored (or
    no field at all), [colnamesquery] and [colnamesquerymulti] return the
    separator followed by the soft-delete predicate. *)
Theorem colnamesquery_nothing_kept
    a fields sep names startCount ignoreFields :
  (Forall (λ f, Field.Name f ∈ names) fields →
   colnamesquery a fields true sep names = sep +:+ "is_deleted = false")
  ∧ (Forall (λ f, Field.Name f ∈ Field.Name <$> ignoreFields) fields →
     colnamesquerymulti a fields true sep startCount ignoreFields
     = sep +:+ "is_deleted = false").
Proof.
  split; intros Hall.
  - rewrite colnamesquery_emit. by rewrite !kept_all_ignored by done.
  - rewrite colnamesquerymulti_emit. by rewrite !kept_all_ignored by done.
Qed.

Lemma colnamesquery_nothing_kept_witness :
  let fields := [exampleField "a" "int"; exampleField "b" "int"] in
  (Forall (λ f, Field.Name f ∈ ["b"; "a"]) fields
   ∧ Forall (λ f, Field.Name f ∈ Field.Name <$> fields) fields)
  ∧ colnamesquery exampleArgs fields true ", " ["b"; "a"]
    = ", is_deleted = false"
  ∧ colnamesquerymulti exampleArgs fields true ", " 3 fields
    = ", is_deleted = false".
Proof.
  intros fields.
  assert (Forall (λ f, Field.Name f ∈ ["b"; "a"]) fields) as H1
    by (repeat constructor).
  assert (Forall (λ f, Field.Name f ∈ Field.Name <$> fields) fields) as H2
    by (repeat constructor).
  split; [by split|]. split.
  - exact (proj1 (colnamesquery_nothing_kept exampleArgs fields ", "
                    ["b"; "a"] 3 fields) H1).
  - exact (proj2 (colnamesquery_nothing_kept exampleArgs fields ", "
                    ["b"; "a"] 3 fields) H2).
Defined.

(** ** The identifier resolver *)

Lemma insert_keys_fold {A} (name : A → string) (l : list A)
    (m : gmap string bool) (v : string) :
  is_Some (foldl (λ conflicts f, <[name f := true]> conflicts) m l !! v)
  ↔ is_Some (m !! v) ∨ v ∈ name <$> l.
Proof.
  revert m. induction l as [|x l IH]; intros m; cbn [foldl fmap list_fmap].
  - rewrite elem_of_nil. tauto.
  - rewrite IH, elem_of_cons, lookup_insert_is_Some. 
    destruct (decide (name x = v)) as [<-|Hne]; [tauto|].
    split; [intros [[?|[? ?]]|?] | intros [?|[?|?]]]; auto; congruence.
Qed.

Lemma defaultConflicts_names :
  defaultConflicts
  = foldl (λ conflicts n, <[n := true]> conflicts) ∅ defaultNames.
Proof. by vm_compute. Qed.

Lemma defaultConflicts_is_Some (v : string) :
  is_Some (defaultConflicts !! v) ↔ v ∈ defaultNames.
Proof.
  rewrite defaultConflicts_names, (insert_keys_fold id), lookup_empty.
  rewrite list_fmap_id. split; [intros [[? ?]|?] | intros ?]; by auto.
Qed.

Lemma scopeNames_cons c scopeConflicts :
  scopeNames (c :: scopeConflicts)
  = (scopeNames [c] ++ scopeNames scopeConflicts)%list.
Proof. unfold scopeNames. cbn. by rewrite app_nil_r. Qed.

Lemma addScopeConflict_supported conflicts c st :
  supportedScope c = true →
  ∃ m, addScopeConflict conflicts c st = (Ok m, st)
       ∧ ∀ v, is_Some (m !! v) ↔ is_Some (conflicts !! v) ∨ v ∈ scopeNames [c].
Proof.
  destruct c as [k|k|k|]; intros Hc; [| | |done]; eexists; (split; [done|]);
    intros v; unfold scopeNames; cbn; rewrite ?app_nil_r.
  - rewrite lookup_insert_is_Some, list_elem_of_singleton.
    split; [intros [->|[_ ?]]; auto | intros [?| ->]; auto].
    destruct (decide (k = v)); auto.
  - apply insert_keys_fold.
  - apply insert_keys_fold.
Qed.

Lemma rangeM_conflicts_supported scopeConflicts conflicts st :
  forallb supportedScope scopeConflicts = true →
  ∃ m, rangeM addScopeConflict conflicts scopeConflicts st = (Ok m, st)
       ∧ ∀ v, is_Some (m !! v)
              ↔ is_Some (conflicts !! v) ∨ v ∈ scopeNames scopeConflicts.
Proof.
  revert conflicts.
  induction scopeConflicts as [|c scopeConflicts IH]; intros conflicts Hall.
  - exists conflicts. split; [done|]. intros v.
    unfold scopeNames. cbn. rewrite elem_of_nil. tauto.
  - cbn [forallb] in Hall. apply andb_true_iff in Hall as [Hc Hall].
    destruct (addScopeConflict_supported conflicts c st Hc) as (m1 & Hm1 & Hk1).
    destruct (IH m1 Hall) as (m & Hm & Hk).
    exists m. split.
    + cbn [rangeM]. unfold bind at 1. by rewrite Hm1.
    + intros v.
      rewrite Hk, Hk1, (scopeNames_cons c scopeConflicts), elem_of_app. tauto.
Qed.

Lemma rangeM_conflicts_unsupported scopeConflicts conflicts st :
  forallb supportedScope scopeConflicts = false →
  rangeM addScopeConflict conflicts scopeConflicts st
  = (Panic "not implemented", st).
Proof.
  revert conflicts.
  induction scopeConflicts as [|c scopeConflicts IH]; intros conflicts Hall;
    [done|].
  cbn [forallb] in Hall. cbn [rangeM]. unfold bind at 1.
  destruct (supportedScope c) eqn:Hc.
  - destruct (addScopeConflict_supported conflicts c st Hc) as (m1 & -> & _).
    by apply IH.
  - by destruct c.
Qed.

Section Resolver.
Variable CamelToSnake : string → string.

Lemma shortname_supported a typ scopeConflicts st :
  forallb supportedScope scopeConflicts = true →
  shortname CamelToSnake a typ scopeConflicts st
  = (Ok (let v := cachedOrCalc CamelToSnake st typ in
         if decide (v ∈ defaultNames ∨ v ∈ scopeNames scopeConflicts)
         then v +:+ ArgType.NameConflictSuffix a else v),
     cacheAfter CamelToSnake st typ).
Proof.
  intros Hall. unfold shortname, cachedOrCalc, cacheAfter.
  unfold bind at 1. unfold cacheLookup.
  set (v := match ShortNameTypeMap st !! typ with
            | Some v => v | None => calcShortName CamelToSnake typ end).
  set (st' := match ShortNameTypeMap st !! typ with
              | Some _ => st
              | None => mkState (<[typ := calcShortName CamelToSnake typ]>
                                   (ShortNameTypeMap st)) (Log st)
              end).
  unfold bind at 1.
  assert ((match ShortNameTypeMap st !! typ with
           | Some v0 => ret v0
           | None => let* _ := cacheStore typ (calcShortName CamelToSnake typ)
                     in ret (calcShortName CamelToSnake typ)
           end) st = (Ok v, st')) as ->.
  { subst v st'. by destruct (ShortNameTypeMap st !! typ). }
  unfold bind at 1.
  destruct (rangeM_conflicts_supported scopeConflicts defaultConflicts st'
              Hall) as (m & -> & Hm).
  destruct (decide (v ∈ defaultNames ∨ v ∈ scopeNames scopeConflicts))
    as [Hin|Hnin].
  - rewrite bool_decide_eq_true_2; [done|].
    apply Hm. by rewrite defaultConflicts_is_Some.
  - rewrite bool_decide_eq_false_2; [done|].
    intros Hv. apply Hm in Hv. by rewrite defaultConflicts_is_Some in Hv.
Qed.

Lemma shortname_unsupported a typ scopeConflicts st :
  forallb supportedScope scopeConflicts = false →
  shortname CamelToSnake a typ scopeConflicts st
  = (Panic "not implemented", cacheAfter CamelToSnake st typ).
Proof.
  intros Hall. unfold shortname, cacheAfter.
  unfold bind at 1. unfold cacheLookup.
  unfold bind at 1.
  destruct (ShortNameTypeMap st !! typ) as [v|].
  - unfold ret at 1. unfold bind at 1.
    by rewrite rangeM_conflicts_unsupported.
  - unfold bind at 1. unfold cacheStore, ret at 1. unfold bind at 1.
    by rewrite rangeM_conflicts_unsupported.
Qed.

End Resolver.

Ltac not_in_list H :=
  repeat (apply elem_of_cons in H as [H|H]; [discriminate|]);
  by apply elem_of_nil in H.

Lemma supported_no_other scopeConflicts :
  forallb supportedScope scopeConflicts = true ↔ ScopeOther ∉ scopeConflicts.
Proof.
  induction scopeConflicts as [|c scopeConflicts IH]; cbn [forallb].
  - split; [intros _; apply not_elem_of_nil | done].
  - rewrite andb_true_iff, IH, not_elem_of_cons.
    destruct c; cbn; split; intros [? ?]; (split; [done|]); done.
Qed.

Lemma reserved_aliases_not_reserved w alias :
  goReservedNames !! w = Some alias → goReservedNames !! alias = None.
Proof.
  intros Hw. unfold goReservedNames in Hw.
  apply elem_of_list_to_map_2 in Hw.
  assert (forallb (λ p, bool_decide (goReservedNames !! p.2 = None))
            goReservedNamesTable = true) as Hall by (by vm_compute).
  rewrite forallb_forall in Hall.
  apply list_elem_of_In, Hall in Hw. by apply bool_decide_eq_true in Hw.
Qed.

(** C9. A call of [shortname] with a conflict-scope argument that is not a
    string, a [[]*Field] or a [[]*QueryParam] panics and returns no
    identifier; a call whose conflict-scope arguments are all of these
    three kinds returns an identifier. *)
Theorem shortname_panics_on_unsupported_scope
    CamelToSnake a typ scopeConflicts st :
  (ScopeOther ∈ scopeConflicts →
   fst (shortname CamelToSnake a typ scopeConflicts st)
   = Panic "not implemented")
  ∧ (ScopeOther ∉ scopeConflicts →
     ∃ v, fst (shortname CamelToSnake a typ scopeConflicts st) = Ok v).
Proof.
  split.
  - intros Hin. rewrite shortname_unsupported; [done|].
    apply not_true_iff_false. intros Hall.
    by apply supported_no_other in Hall.
  - intros Hnin. rewrite shortname_supported by by apply supported_no_other.
    by eexists.
Qed.

Lemma shortname_panics_on_unsupported_scope_witness :
  (ScopeOther ∈ [ScopeString "x"; ScopeOther]
   ∧ ScopeOther ∉ [ScopeString "x"; ScopeFields [exampleField "oi" "int"]])
  ∧ fst (shortname exampleCamelToSnake exampleArgs "OrderItem"
           [ScopeString "x"; ScopeOther] emptyState)
    = Panic "not implemented"
  ∧ ∃ v, fst (shortname exampleCamelToSnake exampleArgs "OrderItem"
                [ScopeString "x"; ScopeFields [exampleField "oi" "int"]]
                emptyState) = Ok v.
Proof.
  assert (ScopeOther ∈ [ScopeString "x"; ScopeOther]) as H1
    by (apply list_elem_of_further, list_elem_of_here).
  assert (ScopeOther
          ∉ [ScopeString "x"; ScopeFields [exampleField "oi" "int"]]) as H2.
  { intros H. not_in_list H. }
  split; [by split|]. split.
  - exact (proj1 (shortname_panics_on_unsupported_scope exampleCamelToSnake
                    exampleArgs "OrderItem" _ emptyState) H1).
  - exact (proj2 (shortname_panics_on_unsupported_scope exampleCamelToSnake
                    exampleArgs "OrderItem" _ emptyState) H2).
Defined.

(** ** Numbering of the message fields *)

Lemma protoFields_loop a p (fields : list Field.t) defs count :
  fst (foldl (λ '(fieldsDef, count) f,
         if skipped p f then (fieldsDef, count) else
         let def := protoFieldDef a f count in
         ((fieldsDef ++ [def])%list, GoInt.incr count)) (defs, count) fields)
  = (defs ++ numbered (protoFieldDef a) count
       (postSkip (ModelToPBConfig.SkipFields (MethodsOption.ModelToPBConfig p))
          fields))%list.
Proof.
  unfold postSkip. revert defs count.
  induction fields as [|f fields IH]; intros defs count; cbn [foldl].
  - by rewrite app_nil_r.
  - unfold skipped at 2. case_bool_decide as Hskip.
    + rewrite filter_cons_False by auto. apply IH.
    + rewrite filter_cons_True by done. cbn zeta. rewrite IH. cbn [numbered].
      by rewrite <- app_assoc.
Qed.

Lemma protoFieldsDef_numbered a p :
  protoFieldsDef a p
  = numbered (protoFieldDef a) 1
      (postSkip (ModelToPBConfig.SkipFields (MethodsOption.ModelToPBConfig p))
         (Type_.Fields (MethodsOption.Type_ p))).
Proof. unfold protoFieldsDef. by rewrite protoFields_loop. Qed.

Lemma numbered_imap (def : Field.t → Z → string) (count : Z)
    (l : list Field.t) :
  (GoInt.min_int ≤ count)%Z →
  (count + Z.of_nat (length l) ≤ GoInt.max_int + 1)%Z →
  numbered def count l = imap (λ k f, def f (count + Z.of_nat k)%Z) l.
Proof.
  revert count. induction l as [|f l IH]; intros count Hmin Hmax; [done|].
  cbn [numbered imap]. rewrite Z.add_0_r. f_equal.
  destruct l as [|g l]; [done|]. cbn [length] in *.
  rewrite incr_below_max by lia. rewrite IH by (cbn [length]; lia).
  apply imap_ext. intros k h _. cbn. f_equal. lia.
Qed.

Lemma postSkip_unskip (skip : gset string) (c : string)
    (l : list Field.t) :
  Forall (λ g, Column.ColumnName (Field.Col g) ≠ c) l →
  postSkip (skip ∖ {[c]}) l = postSkip skip l.
Proof.
  unfold postSkip. induction 1 as [|g l Hg _ IH]; [done|].
  destruct (decide (Column.ColumnName (Field.Col g) ∈ skip)) as [Hin|Hnin].
  - rewrite !filter_cons_False; [done | by auto |].
    intros Hn. apply Hn. apply elem_of_difference. split; [done|].
    by rewrite elem_of_singleton.
  - rewrite !filter_cons_True; [by rewrite IH | done |].
    intros [? _]%elem_of_difference. done.
Qed.

Lemma postSkip_app skip (l1 l2 : list Field.t) :
  postSkip skip (l1 ++ l2)%list
  = (postSkip skip l1 ++ postSkip skip l2)%list.
Proof. apply filter_app. Qed.

(** ** The conversion bodies *)

Lemma state_log_nil st : mkState (ShortNameTypeMap st) (Log st ++ []) = st.
Proof. destruct st. cbn. by rewrite app_nil_r. Qed.

(** A loop over the fields that passes over the fields with [guard], writes
    the statement of a field that has one, and logs one record for a field
    that has none. *)
Lemma nullable_loop (guard : Field.t → bool) (stmt : Field.t → option string)
    (warn : Field.t → string) (B : string → Field.t → M string) :
  (∀ body f st,
     B body f st
     = if guard f then (Ok body, st) else
       match stmt f with
       | Some fa => (Ok (body +:+ fa), st)
       | None => (Ok (body +:+ ""),
                  mkState (ShortNameTypeMap st) (Log st ++ [warn f]))
       end) →
  ∀ fields body st,
    rangeM B body fields st
    = (Ok (foldl (λ body f,
                    if guard f then body
                    else body +:+ default "" (stmt f)) body fields),
       mkState (ShortNameTypeMap st)
         (Log st ++ (warn <$> filter
                       (λ f, negb (guard f) && bool_decide (stmt f = None)
                             = true) fields))).
Proof.
  intros HB. induction fields as [|f fields IH]; intros body st.
  - cbn. by rewrite state_log_nil.
  - cbn [rangeM foldl]. unfold bind. rewrite HB.
    destruct (guard f) eqn:Hg.
    + rewrite IH, filter_cons_False; [done|]. rewrite Hg. cbn. discriminate.
    + destruct (stmt f) as [fa|] eqn:Hs.
      * rewrite IH, filter_cons_False; [done|]. rewrite Hg, Hs. cbn.
        discriminate.
      * rewrite IH, filter_cons_True by (by rewrite Hg, Hs). cbn.
        by rewrite <- app_assoc.
Qed.


Section Bodies.
Variable CamelToSnake : string → string.
Variable ForceLowerCamelIdentifier : string → string.

Lemma shortname_no_scopes a typ st :
  shortname CamelToSnake a typ [] st
  = (Ok (resolvedName CamelToSnake a st typ), cacheAfter CamelToSnake st typ).
Proof.
  rewrite shortname_supported by done. unfold resolvedName. cbn zeta.
  do 2 f_equal.
  destruct (decide (cachedOrCalc CamelToSnake st typ ∈ defaultNames)) as [H|H].
  - rewrite decide_True; [done | by left].
  - rewrite decide_False; [done|].
    intros [?|Hn]; [done|]. by apply elem_of_nil in Hn.
Qed.

Lemma modelToPBNullable_None a opt shortName f :
  bool_decide (modelToPBNullable ForceLowerCamelIdentifier a opt shortName f
               = None)
  = bool_decide (Field.Typ f ≠ "mysql.NullTime"
                 ∧ ArgType.WrapperTypeMap a !! Field.Typ f = None).
Proof.
  apply bool_decide_ext. unfold modelToPBNullable. cbn zeta.
  destruct (decide (Field.Typ f = "mysql.NullTime")) as [Ht|Ht].
  - split; [done | intros [? _]; done].
  - destruct (ArgType.WrapperTypeMap a !! Field.Typ f);
      split; try done; intros [_ ?]; done.
Qed.

Lemma PBToModelNullable_None a opt shortName f :
  bool_decide (PBToModelNullable ForceLowerCamelIdentifier a opt shortName f
               = None)
  = bool_decide (Field.Typ f ≠ "mysql.NullTime"
                 ∧ ArgType.WrapperTypeMap a !! Field.Typ f = None).
Proof.
  apply bool_decide_ext. unfold PBToModelNullable. cbn zeta.
  destruct (decide (Field.Typ f = "mysql.NullTime")) as [Ht|Ht].
  - split; [done | intros [? _]; done].
  - destruct (ArgType.WrapperTypeMap a !! Field.Typ f);
      split; try done; intros [_ ?]; done.
Qed.

End Bodies.

Lemma cacheAfter_Log CamelToSnake st typ :
  Log (cacheAfter CamelToSnake st typ) = Log st.
Proof. unfold cacheAfter. by destruct (ShortNameTypeMap st !! typ). Qed.

Section BodiesRun.
Variable CamelToSnake : string → string.
Variable ForceLowerCamelIdentifier : string → string.
Variable a : ArgType.t.
Variable opt : MethodsOption.t.

Lemma warnings_filter (stmt : Field.t → option string) guard :
  (∀ f, guard f = plainField f || skipped opt f) →
  (∀ f, bool_decide (stmt f = None)
        = bool_decide (Field.Typ f ≠ "mysql.NullTime"
                       ∧ ArgType.WrapperTypeMap a !! Field.Typ f = None)) →
  warnNull opt <$> filter (λ f, negb (guard f) && bool_decide (stmt f = None)
                                = true)
                     (Type_.Fields (MethodsOption.Type_ opt))
  = warnings a opt.
Proof.
  intros Hguard Hstmt. unfold warnings, warningsFor. f_equal.
  apply list_filter_iff. intros f. unfold unmappedNullable.
  by rewrite Hguard, Hstmt.
Qed.

Lemma modelToPB_run st :
  modelToPB CamelToSnake ForceLowerCamelIdentifier a opt st
  = if MethodsOption.ModelToPB opt
    then (Ok (modelToPBText ForceLowerCamelIdentifier a opt
                (resolvedName CamelToSnake a st
                   (Type_.Name (MethodsOption.Type_ opt)))),
          mkState (ShortNameTypeMap
                     (cacheAfter CamelToSnake st
                        (Type_.Name (MethodsOption.Type_ opt))))
            (Log st ++ warnings a opt))
    else (Ok "", st).
Proof.
  unfold modelToPB, modelToPBText.
  destruct (MethodsOption.ModelToPB opt); [|done]. cbn [negb].
  unfold bind at 1. rewrite shortname_no_scopes.
  destruct (modelToPBPlain ForceLowerCamelIdentifier a opt
              (resolvedName CamelToSnake a st
                (Type_.Name (MethodsOption.Type_ opt)))) as [body fas].
  unfold bind at 1.
  rewrite (nullable_loop (λ f, plainField f || skipped opt f)
             (modelToPBNullable ForceLowerCamelIdentifier a opt
                (resolvedName CamelToSnake a st
                (Type_.Name (MethodsOption.Type_ opt))))
             (warnNull opt)).
  - rewrite warnings_filter, cacheAfter_Log;
      [done | done | apply modelToPBNullable_None].
  - intros body' f st'.
    destruct (plainField f), (skipped opt f); try done. cbn [orb].
    by destruct (modelToPBNullable _ _ _ _ _).
Qed.

Lemma PBToModel_run st :
  PBToModel CamelToSnake ForceLowerCamelIdentifier a opt st
  = if MethodsOption.ModelToPB opt
    then (Ok (PBToModelText ForceLowerCamelIdentifier a opt
                (resolvedName CamelToSnake a st
                   (Type_.Name (MethodsOption.Type_ opt)))),
          mkState (ShortNameTypeMap
                     (cacheAfter CamelToSnake st
                        (Type_.Name (MethodsOption.Type_ opt))))
            (Log st ++ warnings a opt))
    else (Ok "", st).
Proof.
  unfold PBToModel, PBToModelText.
  destruct (MethodsOption.ModelToPB opt); [|done]. cbn [negb].
  unfold bind at 1. rewrite shortname_no_scopes.
  destruct (PBToModelPlain ForceLowerCamelIdentifier a opt) as [body fas].
  unfold bind at 1.
  rewrite (nullable_loop (λ f, plainField f || skipped opt f)
             (PBToModelNullable ForceLowerCamelIdentifier a opt
                (resolvedName CamelToSnake a st
                (Type_.Name (MethodsOption.Type_ opt))))
             (warnNull opt)).
  - rewrite warnings_filter, cacheAfter_Log;
      [done | done | apply PBToModelNullable_None].
  - intros body' f st'.
    destruct (skipped opt f), (plainField f); try done. cbn [orb].
    by destruct (PBToModelNullable _ _ _ _ _).
Qed.

End BodiesRun.


Section UnmappedNullable.
Variable CamelToSnake : string → string.
Variable ForceLowerCamelIdentifier : string → string.
Variable a : ArgType.t.
Variable opt : MethodsOption.t.
Variables (l1 l2 : list Field.t) (f : Field.t).

Hypothesis Henabled : MethodsOption.ModelToPB opt = true.
Hypothesis Hfields :
  Type_.Fields (MethodsOption.Type_ opt) = (l1 ++ f :: l2)%list.
Hypothesis Hnullable : Column.NotNull (Field.Col f) = false.
Hypothesis Hbytes : Field.Typ f ≠ "[]byte".
Hypothesis Hskip :
  Column.ColumnName (Field.Col f)
  ∉ ModelToPBConfig.SkipFields (MethodsOption.ModelToPBConfig opt).
Hypothesis Htime : Field.Typ f ≠ "mysql.NullTime".
Hypothesis Hwrapper : ArgType.WrapperTypeMap a !! Field.Typ f = None.









End UnmappedNullable.


(** ** Repeated generation *)

Lemma Less_asym (s1 s2 : string) :
  strings.Less s1 s2 = true → strings.Less s2 s1 = false.
Proof.
  unfold strings.Less, String.ltb. rewrite (String.compare_antisym s1 s2).
  by destruct (String.compare s2 s1).
Qed.

Lemma insertBySub_sorted x l :
  sortedBySub l → sortedBySub (insertBySub x l).
Proof.
  induction l as [|y l IH]; intros Hl; [done|]. cbn [insertBySub].
  destruct (strings.Less (MethodsOption.Sub y) (MethodsOption.Sub x)) eqn:Hyx;
    [|done].
  destruct Hl as [Hy Hl]. split; [|by apply IH].
  destruct l as [|z l]; cbn [insertBySub]; [by apply Less_asym|].
  destruct (strings.Less (MethodsOption.Sub z) (MethodsOption.Sub x));
    [done | by apply Less_asym].
Qed.

Lemma sortStable_sorted pc : sortedBySub (sortStable pc).
Proof.
  induction pc as [|x pc IH]; [done|]. by apply insertBySub_sorted.
Qed.

Lemma insertBySub_perm x l : insertBySub x l ≡ₚ x :: l.
Proof.
  induction l as [|y l IH]; [done|]. cbn [insertBySub].
  destruct (strings.Less _ _); [|done].
  rewrite IH. apply Permutation_swap.
Qed.

Lemma sortStable_perm pc : sortStable pc ≡ₚ pc.
Proof.
  induction pc as [|x pc IH]; [done|]. cbn [sortStable foldr].
  fold (sortStable pc). by rewrite insertBySub_perm, IH.
Qed.

Lemma sortStable_of_sorted pc : sortedBySub pc → sortStable pc = pc.
Proof.
  induction pc as [|x pc IH]; intros Hpc; [done|].
  destruct Hpc as [Hx Hpc]. cbn [sortStable foldr]. fold (sortStable pc).
  rewrite IH by done. destruct pc as [|y pc]; [done|].
  cbn [insertBySub]. by rewrite Hx.
Qed.

Lemma sortStable_idem pc : sortStable (sortStable pc) = sortStable pc.
Proof. apply sortStable_of_sorted, sortStable_sorted. Qed.

Lemma proto_twice a pc : proto a (snd (proto a pc)) = proto a pc.
Proof.
  destruct pc as [|x pc]; [done|]. unfold proto at 2. cbn [snd].
  destruct (sortStable (x :: pc)) as [|y pc'] eqn:Hsort.
  - apply (f_equal length) in Hsort.
    rewrite (Permutation_length (sortStable_perm (x :: pc))) in Hsort.
    done.
  - unfold proto. rewrite <- Hsort. by rewrite sortStable_idem.
Qed.

Section Repeated.
Variable CamelToSnake : string → string.
Variable ForceLowerCamelIdentifier : string → string.
Variable a : ArgType.t.

Lemma cachedOrCalc_insert st typ log typ' :
  cachedOrCalc CamelToSnake
    (mkState (ShortNameTypeMap (cacheAfter CamelToSnake st typ)) log) typ'
  = cachedOrCalc CamelToSnake st typ'.
Proof.
  unfold cachedOrCalc, cacheAfter. cbn [ShortNameTypeMap].
  destruct (ShortNameTypeMap st !! typ) as [v|] eqn:Hst; [done|].
  cbn [ShortNameTypeMap].
  destruct (decide (typ = typ')) as [<-|Hne].
  - by rewrite lookup_insert_eq, Hst.
  - by rewrite lookup_insert_ne.
Qed.

Lemma cachedOrCalc_cacheAfter st typ typ' :
  cachedOrCalc CamelToSnake (cacheAfter CamelToSnake st typ) typ'
  = cachedOrCalc CamelToSnake st typ'.
Proof.
  rewrite <- (cachedOrCalc_insert st typ
                (Log (cacheAfter CamelToSnake st typ)) typ').
  by destruct (cacheAfter CamelToSnake st typ).
Qed.

Lemma later_cachedOrCalc st st' :
  later CamelToSnake ForceLowerCamelIdentifier a st st' →
  ∀ typ, cachedOrCalc CamelToSnake st' typ = cachedOrCalc CamelToSnake st typ.
Proof.
  induction 1 as [|st' typ0 scopeConflicts _ IH|st' opt _ IH|st' opt _ IH];
    intros typ; [done|..].
  - destruct (forallb supportedScope scopeConflicts) eqn:Hall.
    + rewrite shortname_supported by done. cbn [snd].
      by rewrite cachedOrCalc_cacheAfter.
    + rewrite shortname_unsupported by done. cbn [snd].
      by rewrite cachedOrCalc_cacheAfter.
  - rewrite modelToPB_run. destruct (MethodsOption.ModelToPB opt); [|done].
    cbn [snd]. by rewrite cachedOrCalc_insert.
  - rewrite PBToModel_run. destruct (MethodsOption.ModelToPB opt); [|done].
    cbn [snd]. by rewrite cachedOrCalc_insert.
Qed.

End Repeated.

(** C7. Generating again gives the same texts: [proto] called on the
    slice that its first call sorted returns the text of the first call,
    and [modelToPB] and [PBToModel] called in a state that earlier calls
    of [shortname], [modelToPB] and [PBToModel] left (with the cache that
    these calls filled) return what they return in the state before these
    calls. *)
Theorem generation_repeats_texts
    CamelToSnake ForceLowerCamelIdentifier a pc opt st st' :
  later CamelToSnake ForceLowerCamelIdentifier a st st' →
  fst (proto a (snd (proto a pc))) = fst (proto a pc)
  ∧ fst (modelToPB CamelToSnake ForceLowerCamelIdentifier a opt st')
    = fst (modelToPB CamelToSnake ForceLowerCamelIdentifier a opt st)
  ∧ fst (PBToModel CamelToSnake ForceLowerCamelIdentifier a opt st')
    = fst (PBToModel CamelToSnake ForceLowerCamelIdentifier a opt st).
Proof.
  intros Hlater.
  pose proof (later_cachedOrCalc _ _ _ st st' Hlater) as Hnames.
  split; [by rewrite proto_twice|].
  rewrite !modelToPB_run, !PBToModel_run.
  destruct (MethodsOption.ModelToPB opt); [|done]. cbn [fst].
  unfold resolvedName. by rewrite Hnames.
Qed.

Lemma generation_repeats_texts_witness :
  let opt := exampleOption [exampleField "id" "int64";
                            exampleNullable "nickname" "sql.NullString";
                            exampleField "created_at" "time.Time"] ∅ in
  let pc := [opt; exampleOption [exampleField "id" "int64"] ∅] in
  let st1 := snd (modelToPB exampleCamelToSnake strings.ToLower exampleArgs opt
                    emptyState) in
  let st2 := snd (PBToModel exampleCamelToSnake strings.ToLower exampleArgs opt
                    st1) in
  later exampleCamelToSnake strings.ToLower exampleArgs emptyState st2
  ∧ fst (proto exampleArgs (snd (proto exampleArgs pc)))
    = fst (proto exampleArgs pc)
  ∧ fst (modelToPB exampleCamelToSnake strings.ToLower exampleArgs opt st2)
    = fst (modelToPB exampleCamelToSnake strings.ToLower exampleArgs opt
             emptyState)
  ∧ fst (PBToModel exampleCamelToSnake strings.ToLower exampleArgs opt st2)
    = fst (PBToModel exampleCamelToSnake strings.ToLower exampleArgs opt
             emptyState).
Proof.
  intros opt pc st1 st2.
  assert (later exampleCamelToSnake strings.ToLower exampleArgs emptyState st2)
    as Hlater by (apply later_PBToModel, later_modelToPB, later_refl).
  split; [exact Hlater|].
  exact (generation_repeats_texts exampleCamelToSnake strings.ToLower
           exampleArgs pc opt emptyState st2 Hlater).
Defined.


(** * Further properties *)

(** ** Helpers on strings *)

Lemma string_ind2 (P : string → Prop) :
  P "" → (∀ c, P (String c "")) →
  (∀ c1 c2 s, P s → P (String c1 (String c2 s))) → ∀ s, P s.
Proof.
  intros H0 H1 H2 s.
  cut (P s ∧ ∀ c, P (String c s)); [by intros [? _]|].
  induction s as [|c s [IH1 IH2]]; [by split|].
  split; [apply IH2 | intros c'; by apply H2].
Qed.

Lemma length_append (s1 s2 : string) :
  String.length (s1 +:+ s2) = String.length s1 + String.length s2.
Proof.
  induction s1 as [|c s1 IH]; [done|].
  change (S (String.length (s1 +:+ s2))
          = S (String.length s1 + String.length s2)). by rewrite IH.
Qed.

Lemma Contains_append (s1 s2 : string) (c : ascii) :
  Contains (s1 +:+ s2) c = Contains s1 c || Contains s2 c.
Proof.
  unfold Contains. induction s1 as [|d s1 IH]; [done|].
  change (strings.mem_byte c (String d (s1 +:+ s2))
          = strings.mem_byte c (String d s1) || strings.mem_byte c s2).
  cbn [strings.mem_byte]. by destruct (decide (c = d)).
Qed.

(** ** [retype] and [reniltype] *)

Lemma stripSlices_acc (typ acc : string) :
  stripSlices typ acc
  = ((stripSlices typ "").1, acc +:+ (stripSlices typ "").2).
Proof.
  revert acc. induction typ as [|c|c1 c2 s IH] using string_ind2; intros acc.
  - cbn. by rewrite append_nil_r.
  - cbn. by rewrite append_nil_r.
  - cbn [stripSlices]. destruct (decide (c1 = "["%char ∧ c2 = "]"%char)).
    + rewrite (IH (acc +:+ "[]")), (IH ("" +:+ "[]")). cbn [fst snd].
      by rewrite append_nil_l, append_assoc.
    + cbn [fst snd]. by rewrite append_nil_r.
Qed.

Lemma stripSlices_join (typ : string) :
  (stripSlices typ "").2 +:+ (stripSlices typ "").1 = typ.
Proof.
  induction typ as [|c|c1 c2 s IH] using string_ind2; [done..|].
  cbn [stripSlices]. destruct (decide (c1 = "["%char ∧ c2 = "]"%char))
    as [[-> ->]|]; [|done].
  rewrite stripSlices_acc. cbn [fst snd].
  rewrite append_nil_l, append_assoc, IH. done.
Qed.

Lemma customPackage_dot a :
  customPackage a = "" ∨ Contains (customPackage a) "."%char = true.
Proof.
  unfold customPackage. destruct (decide (ArgType.CustomTypePackage a ≠ ""))
    as [Hne|He].
  - right. rewrite Contains_append. by rewrite orb_true_r.
  - left. by destruct (decide (ArgType.CustomTypePackage a = "")).
Qed.

(** X1. [retype] is idempotent: a type that [retype] returned is returned
    unchanged. *)
Theorem retype_idempotent a typ : retype a (retype a typ) = retype a typ.
Proof.
  unfold retype at 2.
  destruct (Contains typ "."%char) eqn:Hdot.
  { unfold retype. by rewrite Hdot. }
  pose proof (stripSlices_join typ) as Hjoin.
  destruct (stripSlices typ "") as [t p] eqn:Hstrip. cbn [fst snd] in Hjoin.
  assert (retype a typ = if decide (t ∉ ArgType.KnownTypeMap a)
                         then p +:+ customPackage a +:+ t else p +:+ t) as Hre.
  { unfold retype. by rewrite Hdot, Hstrip. }
  destruct (decide (t ∉ ArgType.KnownTypeMap a)) as [Hunknown|Hknown].
  - destruct (customPackage_dot a) as [Hpkg|Hpkg].
    + rewrite Hpkg, append_nil_l, Hjoin. rewrite Hre.
      by rewrite Hpkg, append_nil_l, Hjoin.
    + unfold retype.
      by rewrite !Contains_append, Hpkg, orb_true_r.
  - rewrite Hjoin. by rewrite Hre, Hjoin.
Qed.

(** X2. [retype] keeps a slice marker in front and qualifies what follows
    it: for every type, [retype("[]" + typ) = "[]" + retype(typ)]. *)
Theorem retype_slice a typ : retype a ("[]" +:+ typ) = "[]" +:+ retype a typ.
Proof.
  unfold retype.
  change (Contains ("[]" +:+ typ) "."%char) with (Contains typ "."%char).
  destruct (Contains typ "."%char); [done|].
  change (stripSlices ("[]" +:+ typ) "") with (stripSlices typ ("" +:+ "[]")).
  rewrite stripSlices_acc.
  destruct (stripSlices typ "") as [t p]. cbn [fst snd].
  rewrite append_nil_l.
  destruct (decide (t ∉ ArgType.KnownTypeMap a)); by rewrite !append_assoc.
Qed.

(** X3. [reniltype] is idempotent. *)
Theorem reniltype_idempotent a typ :
  reniltype a (reniltype a typ) = reniltype a typ.
Proof.
  unfold reniltype at 2 3.
  destruct (Contains typ "."%char) eqn:Hdot.
  { unfold reniltype. by rewrite Hdot. }
  destruct (strings.HasSuffix typ "{}") eqn:Hsuffix.
  - destruct (decide (String.substring 0 (String.length typ - 2) typ
                      ∈ ArgType.KnownTypeMap a)) as [Hknown|Hunknown].
    + unfold reniltype. rewrite Hdot, Hsuffix. by rewrite decide_True.
    + destruct (customPackage_dot a) as [Hpkg|Hpkg].
      * rewrite Hpkg, append_nil_l. unfold reniltype.
        rewrite Hdot, Hsuffix. by rewrite decide_False, Hpkg.
      * unfold reniltype. by rewrite Contains_append, Hpkg.
  - unfold reniltype. by rewrite Hdot, Hsuffix.
Qed.

(** ** [convext] and [schemafn] *)

(** X4. [convext] returns the bare expression [prefix.Name] exactly when
    the two fields have the same type; with different types the result is
    longer (an accessor, a conversion, or both). *)
Theorem convext_bare_iff_same_type a prefix f t :
  (convext a prefix f t = prefix +:+ "." +:+ Field.Name f
   ↔ Field.Typ f = Field.Typ t)
  ∧ (Field.Typ f ≠ Field.Typ t →
     (String.length (prefix +:+ "." +:+ Field.Name f)
      < String.length (convext a prefix f t))%nat).
Proof.
  assert (Field.Typ f ≠ Field.Typ t →
          (String.length (prefix +:+ "." +:+ Field.Name f)
           < String.length (convext a prefix f t))%nat) as Hlonger.
  { intros Hne. unfold convext. cbn zeta. rewrite decide_False by done.
    destruct (strings.HasPrefix (Field.Typ f) "sql.Null").
    - destruct (decide (Field.Typ t
                        ≠ strings.ToLower (strings.drop_bytes 8 (Field.Typ f))));
        rewrite ?length_append; cbn [String.length]; lia.
    - rewrite decide_True by done.
      rewrite ?length_append. cbn [String.length]. lia. }
  split; [|done]. split.
  - intros Hres. destruct (decide (Field.Typ f = Field.Typ t)) as [|Hne];
      [done|].
    apply Hlonger in Hne. rewrite Hres in Hne. lia.
  - intros Heq. unfold convext. cbn zeta. by rewrite decide_True.
Qed.

Lemma convext_bare_iff_same_type_witness :
  let f := exampleField "Age" "sql.NullInt64" in
  let t := exampleField "Age" "int" in
  Field.Typ f ≠ Field.Typ t
  ∧ convext exampleArgs "u" f t = "int(u.Age.Int64)"
  ∧ (String.length "u.Age" < String.length (convext exampleArgs "u" f t))%nat.
Proof.
  intros f t.
  assert (Field.Typ f ≠ Field.Typ t) as Hne by done.
  split; [exact Hne|]. split; [by vm_compute|].
  exact (proj2 (convext_bare_iff_same_type exampleArgs "u" f t) Hne).
Defined.

(** X5. [schemafn] returns the schema as it is, not escaped even when
    [EscapeSchemaName] is set, when the names join to the empty string (in
    particular without names); the joined names when the schema is empty;
    and otherwise the schema, escaped if asked for, a dot and the joined
    names. *)
Theorem schemafn_cases a (EscapeTableNames EscapeSchemaName : bool)
    (s : string) (names : list string) :
  let n := strings.Join
             (if EscapeTableNames
              then Loader.Escape (ArgType.Loader a) TableEsc <$> names
              else names) "." in
  schemafn a EscapeTableNames EscapeSchemaName s names
  = (if decide (n = "") then s
     else if decide (s = "") then n
     else (if EscapeSchemaName
           then Loader.Escape (ArgType.Loader a) SchemaEsc s else s)
          +:+ "." +:+ n)
  ∧ schemafn a EscapeTableNames EscapeSchemaName s [] = s.
Proof.
  intros n. split.
  - unfold schemafn. fold n. cbn zeta.
    destruct (decide (n = "")) as [Hn|Hn], (decide (s = "")) as [Hs|Hs].
    + rewrite decide_True by done. by rewrite Hs.
    + rewrite decide_False by (by intros [? _]).
      rewrite decide_False by (by intros [_ ?]).
      by rewrite Hn, append_nil_r.
    + rewrite decide_False by (by intros [_ ?]).
      rewrite decide_False by (by intros [? _]). by rewrite Hs.
    + rewrite decide_False by (by intros [? _]).
      rewrite decide_True by done. by rewrite append_assoc.
  - unfold schemafn. destruct EscapeTableNames; cbn;
      destruct (decide (s = "")) as [->|Hs]; try done.
    + rewrite decide_False by (by intros [? _]).
      rewrite decide_False by (by intros [_ ?]). apply append_nil_r.
    + rewrite decide_False by (by intros [? _]).
      rewrite decide_False by (by intros [_ ?]). apply append_nil_r.
Qed.

(** ** [TemplateType.String] and [RelType.String] *)

(** X6. [TemplateType.String] returns a name for the eleven declared
    template types and panics for every other value; the only two template
    types with the same name are [TypeTemplate] and [TypeProtoTemplate]
    ("type"). [RelType.String] returns a name for [Table] and [View] and
    panics for every other value. *)
Theorem template_and_rel_type_names (tt tt' rt : N) :
  ((tt ≤ TemplateType.XOTemplate)%N →
   ∃ s, TemplateType.String_ tt = Ok s)
  ∧ ((TemplateType.XOTemplate < tt)%N →
     TemplateType.String_ tt = Panic "unknown TemplateType")
  ∧ (∀ s, TemplateType.String_ tt = Ok s → TemplateType.String_ tt' = Ok s →
       tt = tt'
       ∨ (s = "type"
          ∧ (tt = TemplateType.TypeTemplate ∨ tt = TemplateType.TypeProtoTemplate)
          ∧ (tt' = TemplateType.TypeTemplate
             ∨ tt' = TemplateType.TypeProtoTemplate)))
  ∧ ((rt ≤ 1)%N → ∃ s, RelTypeString rt = Ok s)
  ∧ ((1 < rt)%N → RelTypeString rt = Panic "unknown RelType").
Proof.
  split; [|split; [|split; [|split]]].
  - intros Hle. unfold TemplateType.String_, TemplateType.XOTemplate,
      TemplateType.EnumTemplate, TemplateType.ProcTemplate,
      TemplateType.TypeTemplate, TemplateType.ForeignKeyTemplate,
      TemplateType.IndexTemplate, TemplateType.MapTemplate,
      TemplateType.QueryTypeTemplate, TemplateType.QueryTemplate,
      TemplateType.OptionalTemplate, TemplateType.TypeProtoTemplate in *.
    repeat case_decide; eauto. lia.
  - intros Hlt. unfold TemplateType.String_, TemplateType.XOTemplate,
      TemplateType.EnumTemplate, TemplateType.ProcTemplate,
      TemplateType.TypeTemplate, TemplateType.ForeignKeyTemplate,
      TemplateType.IndexTemplate, TemplateType.MapTemplate,
      TemplateType.QueryTypeTemplate, TemplateType.QueryTemplate,
      TemplateType.OptionalTemplate, TemplateType.TypeProtoTemplate in *.
    repeat case_decide; try done; lia.
  - intros s. unfold TemplateType.String_, TemplateType.XOTemplate,
      TemplateType.EnumTemplate, TemplateType.ProcTemplate,
      TemplateType.TypeTemplate, TemplateType.ForeignKeyTemplate,
      TemplateType.IndexTemplate, TemplateType.MapTemplate,
      TemplateType.QueryTypeTemplate, TemplateType.QueryTemplate,
      TemplateType.OptionalTemplate, TemplateType.TypeProtoTemplate.
    repeat case_decide; intros Hs Hs'; simplify_eq; auto 10.
  - intros Hle. unfold RelTypeString. repeat case_decide; eauto. lia.
  - intros Hlt. unfold RelTypeString. repeat case_decide; try done; lia.
Qed.

Lemma template_and_rel_type_names_witness :
  ((TemplateType.TypeProtoTemplate ≤ TemplateType.XOTemplate)%N
   ∧ (TemplateType.XOTemplate < 11)%N ∧ (1 ≤ 1)%N ∧ (1 < 2)%N)
  ∧ (∃ s, TemplateType.String_ TemplateType.TypeProtoTemplate = Ok s)
  ∧ TemplateType.String_ 11 = Panic "unknown TemplateType"
  ∧ (∃ s, RelTypeString 1 = Ok s)
  ∧ RelTypeString 2 = Panic "unknown RelType".
Proof.
  assert (TemplateType.TypeProtoTemplate ≤ TemplateType.XOTemplate)%N as H1
    by (vm_compute; discriminate).
  assert (TemplateType.XOTemplate < 11)%N as H2 by (by vm_compute).
  assert (1 ≤ 1)%N as H3 by (vm_compute; discriminate).
  assert (1 < 2)%N as H4 by (by vm_compute).
  split; [by repeat split|].
  split; [|split; [|split]].
  - exact (proj1 (template_and_rel_type_names
                    TemplateType.TypeProtoTemplate 0 0) H1).
  - exact (proj1 (proj2 (template_and_rel_type_names 11 0 0)) H2).
  - exact (proj1 (proj2 (proj2 (proj2 (template_and_rel_type_names 0 0 1))))
             H3).
  - exact (proj2 (proj2 (proj2 (proj2 (template_and_rel_type_names 0 0 2))))
             H4).
Defined.

(** ** [SnakeToCamelWithoutInitialisms], [goPackageName], [ProtoName] *)

Lemma Split_no_sep (s : string) (sep : ascii) :
  Forall (λ w, Contains w sep = false) (strings.Split s sep).
Proof.
  induction s as [|c s IH]; cbn [strings.Split]; [by repeat constructor|].
  destruct (decide (c = sep)) as [->|Hne]; [by constructor|].
  destruct (strings.Split s sep) as [|w ws]; [|inversion IH as [|? ? Hw Hws]].
  - constructor; [|done]. unfold Contains. cbn.
    by rewrite decide_False by done.
  - constructor; [|done]. unfold Contains in *. cbn [strings.mem_byte].
    by rewrite decide_False by done.
Qed.

Lemma Contains_substring (s : string) (c : ascii) (n m : nat) :
  Contains s c = false → Contains (String.substring n m s) c = false.
Proof.
  unfold Contains. revert n m.
  induction s as [|d s IH]; intros n m Hs; [by destruct n, m|].
  cbn [strings.mem_byte] in Hs. destruct (decide (c = d)); [done|].
  destruct n as [|n], m as [|m]; cbn [String.substring strings.mem_byte];
    try done; [|by apply IH..].
  rewrite decide_False by done. by apply IH.
Qed.

Lemma upper_byte_underscore (c : ascii) :
  strings.upper_byte c = "_"%char → c = "_"%char.
Proof.
  destruct c as [b0 b1 b2 b3 b4 b5 b6 b7].
  destruct b0, b1, b2, b3, b4, b5, b6, b7; vm_compute; congruence.
Qed.

Lemma lower_byte_underscore (c : ascii) :
  strings.lower_byte c = "_"%char → c = "_"%char.
Proof.
  destruct c as [b0 b1 b2 b3 b4 b5 b6 b7].
  destruct b0, b1, b2, b3, b4, b5, b6, b7; vm_compute; congruence.
Qed.

Lemma Contains_map_bytes (f : ascii → ascii) (s : string) (c : ascii) :
  (∀ d, f d = c → d = c) →
  Contains s c = false → Contains (strings.map_bytes f s) c = false.
Proof.
  intros Hf. unfold Contains.
  induction s as [|d s IH]; [done|]. cbn [strings.map_bytes strings.mem_byte].
  destruct (decide (c = d)) as [|Hne]; [done|]. intros Hs.
  rewrite decide_False; [by apply IH|]. intros Heq. symmetry in Heq.
  apply Hf in Heq. congruence.
Qed.

(** X7. For a column name of ASCII bytes, the result of
    [SnakeToCamelWithoutInitialisms] contains no underscore. *)
Theorem SnakeToCamel_no_underscore (str : string) :
  isASCII str = true →
  Contains (SnakeToCamelWithoutInitialisms str) "_"%char = false.
Proof.
  intros _.
  unfold SnakeToCamelWithoutInitialisms.
  pose proof (Split_no_sep str "_"%char) as Hwords.
  assert (∀ r, Contains r "_"%char = false →
    Contains (foldl (λ r w,
        if decide (w = "") then r
        else r +:+ strings.ToUpper (strings.first_byte w)
               +:+ strings.ToLower (strings.drop_bytes 1 w))
      r (strings.Split str "_"%char)) "_"%char = false) as Hloop;
    [|by apply Hloop].
  induction Hwords as [|w ws Hw _ IH]; intros r Hr; [done|].
  cbn [foldl]. apply IH. destruct (decide (w = "")); [done|].
  rewrite !Contains_append, Hr. cbn [orb].
  unfold strings.ToUpper, strings.ToLower, strings.first_byte,
    strings.drop_bytes.
  rewrite (Contains_map_bytes strings.upper_byte)
    by (auto using upper_byte_underscore, Contains_substring).
  by rewrite (Contains_map_bytes strings.lower_byte)
    by (auto using lower_byte_underscore, Contains_substring).
Qed.

Lemma SnakeToCamel_no_underscore_witness :
  isASCII "created_at__ID_" = true
  ∧ SnakeToCamelWithoutInitialisms "created_at__ID_" = "CreatedAtId"
  ∧ Contains (SnakeToCamelWithoutInitialisms "created_at__ID_") "_"%char
    = false.
Proof.
  assert (isASCII "created_at__ID_" = true) as Hascii by (by vm_compute).
  split; [exact Hascii|]. split; [by vm_compute|].
  exact (SnakeToCamel_no_underscore "created_at__ID_" Hascii).
Defined.

Lemma ReplaceAll_removes (s : string) (old : ascii) (new : string) :
  Contains new old = false → Contains (strings.ReplaceAll s old new) old = false.
Proof.
  intros Hnew. induction s as [|c s IH]; [done|]. cbn [strings.ReplaceAll].
  destruct (decide (c = old)) as [->|Hne].
  - by rewrite Contains_append, Hnew, IH.
  - unfold Contains in *. cbn [strings.mem_byte].
    by rewrite decide_False by done.
Qed.

Lemma ReplaceAll_keeps_absent (s : string) (old c : ascii) (new : string) :
  Contains s c = false → Contains new c = false →
  Contains (strings.ReplaceAll s old new) c = false.
Proof.
  intros Hs Hnew. induction s as [|d s IH]; [done|].
  unfold Contains in Hs. cbn [strings.mem_byte] in Hs.
  destruct (decide (c = d)) as [|Hcd]; [done|]. cbn [strings.ReplaceAll].
  destruct (decide (d = old)).
  - rewrite Contains_append, Hnew. by apply IH.
  - unfold Contains. cbn [strings.mem_byte]. rewrite decide_False by done.
    by apply IH.
Qed.

Lemma ReplaceAll_absent (s : string) (old : ascii) (new : string) :
  Contains s old = false → strings.ReplaceAll s old new = s.
Proof.
  unfold Contains. induction s as [|c s IH]; [done|].
  cbn [strings.mem_byte strings.ReplaceAll].
  destruct (decide (old = c)) as [|Hne]; [done|]. intros Hs.
  rewrite decide_False by done. by rewrite IH.
Qed.

(** X8. The result of [goPackageName] contains neither "-" nor "_" and the
    result of [ProtoName] no "-"; both functions are idempotent; and the
    package name of a service is that of its proto name:
    [goPackageName(ProtoName(name)) = goPackageName(name)]. *)
Theorem package_names_clean (name : string) :
  Contains (goPackageName name) "-"%char = false
  ∧ Contains (goPackageName name) "_"%char = false
  ∧ Contains (ProtoName name) "-"%char = false
  ∧ goPackageName (goPackageName name) = goPackageName name
  ∧ ProtoName (ProtoName name) = ProtoName name
  ∧ goPackageName (ProtoName name) = goPackageName name.
Proof.
  assert (Contains (goPackageName name) "-"%char = false) as Hdash.
  { unfold goPackageName. apply ReplaceAll_keeps_absent; [|done].
    by apply ReplaceAll_removes. }
  assert (Contains (goPackageName name) "_"%char = false) as Hunder.
  { unfold goPackageName. by apply ReplaceAll_removes. }
  assert (Contains (ProtoName name) "-"%char = false) as Hproto.
  { unfold ProtoName. by apply ReplaceAll_removes. }
  repeat split; try done.
  - unfold goPackageName at 1.
    rewrite (ReplaceAll_absent (goPackageName name) "-") by done.
    by rewrite ReplaceAll_absent.
  - unfold ProtoName at 1. by rewrite ReplaceAll_absent.
  - unfold goPackageName, ProtoName.
    rewrite (ReplaceAll_absent (strings.ReplaceAll name "-" "_") "-")
      by (by apply ReplaceAll_removes).
    clear. induction name as [|c name IH]; [done|]. cbn [strings.ReplaceAll].
    destruct (decide (c = "-"%char)) as [->|Hne].
    + change (strings.ReplaceAll ("_" +:+ strings.ReplaceAll name "-" "_")
                "_" "")
        with ("" +:+ strings.ReplaceAll (strings.ReplaceAll name "-" "_")
                       "_" "").
      by rewrite IH.
    + cbn [strings.ReplaceAll]. destruct (decide (c = "_"%char)); by rewrite IH.
Qed.

(** ** How the clause builders compose *)

Lemma emit_sepAfter_0 (render : Z → Field.t → string) sep (l : list Field.t) :
  (Z.of_nat (length l) ≤ GoInt.max_int + 1)%Z →
  emit (λ i f, sepAfter 0 sep i +:+ render i f) 0 l
  = emit (λ i f, sepAt sep i +:+ render i f) 0 l.
Proof.
  intros Hlen.
  rewrite (emit_Join (sepAfter 0 sep) render sep 0), (emit_Join (sepAt sep) render sep 0);
    auto using sepAfter_start, sepAfter_later, sepAt_0, sepAt_pos; done.
Qed.

(** X9. The variants that take the fields to ignore return what the
    variants that take names return for the names of these fields; for
    [colnamesquerymulti] this holds with [startCount = 0]. *)
Theorem multi_variants_agree a fields ignoreFields prefix hasDeletedField sep :
  (Z.of_nat (length fields) ≤ GoInt.max_int)%Z →
  colnamesmulti a fields ignoreFields
    = colnames a fields (Field.Name <$> ignoreFields)
  ∧ colnamesgeomulti a fields ignoreFields
    = colnamesgeo a fields (Field.Name <$> ignoreFields)
  ∧ colvalsmulti a fields ignoreFields
    = colvals a fields (Field.Name <$> ignoreFields)
  ∧ fieldnamesmulti a fields prefix ignoreFields
    = fieldnames a fields prefix (Field.Name <$> ignoreFields)
  ∧ colnamesquerymulti a fields hasDeletedField sep 0 ignoreFields
    = colnamesquery a fields hasDeletedField sep (Field.Name <$> ignoreFields).
Proof.
  intros Hlen.
  rewrite colnamesmulti_emit, colnames_emit, colnamesgeomulti_emit,
    colnamesgeo_emit, colvalsmulti_emit, colvals_emit, fieldnamesmulti_emit,
    fieldnames_emit, colnamesquerymulti_emit, colnamesquery_emit.
  repeat split. f_equal. apply emit_sepAfter_0.
  pose proof (length_filter (λ f, Field.Name f ∉ Field.Name <$> ignoreFields)
                fields). unfold kept. lia.
Qed.

Lemma multi_variants_agree_witness :
  let fields := [exampleField "id" "int"; exampleField "shape" "geometry";
                 exampleField "name" "string"] in
  (Z.of_nat (length fields) ≤ GoInt.max_int)%Z
  ∧ colnamesquerymulti exampleArgs fields true " AND " 0
      [exampleField "id" "int"]
    = colnamesquery exampleArgs fields true " AND " ["id"].
Proof.
  intros fields.
  assert (Z.of_nat (length fields) ≤ GoInt.max_int)%Z as Hlen
    by (vm_compute; discriminate).
  split; [exact Hlen|].
  exact (proj2 (proj2 (proj2 (proj2
    (multi_variants_agree exampleArgs fields [exampleField "id" "int"] ""
       true " AND " Hlen))))).
Defined.

(** X10. With [hasDeletedField] set, [colnamesquery] and
    [colnamesquerymulti] return what they return without it, followed by
    the separator and "is_deleted = false" unless one of the fields that are
    not ignored is named "is_deleted" ([hasfield]); an ignored "is_deleted"
    field does not keep the predicate away. *)
Theorem soft_delete_predicate_unless_kept
    a fields sep names startCount ignoreFields :
  colnamesquery a fields true sep names
    = colnamesquery a fields false sep names
      +:+ (if hasfield a (kept names fields) "is_deleted" then ""
           else sep +:+ "is_deleted = false")
  ∧ colnamesquerymulti a fields true sep startCount ignoreFields
    = colnamesquerymulti a fields false sep startCount ignoreFields
      +:+ (if hasfield a (kept (Field.Name <$> ignoreFields) fields)
                "is_deleted" then ""
           else sep +:+ "is_deleted = false").
Proof.
  rewrite !colnamesquery_emit, !colnamesquerymulti_emit.
  unfold appendDeleted, hasfield. cbn [andb].
  change (λ f : Field.t, bool_decide (Field.Name f = "is_deleted"))
    with isDeletedField.
  split.
  - destruct (existsb isDeletedField (kept names fields)); cbn [negb];
      by rewrite ?append_nil_r, ?append_assoc.
  - destruct (existsb isDeletedField
                (kept (Field.Name <$> ignoreFields) fields)); cbn [negb];
      by rewrite ?append_nil_r, ?append_assoc.
Qed.

(** X11. For a field list and primary key fields with distinct names, the
    primary key fields being among the fields, [getstartcount] is the
    number of fields that are not primary key fields. So the clause over
    the fields without the primary key, started at 0, uses the positions
    below [getstartcount], and the clause over the primary key fields
    started at [getstartcount] uses the positions from there on. *)
Theorem getstartcount_continues_numbering
    a fields pkFields sep sep' :
  (Z.of_nat (length fields) ≤ GoInt.max_int)%Z →
  NoDup (Field.Name <$> fields) →
  NoDup (Field.Name <$> pkFields) →
  Field.Name <$> pkFields ⊆ Field.Name <$> fields →
  let rest := kept (Field.Name <$> pkFields) fields in
  let n := getstartcount a fields pkFields in
  n = Z.of_nat (length rest)
  ∧ (n + Z.of_nat (length pkFields) = Z.of_nat (length fields))%Z
  ∧ colnamesquerymulti a fields false sep 0 pkFields
    = strings.Join (imap (λ k f, queryClause a (Z.of_nat k) f) rest) sep
  ∧ colnamesquerymulti a pkFields false sep' n []
    = strings.Join (imap (λ k f, queryClause a (n + Z.of_nat k) f) pkFields)
        sep'.
Proof.
  intros Hlen Hfields Hpk Hsub rest n.
  pose proof (length_kept_complement (Field.Name <$> pkFields) fields) as Hkept.
  pose proof (length_ignored_fields (Field.Name <$> pkFields) fields
                Hpk Hfields Hsub) as Hign.
  rewrite length_fmap in Hign.
  pose proof (length_filter (λ f, Field.Name f ∈ Field.Name <$> pkFields)
                fields) as Hle.
  assert (n = Z.of_nat (length rest)) as Hn.
  { subst n rest. unfold getstartcount, GoInt.sub.
    rewrite wrap_in_range;
      unfold GoInt.in_range, GoInt.min_int, GoInt.max_int in *; lia. }
  split; [done|]. split; [subst rest; lia|].
  rewrite !colnamesquerymulti_emit. unfold appendDeleted. cbn [andb].
  change (Field.Name <$> []) with (@nil string). rewrite kept_nil_names.
  split.
  - apply (emit_Join (sepAfter 0 sep) (queryClause a) sep 0);
      auto using sepAfter_start, sepAfter_later; [done|].
    fold rest. subst rest. unfold GoInt.max_int in *. lia.
  - apply (emit_Join (sepAfter n sep') (queryClause a) sep' n);
      auto using sepAfter_start, sepAfter_later.
    + rewrite Hn. unfold GoInt.min_int. lia.
    + rewrite Hn. subst rest. unfold GoInt.max_int in *. lia.
Qed.

Lemma getstartcount_continues_numbering_witness :
  let key := exampleField "id" "int" in
  let fields := [key; exampleField "name" "string"; exampleField "age" "int"] in
  ((Z.of_nat (length fields) ≤ GoInt.max_int)%Z
   ∧ NoDup (Field.Name <$> fields)
   ∧ NoDup (Field.Name <$> [key])
   ∧ Field.Name <$> [key] ⊆ Field.Name <$> fields)
  ∧ getstartcount exampleArgs fields [key] = 2%Z
  ∧ colnamesquerymulti exampleArgs fields false ", " 0 [key]
    = "name = $0, age = $1"
  ∧ colnamesquerymulti exampleArgs [key] false " AND "
      (getstartcount exampleArgs fields [key]) []
    = "id = $2".
Proof.
  intros key fields.
  assert (Z.of_nat (length fields) ≤ GoInt.max_int)%Z as H1
    by (vm_compute; discriminate).
  assert (NoDup (Field.Name <$> fields)) as H2
    by (apply (bool_decide_unpack _); by vm_compute).
  assert (NoDup (Field.Name <$> [key])) as H3
    by (apply (bool_decide_unpack _); by vm_compute).
  assert (Field.Name <$> [key] ⊆ Field.Name <$> fields) as H4.
  { intros x Hx. apply list_elem_of_singleton in Hx as ->.
    apply list_elem_of_here. }
  split; [by repeat split|].
  destruct (getstartcount_continues_numbering exampleArgs fields [key]
              ", " " AND " H1 H2 H3 H4) as (Hn & _ & Hset & Hwhere).
  split; [|split].
  - rewrite Hn. by vm_compute.
  - rewrite Hset. by vm_compute.
  - rewrite Hwhere. by vm_compute.
Defined.

(** ** [goparamlist] *)

Lemma reserved_aliases_lower_not_reserved w alias :
  goReservedNames !! w = Some alias →
  goReservedNames !! strings.ToLower alias = None.
Proof.
  intros Hw. unfold goReservedNames in Hw.
  apply elem_of_list_to_map_2 in Hw.
  assert (forallb (λ p, bool_decide
                          (goReservedNames !! strings.ToLower p.2 = None))
            goReservedNamesTable = true) as Hall by (by vm_compute).
  rewrite forallb_forall in Hall.
  apply list_elem_of_In, Hall in Hw. by apply bool_decide_eq_true in Hw.
Qed.

Lemma Split_not_nil (s : string) (sep : ascii) : strings.Split s sep ≠ [].
Proof.
  destruct s as [|c s]; cbn [strings.Split]; [done|].
  destruct (decide (c = sep)); [done|].
  by destruct (strings.Split s sep).
Qed.

Lemma goparamName_in_bounds CamelToSnake i f :
  sliceInBounds CamelToSnake f → ∃ s, goparamName CamelToSnake i f = Ok s.
Proof.
  unfold sliceInBounds, goparamName. cbn zeta. intros Hfit.
  destruct (decide (0 < String.length (Field.Name f))) as [Hpos|Hzero];
    [|by eauto].
  pose proof (Split_not_nil (CamelToSnake (Field.Name f)) "_"%char) as Hne.
  destruct (strings.Split (CamelToSnake (Field.Name f)) "_"%char)
    as [|n0 ws]; [done|]. cbn [head default] in Hfit.
  destruct Hfit as [Hname|Hlen].
  - rewrite Hname in Hpos. cbn in Hpos. lia.
  - rewrite decide_True by done. by eauto.
Qed.

Lemma goparamName_out_of_bounds CamelToSnake i f :
  ¬ sliceInBounds CamelToSnake f →
  ∃ msg, goparamName CamelToSnake i f = Panic msg.
Proof.
  unfold sliceInBounds, goparamName. cbn zeta. intros Hfit.
  destruct (decide (0 < String.length (Field.Name f))) as [Hpos|Hzero].
  - destruct (strings.Split (CamelToSnake (Field.Name f)) "_"%char)
      as [|n0 ws]; [by eauto|]. cbn [head default] in Hfit.
    rewrite decide_False; [by eauto|]. intros Hlen. apply Hfit. by right.
  - exfalso. apply Hfit. left.
    destruct (Field.Name f); [done|]. cbn in Hzero. lia.
Qed.

Section GoParamList.
Variable CamelToSnake : string → string.
Variable a : ArgType.t.
Variable addType : bool.
Variable names : list string.

Lemma goparam_loop (fields : list Field.t) i vals res :
  rangeR (λ '(i, vals) f,
    if ignored (ignoreOfNames names) f then Ok (i, vals) else
    match goparamName CamelToSnake i f with
    | Ok s =>
        let s :=
          match goReservedNames !! strings.ToLower s with
          | Some r => r
          | None => s
          end in
        let s := if addType then s +:+ " " +:+ retype a (Field.Typ f) else s in
        Ok (GoInt.incr i, (vals ++ [s])%list)
    | Panic msg => Panic msg
    end) (i, vals) fields = Ok res →
  ∃ new, res.2 = (vals ++ new)%list
         ∧ length new = length (kept names fields)
         ∧ (addType = false →
            Forall (λ s, goReservedNames !! strings.ToLower s = None) new).
Proof.
  revert i vals. unfold kept.
  induction fields as [|f fields IH]; intros i vals; cbn [rangeR].
  - intros [= <-]. exists []. by rewrite app_nil_r.
  - rewrite ignored_names.
    destruct (decide (Field.Name f ∈ names)) as [Hin|Hnin].
    + rewrite bool_decide_eq_true_2, filter_cons_False by auto. apply IH.
    + rewrite bool_decide_eq_false_2, filter_cons_True by done.
      destruct (goparamName CamelToSnake i f) as [s|msg]; [|done].
      cbn zeta. intros Hres. apply IH in Hres as (new & Hnew & Hlen & Hall).
      eexists (_ :: new). rewrite Hnew, <- app_assoc.
      split; [done|]. split; [cbn [length]; by rewrite Hlen|].
      intros ->. constructor; [|by apply Hall].
      destruct (goReservedNames !! strings.ToLower s) as [r|] eqn:Hr; [|done].
      by eapply reserved_aliases_lower_not_reserved.
Qed.

Lemma goparam_loop_runs (fields : list Field.t) i vals :
  let loop := rangeR (λ '(i, vals) f,
    if ignored (ignoreOfNames names) f then Ok (i, vals) else
    match goparamName CamelToSnake i f with
    | Ok s =>
        let s :=
          match goReservedNames !! strings.ToLower s with
          | Some r => r
          | None => s
          end in
        let s := if addType then s +:+ " " +:+ retype a (Field.Typ f) else s in
        Ok (GoInt.incr i, (vals ++ [s])%list)
    | Panic msg => Panic msg
    end) (i, vals) fields in
  (Forall (sliceInBounds CamelToSnake) (kept names fields) →
   ∃ res, loop = Ok res)
  ∧ (¬ Forall (sliceInBounds CamelToSnake) (kept names fields) →
     ∃ msg, loop = Panic msg).
Proof.
  revert i vals. unfold kept.
  induction fields as [|f fields IH]; intros i vals; cbn [rangeR].
  - split; [by eauto|]. intros Hn. exfalso. apply Hn. constructor.
  - rewrite ignored_names.
    destruct (decide (Field.Name f ∈ names)) as [Hin|Hnin].
    + rewrite bool_decide_eq_true_2, filter_cons_False by auto. apply IH.
    + rewrite bool_decide_eq_false_2, filter_cons_True by done.
      split.
      * intros [Hf Hrest]%Forall_cons.
        destruct (goparamName_in_bounds CamelToSnake i f Hf) as [s ->].
        cbn zeta. by apply IH.
      * intros Hn.
        destruct (goparamName CamelToSnake i f) as [s|msg] eqn:Hname;
          [|by eauto].
        cbn zeta. apply IH. intros Hrest. apply Hn. constructor; [|done].
        destruct (decide (Field.Name f = "")) as [He|Hne]; [by left|].
        destruct (decide (String.length
                    (default "" (head (strings.Split
                       (CamelToSnake (Field.Name f)) "_"%char)))
                  ≤ String.length (Field.Name f))%nat) as [Hle|Hgt];
          [by right|].
        destruct (goparamName_out_of_bounds CamelToSnake i f) as [msg Hmsg];
          [|congruence].
        by intros [?|?].
Qed.

End GoParamList.

(** X12. [goparamlist] returns when, for every field that is not ignored,
    the slice expression on the field name is within bounds, and panics
    otherwise. When it returns, it has joined one value for each field that
    is not ignored; called without types, none of the joined names is, in
    lower case, a key of [goReservedNames]; and the result starts with ", "
    exactly when [addPrefix] is set and the joined values are not empty. *)
Theorem goparamlist_names_not_reserved
    CamelToSnake a fields addPrefix addType names :
  (Forall (sliceInBounds CamelToSnake) (kept names fields) →
   ∃ vals,
     goparamVals CamelToSnake a fields addType names = Ok vals
     ∧ length vals = length (kept names fields)
     ∧ (addType = false →
        Forall (λ s, goReservedNames !! strings.ToLower s = None) vals)
     ∧ goparamlist CamelToSnake a fields addPrefix addType names
       = Ok ((if addPrefix && negb (bool_decide (strings.Join vals ", " = ""))
              then ", " else "") +:+ strings.Join vals ", "))
  ∧ (¬ Forall (sliceInBounds CamelToSnake) (kept names fields) →
     ∃ msg, goparamlist CamelToSnake a fields addPrefix addType names
            = Panic msg).
Proof.
  pose proof (goparam_loop_runs CamelToSnake a addType names fields 0 [])
    as [Hruns Hpanics].
  cbn zeta in Hruns, Hpanics. unfold goparamlist, goparamVals. split.
  - intros Hfits. destruct (Hruns Hfits) as [[i vals] Hloop].
    rewrite Hloop. exists vals. split; [done|].
    apply goparam_loop in Hloop as (new & Hnew & Hlen & Hall).
    cbn in Hnew. subst new. split; [done|]. split; [done|].
    by destruct (addPrefix && negb (bool_decide (strings.Join vals ", " = ""))).
  - intros Hfits. destruct (Hpanics Hfits) as [msg Hloop].
    rewrite Hloop. by eauto.
Qed.

Lemma goparamlist_names_not_reserved_witness :
  let fields := [exampleField "Type" "string"; exampleField "userID" "int64";
                 exampleField "" "bool"; exampleField "Skip" "int"] in
  (Forall (sliceInBounds exampleCamelToSnake) (kept ["Skip"] fields)
   ∧ ¬ Forall (sliceInBounds (λ _, "identifier")) (kept ["Skip"] fields))
  ∧ goparamlist exampleCamelToSnake exampleArgs fields true false ["Skip"]
    = Ok ", typ, userID, v2"
  ∧ ∃ msg, goparamlist (λ _, "identifier") exampleArgs fields true false
             ["Skip"] = Panic msg.
Proof.
  intros fields.
  assert (Forall (sliceInBounds exampleCamelToSnake) (kept ["Skip"] fields))
    as Hfits.
  { assert (kept ["Skip"] fields
            = [exampleField "Type" "string"; exampleField "userID" "int64";
               exampleField "" "bool"]) as -> by (by vm_compute).
    constructor; [right; vm_compute; lia|].
    constructor; [right; vm_compute; lia|].
    constructor; [by left | constructor]. }
  assert (¬ Forall (sliceInBounds (λ _, "identifier")) (kept ["Skip"] fields))
    as Hnfits.
  { assert (kept ["Skip"] fields
            = [exampleField "Type" "string"; exampleField "userID" "int64";
               exampleField "" "bool"]) as -> by (by vm_compute).
    intros [[Hname|Hlen] _]%Forall_cons; [done|]. vm_compute in Hlen. lia. }
  split; [by split|].
  destruct (goparamlist_names_not_reserved exampleCamelToSnake exampleArgs
              fields true false ["Skip"]) as [Hruns _].
  destruct (goparamlist_names_not_reserved (λ _, "identifier") exampleArgs
              fields true false ["Skip"]) as [_ Hpanics].
  split.
  - destruct (Hruns Hfits) as (vals & Hvals & _ & _ & Hstr). rewrite Hstr.
    vm_compute in Hvals. injection Hvals as <-. by vm_compute.
  - exact (Hpanics Hnfits).
Defined.

(** ** More on the identifier resolver *)

(** X13. With conflict scopes of the recognised kinds, [shortname] appends
    [NameConflictSuffix] exactly when the name it goes on with is one of the
    eight default package names or a name of a conflict scope. On a cache
    hit this name is the cached one, as stored (the reserved names are not
    looked at), and the state stays as it is; on a miss it is the computed
    one, which is stored for the type name, the log staying as it is. *)
Theorem shortname_hit_and_miss CamelToSnake a typ scopeConflicts st :
  ScopeOther ∉ scopeConflicts →
  let suffixed v :=
    if decide (v ∈ defaultNames ∨ v ∈ scopeNames scopeConflicts)
    then v +:+ ArgType.NameConflictSuffix a else v in
  (∀ v, ShortNameTypeMap st !! typ = Some v →
     shortname CamelToSnake a typ scopeConflicts st = (Ok (suffixed v), st))
  ∧ (ShortNameTypeMap st !! typ = None →
     shortname CamelToSnake a typ scopeConflicts st
     = (Ok (suffixed (calcShortName CamelToSnake typ)),
        mkState (<[typ := calcShortName CamelToSnake typ]> (ShortNameTypeMap st))
          (Log st))).
Proof.
  intros Hsup suffixed. apply supported_no_other in Hsup.
  rewrite shortname_supported by done. unfold cachedOrCalc, cacheAfter.
  split.
  - intros v Hv. by rewrite Hv.
  - intros Hv. by rewrite Hv.
Qed.

Lemma shortname_hit_and_miss_witness :
  let st := mkState {["Order" := "map"]} [] in
  (ScopeOther ∉ [ScopeString "o"])
  ∧ shortname exampleCamelToSnake exampleArgs "Order" [ScopeString "o"] st
    = (Ok "map", st)
  ∧ fst (shortname exampleCamelToSnake exampleArgs "Offer" [ScopeString "o"] st)
    = Ok "oVal".
Proof.
  intros st.
  assert (ScopeOther ∉ [ScopeString "o"]) as Hsup
    by (intros H; not_in_list H).
  split; [exact Hsup|].
  destruct (shortname_hit_and_miss exampleCamelToSnake exampleArgs "Order"
              [ScopeString "o"] st Hsup) as [Hhit _].
  destruct (shortname_hit_and_miss exampleCamelToSnake exampleArgs "Offer"
              [ScopeString "o"] st Hsup) as [_ Hmiss].
  split.
  - rewrite (Hhit "map") by (by vm_compute). by vm_compute.
  - rewrite Hmiss by (by vm_compute). by vm_compute.
Defined.

Lemma cacheAfter_subseteq CamelToSnake st typ :
  ShortNameTypeMap st ⊆ ShortNameTypeMap (cacheAfter CamelToSnake st typ)
  ∧ dom (ShortNameTypeMap (cacheAfter CamelToSnake st typ))
    = {[typ]} ∪ dom (ShortNameTypeMap st).
Proof.
  unfold cacheAfter.
  destruct (ShortNameTypeMap st !! typ) as [v|] eqn:Hst; cbn [ShortNameTypeMap].
  - split; [done|]. apply elem_of_dom_2 in Hst.
    symmetry. apply subseteq_union_1_L. by apply singleton_subseteq_l.
  - split; [by apply insert_subseteq | by rewrite dom_insert_L].
Qed.

(** X14. A call of [shortname] (whether it returns or panics), of
    [modelToPB] or of [PBToModel] keeps every cache entry as it is and adds
    at most the entry of the type name it was called for. [shortname] leaves
    the log as it is; [modelToPB] and [PBToModel] never panic and only
    append to the log. *)
Theorem cache_only_grows
    CamelToSnake ForceLowerCamelIdentifier a typ scopeConflicts opt st :
  let s := shortname CamelToSnake a typ scopeConflicts st in
  let m := modelToPB CamelToSnake ForceLowerCamelIdentifier a opt st in
  let p := PBToModel CamelToSnake ForceLowerCamelIdentifier a opt st in
  let name := Type_.Name (MethodsOption.Type_ opt) in
  (ShortNameTypeMap st ⊆ ShortNameTypeMap (snd s)
   ∧ dom (ShortNameTypeMap (snd s)) = {[typ]} ∪ dom (ShortNameTypeMap st)
   ∧ Log (snd s) = Log st)
  ∧ (ShortNameTypeMap st ⊆ ShortNameTypeMap (snd m)
     ∧ dom (ShortNameTypeMap (snd m)) ⊆ {[name]} ∪ dom (ShortNameTypeMap st)
     ∧ (∃ text, fst m = Ok text)
     ∧ ∃ records, Log (snd m) = (Log st ++ records)%list)
  ∧ (ShortNameTypeMap st ⊆ ShortNameTypeMap (snd p)
     ∧ dom (ShortNameTypeMap (snd p)) ⊆ {[name]} ∪ dom (ShortNameTypeMap st)
     ∧ (∃ text, fst p = Ok text)
     ∧ ∃ records, Log (snd p) = (Log st ++ records)%list).
Proof.
  intros s m p name. subst s m p name.
  pose proof (cacheAfter_subseteq CamelToSnake st typ) as [Hsub Hdom].
  pose proof (cacheAfter_subseteq CamelToSnake st
                (Type_.Name (MethodsOption.Type_ opt))) as [Hsub' Hdom'].
  split; [|split].
  - destruct (forallb supportedScope scopeConflicts) eqn:Hall.
    + rewrite shortname_supported by done. cbn [snd].
      by rewrite cacheAfter_Log.
    + rewrite shortname_unsupported by done. cbn [snd].
      by rewrite cacheAfter_Log.
  - rewrite modelToPB_run. destruct (MethodsOption.ModelToPB opt); cbn.
    + rewrite Hdom'. repeat split; eauto.
    + repeat split; eauto; [apply union_subseteq_r|].
      exists []. by rewrite app_nil_r.
  - rewrite PBToModel_run. destruct (MethodsOption.ModelToPB opt); cbn.
    + rewrite Hdom'. repeat split; eauto.
    + repeat split; eauto; [apply union_subseteq_r|].
      exists []. by rewrite app_nil_r.
Qed.

Lemma length_first_byte (s : string) :
  s ≠ "" → String.length (strings.first_byte s) = 1.
Proof. by destruct s as [|c [|d s]]. Qed.

Lemma length_Join_empty (l : list string) :
  String.length (strings.Join l "") = sum_list_with String.length l.
Proof.
  unfold strings.Join. induction l as [|x l IH]; [done|].
  cbn [String.concat sum_list_with]. destruct l as [|y l].
  - cbn. lia.
  - rewrite !length_append, IH. done.
Qed.

(** X15. The name that [shortname] computes has one byte for each word of
    the lower-cased snake form that is neither empty nor "id"; it is empty
    when there is no such word. *)
Theorem shortnameLetters_length CamelToSnake typ :
  String.length (shortnameLetters CamelToSnake typ)
  = length (filter (λ s, s ≠ "" ∧ s ≠ "id")
              (strings.Split (strings.ToLower (CamelToSnake typ)) "_"%char)).
Proof.
  unfold shortnameLetters. rewrite length_Join_empty.
  generalize (strings.Split (strings.ToLower (CamelToSnake typ)) "_"%char).
  intros words.
  assert (∀ u, sum_list_with String.length (foldl (λ u s,
      if decide (0 < String.length s ∧ s ≠ "id")
      then (u ++ [strings.first_byte s])%list else u) u words)
    = sum_list_with String.length u
      + length (filter (λ s, s ≠ "" ∧ s ≠ "id") words)) as Hloop;
    [|by rewrite Hloop].
  induction words as [|w words IH]; intros u; cbn [foldl]; [cbn; lia|].
  rewrite IH.
  destruct (decide (w ≠ "" ∧ w ≠ "id")) as [[Hw Hid]|Hn].
  - rewrite filter_cons_True by done.
    rewrite decide_True by (split; [destruct w; [done|cbn; lia]|done]).
    rewrite sum_list_with_app. cbn [sum_list_with].
    rewrite length_first_byte by done. cbn [length]. lia.
  - rewrite filter_cons_False by done.
    rewrite decide_False; [done|]. intros [Hlen Hid]. apply Hn.
    split; [|done]. intros ->. cbn in Hlen. lia.
Qed.


(** ** Skipped fields *)

Lemma foldl_filter {A B} (f : A → B → A) (P : B → Prop)
    `{∀ x, Decision (P x)} (l : list B) (a : A) :
  (∀ a' x, ¬ P x → f a' x = a') → foldl f a (filter P l) = foldl f a l.
Proof.
  intros Hf. revert a. induction l as [|x l IH]; intros a; [done|].
  destruct (decide (P x)) as [HP|HP].
  - rewrite filter_cons_True by done. cbn [foldl]. apply IH.
  - rewrite filter_cons_False by done. cbn [foldl]. rewrite Hf by done.
    apply IH.
Qed.

Lemma postSkip_idem skip (l : list Field.t) :
  postSkip skip (postSkip skip l) = postSkip skip l.
Proof.
  unfold postSkip. rewrite list_filter_filter. apply list_filter_iff.
  intros f. tauto.
Qed.

Lemma skipped_true p f :
  ¬ (Column.ColumnName (Field.Col f)
     ∉ ModelToPBConfig.SkipFields (MethodsOption.ModelToPBConfig p)) →
  skipped p f = true.
Proof.
  intros Hn. unfold skipped. apply bool_decide_eq_true_2.
  by apply dec_stable.
Qed.

Lemma protoFieldsDef_withoutSkipped a p :
  protoFieldsDef a (withoutSkipped p) = protoFieldsDef a p.
Proof.
  rewrite !protoFieldsDef_numbered. unfold withoutSkipped, withFields.
  cbn [MethodsOption.Type_ MethodsOption.ModelToPBConfig Type_.Fields].
  by rewrite postSkip_idem.
Qed.

Lemma protoMessage_withoutSkipped a p :
  protoMessage a (withoutSkipped p) = protoMessage a p.
Proof.
  unfold protoMessage. by rewrite protoFieldsDef_withoutSkipped.
Qed.

Lemma insertBySub_fmap (g : MethodsOption.t → MethodsOption.t) x l :
  (∀ p, MethodsOption.Sub (g p) = MethodsOption.Sub p) →
  insertBySub (g x) (g <$> l) = g <$> insertBySub x l.
Proof.
  intros Hg. induction l as [|y l IH]; [done|].
  cbn [fmap list_fmap insertBySub]. rewrite !Hg.
  destruct (strings.Less _ _); [|done].
  cbn [fmap list_fmap]. f_equal. apply IH.
Qed.

Lemma sortStable_fmap (g : MethodsOption.t → MethodsOption.t) pc :
  (∀ p, MethodsOption.Sub (g p) = MethodsOption.Sub p) →
  sortStable (g <$> pc) = g <$> sortStable pc.
Proof.
  intros Hg. induction pc as [|x pc IH]; [done|].
  cbn [fmap list_fmap sortStable foldr]. fold (sortStable (g <$> pc)).
  fold (sortStable pc). rewrite IH. by apply insertBySub_fmap.
Qed.

Lemma protoImports_withoutSkipped a pc :
  protoImports a (withoutSkipped <$> pc) = protoImports a pc.
Proof.
  unfold protoImports. rewrite foldl_fmap. f_equal.
  apply foldl_pointwise. intros acc p.
  unfold withoutSkipped, withFields, skipped.
  cbn [MethodsOption.Type_ MethodsOption.ModelToPBConfig Type_.Fields].
  unfold postSkip. rewrite foldl_filter; [done|].
  intros [imports m] f Hf.
  by rewrite bool_decide_eq_true_2 by (by apply dec_stable).
Qed.

Lemma protoBody_withoutSkipped a pc :
  protoBody a (withoutSkipped <$> pc) = protoBody a pc.
Proof.
  unfold protoBody, protoHeader. rewrite protoImports_withoutSkipped.
  rewrite foldl_fmap.
  assert (match withoutSkipped <$> pc with
          | p0 :: _ => ModelToPBConfig.ImportService
                         (MethodsOption.ModelToPBConfig p0)
          | [] => ""
          end
          = match pc with
            | p0 :: _ => ModelToPBConfig.ImportService
                           (MethodsOption.ModelToPBConfig p0)
            | [] => ""
            end) as -> by (by destruct pc).
  apply foldl_pointwise. intros body p. by rewrite protoMessage_withoutSkipped.
Qed.

Lemma proto_withoutSkipped a pc :
  proto a (withoutSkipped <$> pc)
  = (fst (proto a pc), withoutSkipped <$> snd (proto a pc)).
Proof.
  destruct pc as [|x pc]; [done|].
  assert (proto a (withoutSkipped <$> x :: pc)
          = (protoBody a (sortStable (withoutSkipped <$> x :: pc)),
             sortStable (withoutSkipped <$> x :: pc))) as -> by done.
  rewrite sortStable_fmap by done. by rewrite protoBody_withoutSkipped.
Qed.

Lemma modelToPBText_withoutSkipped F a opt shortName :
  modelToPBText F a (withoutSkipped opt) shortName
  = modelToPBText F a opt shortName.
Proof.
  unfold modelToPBText, modelToPBPlain, modelToPBLiteral, modelToPBReturn,
    modelToPBNullable.
  unfold withoutSkipped, withFields, skipped.
  cbn [MethodsOption.Type_ MethodsOption.ModelToPBConfig Type_.Name
       Type_.Fields].
  unfold postSkip. rewrite foldl_filter.
  - match goal with
    | |- context [foldl ?B ("", []) ?l] =>
        destruct (foldl B ("", []) l) as [body fas]
    end.
    f_equal. rewrite foldl_filter; [done|].
    intros body' f Hf.
    rewrite bool_decide_eq_true_2 by (by apply dec_stable).
    by rewrite orb_true_r.
  - intros [body' fas'] f Hf.
    by rewrite bool_decide_eq_true_2 by (by apply dec_stable).
Qed.

Lemma PBToModelText_withoutSkipped F a opt shortName :
  PBToModelText F a (withoutSkipped opt) shortName
  = PBToModelText F a opt shortName.
Proof.
  unfold PBToModelText, PBToModelPlain, PBToModelLiteral, PBToModelReturn,
    PBToModelNullable.
  unfold withoutSkipped, withFields, skipped.
  cbn [MethodsOption.Type_ MethodsOption.ModelToPBConfig Type_.Name
       Type_.Fields]. cbn zeta.
  unfold postSkip. rewrite foldl_filter.
  - match goal with
    | |- context [foldl ?B ("", []) ?l] =>
        destruct (foldl B ("", []) l) as [body fas]
    end.
    f_equal. rewrite foldl_filter; [done|].
    intros body' f Hf.
    rewrite bool_decide_eq_true_2 by (by apply dec_stable).
    by rewrite orb_true_r.
  - intros [body' fas'] f Hf.
    by rewrite bool_decide_eq_true_2 by (by apply dec_stable).
Qed.

Lemma warnings_withoutSkipped a opt :
  warnings a (withoutSkipped opt) = warnings a opt.
Proof.
  unfold warnings, warningsFor, warnNull, withoutSkipped, withFields.
  cbn [MethodsOption.Type_ Type_.Name Type_.Fields]. f_equal.
  unfold postSkip. rewrite list_filter_filter. apply list_filter_iff.
  intros f. unfold unmappedNullable, skipped.
  cbn [MethodsOption.ModelToPBConfig].
  split; [by intros [? _]|]. intros Hf. split; [done|].
  intros Hin. rewrite (bool_decide_eq_true_2 _ Hin) in Hf.
  by rewrite orb_true_r in Hf.
Qed.

(** X16. The outputs of the bridge depend on the fields that are not
    skipped only: with the fields whose column is in [SkipFields] taken out
    of the types beforehand, [modelToPB] and [PBToModel] return the same
    text and leave the same cache and log (no record is logged for a
    skipped field), and [proto] returns the same text. *)
Theorem skipped_fields_leave_no_trace
    CamelToSnake ForceLowerCamelIdentifier a opt pc st :
  modelToPB CamelToSnake ForceLowerCamelIdentifier a (withoutSkipped opt) st
  = modelToPB CamelToSnake ForceLowerCamelIdentifier a opt st
  ∧ PBToModel CamelToSnake ForceLowerCamelIdentifier a (withoutSkipped opt) st
    = PBToModel CamelToSnake ForceLowerCamelIdentifier a opt st
  ∧ fst (proto a (withoutSkipped <$> pc)) = fst (proto a pc)
  ∧ protoFieldsDef a (withoutSkipped opt) = protoFieldsDef a opt.
Proof.
  rewrite !modelToPB_run, !PBToModel_run, proto_withoutSkipped.
  rewrite modelToPBText_withoutSkipped, PBToModelText_withoutSkipped,
    warnings_withoutSkipped, protoFieldsDef_withoutSkipped.
  done.
Qed.

(** ** The order of the messages *)

Lemma Less_irrefl (s : string) : strings.Less s s = false.
Proof.
  destruct (strings.Less s s) eqn:Hs; [|done].
  pose proof (Less_asym s s Hs). congruence.
Qed.

Lemma not_Less_le (s1 s2 : string) :
  strings.Less s2 s1 = false ↔ String.le s1 s2.
Proof.
  unfold strings.Less, String.le, String.ltb, String.leb.
  rewrite (String.compare_antisym s1 s2).
  destruct (String.compare s2 s1); cbn; split; done.
Qed.

Lemma not_Less_trans (s1 s2 s3 : string) :
  strings.Less s2 s1 = false → strings.Less s3 s2 = false →
  strings.Less s3 s1 = false.
Proof. rewrite !not_Less_le. apply (transitivity (R:=String.le)). Qed.

Lemma sortedBySub_pairwise (l : list MethodsOption.t) :
  sortedBySub l →
  ∀ i j x y, (i < j)%nat → l !! i = Some x → l !! j = Some y →
    strings.Less (MethodsOption.Sub y) (MethodsOption.Sub x) = false.
Proof.
  induction l as [|z l IH]; intros Hl i j x y Hij Hi Hj; [done|].
  destruct Hl as [Hz Hl].
  assert (∀ k y', l !! k = Some y' →
            strings.Less (MethodsOption.Sub y') (MethodsOption.Sub z) = false)
    as Hhead.
  { intros k y' Hk. destruct l as [|w l]; [done|].
    destruct k as [|k]; [by injection Hk as <-|].
    eapply not_Less_trans; [exact Hz|].
    apply (IH Hl 0%nat (S k) w y'); [lia|done..]. }
  destruct i as [|i], j as [|j]; try lia.
  - injection Hi as <-. by apply (Hhead j).
  - apply (IH Hl i j); [lia|done..].
Qed.

Lemma insertBySub_filter s x l :
  filter (λ p, MethodsOption.Sub p = s) (insertBySub x l)
  = filter (λ p, MethodsOption.Sub p = s) (x :: l).
Proof.
  induction l as [|y l IH]; [done|]. cbn [insertBySub].
  destruct (strings.Less (MethodsOption.Sub y) (MethodsOption.Sub x)) eqn:Hyx;
    [|done].
  assert (MethodsOption.Sub y ≠ MethodsOption.Sub x) as Hne.
  { intros Heq. rewrite Heq, Less_irrefl in Hyx. done. }
  destruct (decide (MethodsOption.Sub y = s)) as [Hy|Hy].
  - rewrite (filter_cons_True _ y) by done. rewrite IH.
    rewrite (filter_cons_False _ x) by congruence.
    rewrite (filter_cons_False _ x) by congruence.
    by rewrite filter_cons_True by done.
  - rewrite (filter_cons_False _ y) by done. rewrite IH.
    destruct (decide (MethodsOption.Sub x = s)).
    + rewrite !(filter_cons_True _ x) by done.
      by rewrite filter_cons_False by done.
    + rewrite !(filter_cons_False _ x) by done.
      by rewrite filter_cons_False by done.
Qed.

Lemma sortStable_filter s pc :
  filter (λ p, MethodsOption.Sub p = s) (sortStable pc)
  = filter (λ p, MethodsOption.Sub p = s) pc.
Proof.
  induction pc as [|x pc IH]; [done|]. cbn [sortStable foldr].
  fold (sortStable pc). rewrite insertBySub_filter.
  destruct (decide (MethodsOption.Sub x = s)).
  - rewrite !(filter_cons_True _ x) by done. by rewrite IH.
  - rewrite !(filter_cons_False _ x) by done. by rewrite IH.
Qed.

Lemma foldl_append_Join (f : MethodsOption.t → string) l body :
  foldl (λ body p, body +:+ f p) body l
  = body +:+ strings.Join (f <$> l) "".
Proof.
  revert body. induction l as [|x l IH]; intros body; cbn [foldl].
  - by rewrite append_nil_r.
  - rewrite IH, append_assoc. f_equal. destruct l as [|y l].
    + apply append_nil_r.
    + done.
Qed.

Lemma proto_nonempty a pc :
  pc ≠ [] →
  proto a pc
  = (protoHeader a (sortStable pc)
     +:+ strings.Join (protoMessage a <$> sortStable pc) "",
     sortStable pc).
Proof.
  destruct pc as [|x pc]; [done|]. intros _.
  assert (proto a (x :: pc)
          = (protoBody a (sortStable (x :: pc)), sortStable (x :: pc)))
    as -> by done.
  unfold protoBody. cbn zeta. by rewrite foldl_append_Join, append_nil_l.
Qed.

(** X17. [proto] sorts the slice it is given by [Sub], in place and stably:
    the slice it leaves holds the same entries, no entry has a [Sub] below
    that of an entry in front of it, entries with the same [Sub] keep their
    order, and a slice that is in order stays as it is. The text is empty
    for an empty slice; otherwise it is the header of the sorted slice (so
    the package is that of the entry that comes first after sorting)
    followed by the messages in sorted order. *)
Theorem proto_sorts_stably a pc :
  let pc' := snd (proto a pc) in
  pc' ≡ₚ pc
  ∧ (∀ i j x y, (i < j)%nat → pc' !! i = Some x → pc' !! j = Some y →
       strings.Less (MethodsOption.Sub y) (MethodsOption.Sub x) = false)
  ∧ (∀ s, filter (λ p, MethodsOption.Sub p = s) pc'
          = filter (λ p, MethodsOption.Sub p = s) pc)
  ∧ (sortedBySub pc → pc' = pc)
  ∧ fst (proto a pc)
    = if decide (pc = []) then ""
      else protoHeader a pc' +:+ strings.Join (protoMessage a <$> pc') "".
Proof.
  intros pc'. subst pc'. destruct pc as [|x pc].
  { cbn [proto snd fst]. repeat split; try done. }
  assert (proto a (x :: pc)
          = (protoBody a (sortStable (x :: pc)), sortStable (x :: pc)))
    as -> by done.
  cbn [fst snd]. split; [apply sortStable_perm|].
  split; [apply sortedBySub_pairwise, sortStable_sorted|].
  split; [intros s; apply sortStable_filter|].
  split; [apply sortStable_of_sorted|].
  rewrite decide_False by done. unfold protoBody. cbn zeta.
  rewrite foldl_append_Join. by rewrite append_nil_l.
Qed.

Lemma proto_sorts_stably_witness :
  let p1 := MethodsOption.mk (exampleType []) "b" false true
              (ModelToPBConfig.mk "svc-one" ∅) in
  let p2 := MethodsOption.mk (exampleType []) "a" false true
              (ModelToPBConfig.mk "svc-two" ∅) in
  let p3 := MethodsOption.mk (exampleType [exampleField "id" "int64"]) "a"
              false true (ModelToPBConfig.mk "svc-three" ∅) in
  sortedBySub [p2; p3; p1]
  ∧ snd (proto exampleArgs [p1; p2; p3]) = [p2; p3; p1]
  ∧ snd (proto exampleArgs [p2; p3; p1]) = [p2; p3; p1].
Proof.
  intros p1 p2 p3.
  assert (sortedBySub [p2; p3; p1]) as Hsorted by (by vm_compute).
  split; [exact Hsorted|]. split; [by vm_compute|].
  exact (proj1 (proj2 (proj2 (proj2
           (proto_sorts_stably exampleArgs [p2; p3; p1])))) Hsorted).
Defined.

(** ** The imports *)

Lemma append_cancel_r (s i j : string) : i +:+ s = j +:+ s → i = j.
Proof.
  revert j. induction i as [|c i IH]; intros [|d j] Heq; [done|..].
  - apply (f_equal String.length) in Heq.
    change (String d j +:+ s) with (String d (j +:+ s)) in Heq.
    rewrite append_nil_l in Heq. cbn [String.length] in Heq.
    rewrite length_append in Heq. lia.
  - apply (f_equal String.length) in Heq.
    change (String c i +:+ s) with (String c (i +:+ s)) in Heq.
    rewrite append_nil_l in Heq. cbn [String.length] in Heq.
    rewrite length_append in Heq. lia.
  - change (String c (i +:+ s) = String d (j +:+ s)) in Heq.
    injection Heq as -> Heq. f_equal. by apply IH.
Qed.

Lemma importLine_inj : Inj (=) (=) importLine.
Proof.
  intros i j Heq. unfold importLine in Heq.
  apply (append_cancel_r (QUOTE +:+ ";")).
  assert (∀ p x y : string, p +:+ x = p +:+ y → x = y) as Hcancel.
  { induction p as [|c p IH]; intros x y Hxy; [done|].
    change (String c (p +:+ x) = String c (p +:+ y)) in Hxy.
    injection Hxy as Hxy. by apply IH. }
  apply (Hcancel QUOTE), (Hcancel "import "). exact Heq.
Qed.

Section Imports.
Variable a : ArgType.t.

Lemma protoImports_inner p (fields : list Field.t) (m : gset string)
    (l : list string) :
  NoDup l → (∀ i, i ∈ m ↔ i ∈ l) →
  ∃ l' m',
    foldl (λ '(imports, m) f,
      if skipped p f then (imports, m) else
      match ArgType.ImportMap a !! Field.Typ f with
      | Some i =>
          if decide (i ∈ m) then (imports, m)
          else ((imports ++ ["import " +:+ QUOTE +:+ i +:+ QUOTE +:+ ";"])%list,
                {[i]} ∪ m)
      | None => (imports, m)
      end) (importLine <$> l, m) fields
    = (importLine <$> l', m')
    ∧ NoDup l' ∧ (∀ i, i ∈ m' ↔ i ∈ l')
    ∧ ∀ i, i ∈ l' ↔
        i ∈ l ∨ ∃ f, f ∈ fields ∧ skipped p f = false
                     ∧ ArgType.ImportMap a !! Field.Typ f = Some i.
Proof.
  revert m l. induction fields as [|f fields IH]; intros m l Hnd Hm.
  { exists l, m. split; [done|]. split; [done|]. split; [done|].
    intros i. split; [by left|].
    intros [?|(f & Hf & _)]; [done|]. by apply elem_of_nil in Hf. }
  cbn [foldl].
  assert (∀ i, (∃ f0, f0 ∈ fields ∧ skipped p f0 = false
                      ∧ ArgType.ImportMap a !! Field.Typ f0 = Some i) →
               ∃ f0, f0 ∈ f :: fields ∧ skipped p f0 = false
                     ∧ ArgType.ImportMap a !! Field.Typ f0 = Some i)
    as Hlater.
  { intros i (f0 & Hf0 & Hrest). exists f0.
    split; [by apply list_elem_of_further | done]. }
  destruct (skipped p f) eqn:Hskip.
  { destruct (IH m l Hnd Hm) as (l' & m' & Heq & Hnd' & Hm' & Hl').
    exists l', m'. split; [done|]. split; [done|]. split; [done|].
    intros i. split.
    - intros Hi. apply Hl' in Hi as [?|?]; [by left|right; by apply Hlater].
    - intros [?|(f0 & Hf0 & Hs & Hi)]; apply Hl'; [by left|]. right.
      apply elem_of_cons in Hf0 as [-> |Hf0]; [congruence|by exists f0]. }
  destruct (ArgType.ImportMap a !! Field.Typ f) as [i0|] eqn:Himp.
  - destruct (decide (i0 ∈ m)) as [Hin|Hnin].
    + destruct (IH m l Hnd Hm) as (l' & m' & Heq & Hnd' & Hm' & Hl').
      exists l', m'. split; [done|]. split; [done|]. split; [done|].
      intros i. split.
      * intros Hi. apply Hl' in Hi as [?|?]; [by left|right; by apply Hlater].
      * intros [?|(f0 & Hf0 & Hs & Hi)]; apply Hl'; [by left|].
        apply elem_of_cons in Hf0 as [-> |Hf0]; [|right; by exists f0].
        left. rewrite Himp in Hi. injection Hi as <-. by apply Hm.
    + change ((importLine <$> l)
              ++ ["import " +:+ QUOTE +:+ i0 +:+ QUOTE +:+ ";"])%list
        with ((importLine <$> l) ++ (importLine <$> [i0]))%list.
      rewrite <- fmap_app.
      destruct (IH ({[i0]} ∪ m) (l ++ [i0])%list)
        as (l' & m' & Heq & Hnd' & Hm' & Hl').
      { apply NoDup_app. split; [done|]. split; [|apply NoDup_singleton].
        intros i Hi ->%list_elem_of_singleton. apply Hnin. by apply Hm. }
      { intros i. rewrite elem_of_union, elem_of_singleton, elem_of_app,
          list_elem_of_singleton, Hm. tauto. }
      exists l', m'. split; [done|]. split; [done|]. split; [done|].
      intros i. split.
      * intros Hi. apply Hl' in Hi as [Hi|?]; [|right; by apply Hlater].
        apply elem_of_app in Hi as [?| ->%list_elem_of_singleton]; [by left|].
        right. exists f. split; [apply list_elem_of_here|done].
      * intros [?|(f0 & Hf0 & Hs & Hi)]; apply Hl'.
        { left. apply elem_of_app. by left. }
        apply elem_of_cons in Hf0 as [-> |Hf0]; [|right; by exists f0].
        left. rewrite Himp in Hi. injection Hi as <-.
        apply elem_of_app. right. apply list_elem_of_here.
  - destruct (IH m l Hnd Hm) as (l' & m' & Heq & Hnd' & Hm' & Hl').
    exists l', m'. split; [done|]. split; [done|]. split; [done|].
    intros i. split.
    + intros Hi. apply Hl' in Hi as [?|?]; [by left|right; by apply Hlater].
    + intros [?|(f0 & Hf0 & Hs & Hi)]; apply Hl'; [by left|]. right.
      apply elem_of_cons in Hf0 as [-> |Hf0]; [congruence|by exists f0].
Qed.

Lemma protoImports_outer (pc : list MethodsOption.t) (m : gset string)
    (l : list string) :
  NoDup l → (∀ i, i ∈ m ↔ i ∈ l) →
  ∃ l' m',
    foldl (λ acc p,
      foldl (λ '(imports, m) f,
        if skipped p f then (imports, m) else
        match ArgType.ImportMap a !! Field.Typ f with
        | Some i =>
            if decide (i ∈ m) then (imports, m)
            else ((imports ++ ["import " +:+ QUOTE +:+ i +:+ QUOTE +:+ ";"])%list,
                  {[i]} ∪ m)
        | None => (imports, m)
        end) acc (Type_.Fields (MethodsOption.Type_ p)))
      (importLine <$> l, m) pc
    = (importLine <$> l', m')
    ∧ NoDup l'
    ∧ ∀ i, i ∈ l' ↔
        i ∈ l ∨ ∃ p f, p ∈ pc ∧ f ∈ Type_.Fields (MethodsOption.Type_ p)
                       ∧ skipped p f = false
                       ∧ ArgType.ImportMap a !! Field.Typ f = Some i.
Proof.
  revert m l. induction pc as [|p pc IH]; intros m l Hnd Hm.
  { exists l, m. split; [done|]. split; [done|]. intros i.
    split; [by left|].
    intros [?|(p & f & Hp & _)]; [done|]. by apply elem_of_nil in Hp. }
  cbn [foldl].
  destruct (protoImports_inner p (Type_.Fields (MethodsOption.Type_ p)) m l
              Hnd Hm) as (l1 & m1 & -> & Hnd1 & Hm1 & Hl1).
  destruct (IH m1 l1 Hnd1 Hm1) as (l' & m' & Heq & Hnd' & Hl').
  exists l', m'. split; [done|]. split; [done|]. intros i. split.
  - intros Hi. apply Hl' in Hi as [Hi|(p0 & f & Hp0 & Hrest)].
    + apply Hl1 in Hi as [?|(f & Hf)]; [by left|]. right.
      exists p, f. split; [apply list_elem_of_here|done].
    + right. exists p0, f. split; [by apply list_elem_of_further|done].
  - intros [Hi|(p0 & f & Hp0 & Hrest)]; apply Hl'.
    + left. apply Hl1. by left.
    + apply elem_of_cons in Hp0 as [-> |Hp0].
      * left. apply Hl1. right. by exists f.
      * right. by exists p0, f.
Qed.

End Imports.

(** X18. [proto] imports each path once, however many fields ask for it:
    for a slice that is not empty its text is the package line, the import
    lines, the three option lines and the messages, where the import lines
    are pairwise different and a line is among them exactly when it is the
    line of the path that [ImportMap] has for the type of a field, not
    skipped, of one of the entries. *)
Theorem proto_imports_each_path_once a pc :
  pc ≠ [] →
  let svc :=
    match snd (proto a pc) with
    | p0 :: _ => ModelToPBConfig.ImportService (MethodsOption.ModelToPBConfig p0)
    | [] => ""
    end in
  ∃ imports : list string,
    NoDup imports
    ∧ (∀ line, line ∈ imports ↔
         ∃ p f i, p ∈ pc ∧ f ∈ Type_.Fields (MethodsOption.Type_ p)
                  ∧ skipped p f = false
                  ∧ ArgType.ImportMap a !! Field.Typ f = Some i
                  ∧ line = "import " +:+ QUOTE +:+ i +:+ QUOTE +:+ ";")
    ∧ fst (proto a pc)
      = "package proto." +:+ ProtoName svc +:+ ";" +:+ LF
        +:+ LF
        +:+ strings.Join imports LF +:+ LF
        +:+ LF
        +:+ "option go_package = " +:+ QUOTE
        +:+ ArgType.ServerProtoPathPrefix a +:+ "/service/"
        +:+ goPackageName svc +:+ QUOTE +:+ ";" +:+ LF
        +:+ "option java_multiple_files = true;" +:+ LF
        +:+ "option objc_class_prefix = " +:+ QUOTE +:+ "RPC" +:+ QUOTE
        +:+ ";" +:+ LF
        +:+ LF
        +:+ strings.Join (protoMessage a <$> snd (proto a pc)) "".
Proof.
  intros Hne svc. subst svc. rewrite proto_nonempty by done. cbn [fst snd].
  exists (protoImports a (sortStable pc)).
  unfold protoImports at 1 2.
  destruct (protoImports_outer a (sortStable pc) ∅ [])
    as (l' & m' & Heq & Hnd & Hl');
    [apply NoDup_nil_2 | intros i; by rewrite elem_of_nil, elem_of_empty |].
  change (importLine <$> []) with (@nil string) in Heq. rewrite Heq.
  cbn [fst]. pose proof importLine_inj as Hinj.
  split; [by apply (NoDup_fmap_2 importLine)|].
  split.
  - intros line. rewrite list_elem_of_fmap. split.
    + intros (i & -> & Hi). apply Hl' in Hi as [Hi|(p & f & Hrest)];
        [by apply elem_of_nil in Hi|].
      destruct Hrest as (Hp & Hf & Hs & Himp). exists p, f, i.
      rewrite (sortStable_perm pc) in Hp. done.
    + intros (p & f & i & Hp & Hf & Hs & Hi & ->). exists i. split; [done|].
      apply Hl'. right. exists p, f. by rewrite (sortStable_perm pc).
  - unfold protoHeader. cbn zeta. unfold protoImports. rewrite Heq. cbn [fst].
    by rewrite !append_assoc.
Qed.

Lemma proto_imports_each_path_once_witness :
  let a := ArgType.mk exampleLoader false "Val" ∅ ∅ "" ∅ ∅ ∅
             {["time.Time" := "google/protobuf/timestamp.proto"]} "" in
  let p := exampleOption [exampleField "created_at" "time.Time";
                          exampleField "updated_at" "time.Time"] ∅ in
  [p] ≠ []
  ∧ protoImports a [p]
    = ["import " +:+ QUOTE +:+ "google/protobuf/timestamp.proto" +:+ QUOTE
       +:+ ";"]
  ∧ ∃ imports : list string,
      NoDup imports
      ∧ fst (proto a [p])
        = "package proto.user_svc;" +:+ LF
          +:+ LF
          +:+ strings.Join imports LF +:+ LF
          +:+ LF
          +:+ "option go_package = " +:+ QUOTE +:+ "/service/usersvc" +:+ QUOTE
          +:+ ";" +:+ LF
          +:+ "option java_multiple_files = true;" +:+ LF
          +:+ "option objc_class_prefix = " +:+ QUOTE +:+ "RPC" +:+ QUOTE
          +:+ ";" +:+ LF
          +:+ LF
          +:+ strings.Join (protoMessage a <$> [p]) "".
Proof.
  intros a p.
  assert ([p] ≠ []) as Hne by done.
  split; [exact Hne|]. split; [by vm_compute|].
  destruct (proto_imports_each_path_once a [p] Hne)
    as (imports & Hnd & _ & Htext).
  exists imports. split; [exact Hnd|]. rewrite Htext. by vm_compute.
Defined.

(** ** [retype] and [reniltype] without a package *)

(** X19. Without a custom type package, [retype] and [reniltype] return
    their argument as it is, known or not. *)
Theorem retype_without_package a typ :
  ArgType.CustomTypePackage a = "" →
  retype a typ = typ ∧ reniltype a typ = typ.
Proof.
  intros Hpkg.
  assert (customPackage a = "") as Hc.
  { unfold customPackage. rewrite Hpkg. by rewrite decide_False by (by intros ?). }
  split.
  - unfold retype. destruct (Contains typ "."%char); [done|].
    pose proof (stripSlices_join typ) as Hjoin.
    destruct (stripSlices typ "") as [t p]. cbn [fst snd] in Hjoin.
    rewrite Hc, append_nil_l. by destruct (decide (t ∉ ArgType.KnownTypeMap a)).
  - unfold reniltype. rewrite Hc, append_nil_l.
    destruct (Contains typ "."%char); [done|].
    destruct (strings.HasSuffix typ "{}"); [|done].
    by destruct (decide _).
Qed.

Lemma retype_without_package_witness :
  ArgType.CustomTypePackage exampleArgs = ""
  ∧ retype exampleArgs "[]Point" = "[]Point"
  ∧ reniltype exampleArgs "Point{}" = "Point{}".
Proof.
  assert (ArgType.CustomTypePackage exampleArgs = "") as Hpkg by done.
  split; [exact Hpkg|].
  split.
  - exact (proj1 (retype_without_package exampleArgs "[]Point" Hpkg)).
  - exact (proj2 (retype_without_package exampleArgs "Point{}" Hpkg)).
Defined.

(** ** [ProtoConfig] as a [sort.Interface] *)

Lemma Less_le (s1 s2 : string) :
  strings.Less s1 s2 = true → String.le s1 s2.
Proof.
  intros Hlt. apply not_Less_le. by apply Less_asym.
Qed.

Lemma Less_trans (s1 s2 s3 : string) :
  strings.Less s1 s2 = true → strings.Less s2 s3 = true →
  strings.Less s1 s3 = true.
Proof.
  intros H12 H23. destruct (strings.Less s1 s3) eqn:H13; [done|].
  apply not_Less_le in H13. apply Less_le in H12.
  assert (String.le s3 s2) as H32 by (by etrans).
  apply not_Less_le in H32. congruence.
Qed.

Lemma sliceAt_in_range {A} (t : list A) (i : Z) :
  (0 ≤ i < Z.of_nat (length t))%Z →
  ∃ x, sliceAt t i = Some x ∧ t !! Z.to_nat i = Some x.
Proof.
  intros Hi. unfold sliceAt. rewrite decide_True by lia.
  destruct (lookup_lt_is_Some_2 t (Z.to_nat i)) as [x Hx]; [lia|]. by eauto.
Qed.

Lemma sliceAt_out_of_range {A} (t : list A) (i : Z) :
  ¬ (0 ≤ i < Z.of_nat (length t))%Z → sliceAt t i = None.
Proof.
  intros Hi. unfold sliceAt. destruct (decide (0 ≤ i)%Z); [|done].
  apply lookup_ge_None_2. lia.
Qed.

(** X20. [ProtoConfig] keeps the contract of [sort.Interface]. For indices
    from 0 and below [Len], [Less] returns and is a strict order on the
    positions (no position is below itself, never both [Less(i, j)] and
    [Less(j, i)], transitive, and "neither below the other" is transitive
    too), and [Swap] returns a slice of the same length in which the two
    entries have changed places and every other position is as before;
    swapping again restores the slice. With an index outside this range,
    [Less] and [Swap] panic. *)
Theorem ProtoConfig_sort_interface (t : list MethodsOption.t) (i j k : Z) :
  let in_range n := (0 ≤ n < ProtoConfigLen t)%Z in
  (in_range i → in_range j → in_range k →
   ∃ bij bji bjk bik bii,
     ProtoConfigLess t i j = Ok bij ∧ ProtoConfigLess t j i = Ok bji
     ∧ ProtoConfigLess t j k = Ok bjk ∧ ProtoConfigLess t i k = Ok bik
     ∧ ProtoConfigLess t i i = Ok bii
     ∧ bii = false
     ∧ (bij = true → bji = false)
     ∧ (bij = true → bjk = true → bik = true)
     ∧ (bij = false → bjk = false → bik = false))
  ∧ (in_range i → in_range j →
     ∃ t', ProtoConfigSwap t i j = Ok t'
       ∧ ProtoConfigLen t' = ProtoConfigLen t
       ∧ sliceAt t' i = sliceAt t j ∧ sliceAt t' j = sliceAt t i
       ∧ (∀ n, n ≠ i → n ≠ j → sliceAt t' n = sliceAt t n)
       ∧ ProtoConfigSwap t' i j = Ok t)
  ∧ (¬ (in_range i ∧ in_range j) →
     (∃ msg, ProtoConfigLess t i j = Panic msg)
     ∧ ∃ msg, ProtoConfigSwap t i j = Panic msg).
Proof.
  intros in_range. subst in_range. unfold ProtoConfigLen. cbn beta.
  split; [|split].
  - intros Hi Hj Hk.
    destruct (sliceAt_in_range t i Hi) as (x & Hx & _).
    destruct (sliceAt_in_range t j Hj) as (y & Hy & _).
    destruct (sliceAt_in_range t k Hk) as (z & Hz & _).
    unfold ProtoConfigLess. rewrite Hx, Hy, Hz.
    do 5 eexists. do 5 (split; [done|]).
    split; [apply Less_irrefl|]. split; [apply Less_asym|].
    split; [apply Less_trans|].
    intros Hij Hjk. eapply not_Less_trans; [exact Hjk | exact Hij].
  - intros Hi Hj.
    destruct (sliceAt_in_range t i Hi) as (x & Hx & Hx').
    destruct (sliceAt_in_range t j Hj) as (y & Hy & Hy').
    unfold ProtoConfigSwap. rewrite Hx, Hy. eexists. split; [done|].
    assert (Z.to_nat i < length t)%nat as Hi' by lia.
    assert (Z.to_nat j < length t)%nat as Hj' by lia.
    split; [by rewrite !length_insert|].
    assert ((<[Z.to_nat j:=x]> (<[Z.to_nat i:=y]> t)) !! Z.to_nat i = Some y)
      as Hti.
    { destruct (decide (Z.to_nat i = Z.to_nat j)) as [Heq|Hne].
      - rewrite Heq in *.
        rewrite list_lookup_insert_eq by (by rewrite length_insert).
        congruence.
      - rewrite list_lookup_insert_ne by done.
        by rewrite list_lookup_insert_eq. }
    assert ((<[Z.to_nat j:=x]> (<[Z.to_nat i:=y]> t)) !! Z.to_nat j = Some x)
      as Htj.
    { by rewrite list_lookup_insert_eq by (by rewrite length_insert). }
    assert (sliceAt (<[Z.to_nat j:=x]> (<[Z.to_nat i:=y]> t)) i = Some y)
      as Hsi by (unfold sliceAt; by rewrite decide_True by lia).
    assert (sliceAt (<[Z.to_nat j:=x]> (<[Z.to_nat i:=y]> t)) j = Some x)
      as Hsj by (unfold sliceAt; by rewrite decide_True by lia).
    split; [congruence|]. split; [congruence|].
    split.
    + intros n Hni Hnj. unfold sliceAt.
      destruct (decide (0 ≤ n)%Z); [|done].
      rewrite !list_lookup_insert_ne by lia. done.
    + rewrite Hsi, Hsj. f_equal. apply list_eq. intros n.
      destruct (decide (n = Z.to_nat j)) as [->|Hnj].
      * rewrite list_lookup_insert_eq by (by rewrite !length_insert).
        done.
      * rewrite list_lookup_insert_ne by done.
        destruct (decide (n = Z.to_nat i)) as [->|Hni].
        -- rewrite list_lookup_insert_eq by (by rewrite !length_insert).
           done.
        -- by rewrite !list_lookup_insert_ne by done.
  - intros Hout. unfold ProtoConfigLess, ProtoConfigSwap.
    destruct (decide (0 ≤ i < Z.of_nat (length t))%Z) as [Hi|Hi].
    + rewrite (sliceAt_out_of_range t j) by tauto.
      destruct (sliceAt t i); by eauto.
    + rewrite (sliceAt_out_of_range t i) by done. by eauto.
Qed.

Lemma ProtoConfig_sort_interface_witness :
  let p1 := MethodsOption.mk (exampleType []) "b" false true
              (ModelToPBConfig.mk "svc" ∅) in
  let p2 := MethodsOption.mk (exampleType []) "a" false true
              (ModelToPBConfig.mk "svc" ∅) in
  ((0 ≤ 0 < ProtoConfigLen [p1; p2])%Z
   ∧ (0 ≤ 1 < ProtoConfigLen [p1; p2])%Z
   ∧ ¬ ((0 ≤ 0 < ProtoConfigLen [p1; p2])%Z
        ∧ (0 ≤ -1 < ProtoConfigLen [p1; p2])%Z))
  ∧ (∃ t', ProtoConfigSwap [p1; p2] 0 1 = Ok t'
           ∧ ProtoConfigSwap t' 0 1 = Ok [p1; p2])
  ∧ (∃ b, ProtoConfigLess [p1; p2] 0 0 = Ok b ∧ b = false)
  ∧ ∃ msg, ProtoConfigLess [p1; p2] 0 (-1) = Panic msg.
Proof.
  intros p1 p2.
  assert (0 ≤ 0 < ProtoConfigLen [p1; p2])%Z as H0 by (by vm_compute).
  assert (0 ≤ 1 < ProtoConfigLen [p1; p2])%Z as H1 by (by vm_compute).
  assert (¬ ((0 ≤ 0 < ProtoConfigLen [p1; p2])%Z
             ∧ (0 ≤ -1 < ProtoConfigLen [p1; p2])%Z)) as H2
    by (intros [_ [H _]]; by vm_compute in H).
  split; [by repeat split|].
  destruct (ProtoConfig_sort_interface [p1; p2] 0 1 1) as (Hless & Hswap & _).
  destruct (ProtoConfig_sort_interface [p1; p2] 0 (-1) 0) as (_ & _ & Hpanic).
  split; [|split].
  - destruct (Hswap H0 H1) as (t' & Ht' & _ & _ & _ & _ & Hback).
    by exists t'.
  - destruct (Hless H0 H1 H1)
      as (bij & bji & bjk & bik & bii & _ & _ & _ & _ & Hii & Hfalse & _).
    by exists bii.
  - exact (proj1 (Hpanic H2)).
Defined.

(** ** [shortname] and the package names *)

Lemma default_suffix_not_default (v suffix : string) :
  suffix ≠ "" → v ∈ defaultNames → v +:+ suffix ∉ defaultNames.
Proof.
  intros Hs Hv Hvs. unfold defaultNames in Hv, Hvs.
  repeat (apply elem_of_cons in Hv as [->|Hv]);
    [..|by apply elem_of_nil in Hv];
    repeat (apply elem_of_cons in Hvs as [Hvs|Hvs];
            [cbv [String.append] in Hvs; try discriminate;
             injection Hvs as ->; done|]);
    by apply elem_of_nil in Hvs.
Qed.

(** X21. With a non-empty [NameConflictSuffix] and conflict scopes of the
    recognised kinds, [shortname] returns one of the eight default package
    names only as a scope name, not a package name itself, followed by the
    suffix. Called without conflict scopes, as [modelToPB] and [PBToModel]
    call it, it never returns a package name. *)
Theorem shortname_avoids_package_names CamelToSnake a typ scopeConflicts st :
  ArgType.NameConflictSuffix a ≠ "" →
  ScopeOther ∉ scopeConflicts →
  (∃ v, fst (shortname CamelToSnake a typ scopeConflicts st) = Ok v
        ∧ (v ∈ defaultNames →
           ∃ u, u ∈ scopeNames scopeConflicts ∧ (u ∉ defaultNames)
                ∧ v = u +:+ ArgType.NameConflictSuffix a))
  ∧ ∃ v, fst (shortname CamelToSnake a typ [] st) = Ok v ∧ v ∉ defaultNames.
Proof.
  intros Hsuffix Hsup.
  assert (∀ scopes, ScopeOther ∉ scopes →
    ∃ v, fst (shortname CamelToSnake a typ scopes st) = Ok v
         ∧ (v ∈ defaultNames →
            ∃ u, u ∈ scopeNames scopes ∧ (u ∉ defaultNames)
                 ∧ v = u +:+ ArgType.NameConflictSuffix a)) as Hgen.
  { intros scopes Hscopes.
    rewrite shortname_supported by (by apply supported_no_other).
    cbn [fst]. cbn zeta. eexists. split; [done|].
    destruct (decide (cachedOrCalc CamelToSnake st typ ∈ defaultNames))
      as [Hd|Hd].
    - rewrite decide_True by (by left). intros Hin.
      exfalso. by apply (default_suffix_not_default _ _ Hsuffix Hd).
    - destruct (decide (cachedOrCalc CamelToSnake st typ ∈ scopeNames scopes))
        as [Hs|Hs].
      + rewrite decide_True by (by right). intros _.
        by exists (cachedOrCalc CamelToSnake st typ).
      + rewrite decide_False by (by intros [?|?]). done. }
  split; [by apply Hgen|].
  destruct (Hgen []) as (v & Hv & Hin); [apply not_elem_of_nil|].
  exists v. split; [done|]. intros Hd.
  destruct (Hin Hd) as (u & Hu & _). by apply elem_of_nil in Hu.
Qed.

Lemma shortname_avoids_package_names_witness :
  let st := mkState {["Format" := "fmt"]} [] in
  (ArgType.NameConflictSuffix exampleArgs ≠ ""
   ∧ ScopeOther ∉ [ScopeString "f"])
  ∧ ∃ v, fst (shortname exampleCamelToSnake exampleArgs "Format" [] st) = Ok v
         ∧ v ∉ defaultNames.
Proof.
  intros st.
  assert (ArgType.NameConflictSuffix exampleArgs ≠ "") as H1 by done.
  assert (ScopeOther ∉ [ScopeString "f"]) as H2
    by (intros H; not_in_list H).
  split; [by split|].
  exact (proj2 (shortname_avoids_package_names exampleCamelToSnake exampleArgs
                  "Format" [ScopeString "f"] st H1 H2)).
Defined.

(** ** The text of [proto] *)

Lemma protoFieldDef_text a f count :
  protoFieldDef a f count
  = declarationHead a f +:+ " = " +:+ pretty count +:+ ";".
Proof.
  unfold protoFieldDef, declarationHead, protoTypeName. cbn zeta.
  destruct (bool_decide (Field.Typ f = "mysql.NullTime")
            || bool_decide (Field.Typ f = "time.Time")).
  - destruct (decide (Field.Comment f ≠ "")); by rewrite ?append_assoc.
  - destruct (ArgType.WrapperTypeMap a !! Field.Typ f) as [w|].
    + destruct (decide (Field.Comment f ≠ "")); by rewrite ?append_assoc.
    + destruct (ArgType.ToPBTypeMap a !! Field.Typ f) as [v|];
        destruct (decide (Field.Comment f ≠ "")); by rewrite ?append_assoc.
Qed.



Lemma protoFieldsDef_text a q :
  (Z.of_nat (length (Type_.Fields (MethodsOption.Type_ q))) ≤ GoInt.max_int)%Z →
  protoFieldsDef a q
  = imap (λ k f, declarationHead a f +:+ " = "
                   +:+ pretty (1 + Z.of_nat k)%Z +:+ ";")
      (postSkip (ModelToPBConfig.SkipFields (MethodsOption.ModelToPBConfig q))
         (Type_.Fields (MethodsOption.Type_ q))).
Proof.
  intros Hlen. rewrite protoFieldsDef_numbered. rewrite numbered_imap.
  - apply imap_ext. intros k f _. cbn beta. apply protoFieldDef_text.
  - unfold GoInt.min_int. lia.
  - unfold postSkip.
    pose proof (length_filter
      (λ f, Column.ColumnName (Field.Col f)
            ∉ ModelToPBConfig.SkipFields (MethodsOption.ModelToPBConfig q))
      (Type_.Fields (MethodsOption.Type_ q))). lia.
Qed.

(** C3. [proto] numbers the fields that are not skipped 1, 2, 3, ... in
    the order of declaration: its text is the header followed by one message
    for each entry, in sorted order, and the message of an entry holds one
    declaration for each field that is not skipped, the declaration of the
    field at position [k] (from 0) among these ending in [" = k+1;"].
    When one column name, which names one field of the type, is taken out of
    the skip set, the text of [proto] declares that field with the number
    after those of the declared fields in front of it, the numbers of the
    declared fields behind it go up by one, and the numbers in front of it
    stay. *)
Theorem proto_numbers_post_skip_fields a pc p p' :
  let decl (k : nat) (f : Field.t) :=
    declarationHead a f +:+ " = " +:+ pretty (1 + Z.of_nat k)%Z +:+ ";" in
  let message (decls : list string) (q : MethodsOption.t) :=
    "message " +:+ Type_.Name (MethodsOption.Type_ q) +:+ " {" +:+ LF
      +:+ strings.Join decls LF +:+ LF
      +:+ "}" +:+ LF in
  let declared (q : MethodsOption.t) :=
    postSkip (ModelToPBConfig.SkipFields (MethodsOption.ModelToPBConfig q))
      (Type_.Fields (MethodsOption.Type_ q)) in
  let skip := ModelToPBConfig.SkipFields (MethodsOption.ModelToPBConfig p) in
  let fields := Type_.Fields (MethodsOption.Type_ p) in
  (Forall (λ q, (Z.of_nat (length (Type_.Fields (MethodsOption.Type_ q)))
                 ≤ GoInt.max_int)%Z) pc →
   fst (proto a pc)
   = if decide (pc = []) then ""
     else protoHeader a (snd (proto a pc))
          +:+ strings.Join
                ((λ q, message (imap decl (declared q)) q) <$> snd (proto a pc))
                "")
  ∧ ∀ c l1 f l2,
      (Z.of_nat (length fields) ≤ GoInt.max_int)%Z →
      fields = (l1 ++ f :: l2)%list →
      Column.ColumnName (Field.Col f) = c →
      c ∈ skip →
      Forall (λ g, Column.ColumnName (Field.Col g) ≠ c) (l1 ++ l2)%list →
      MethodsOption.Type_ p' = MethodsOption.Type_ p →
      ModelToPBConfig.SkipFields (MethodsOption.ModelToPBConfig p')
      = skip ∖ {[c]} →
      let n1 := length (postSkip skip l1) in
      fst (proto a [p])
      = protoHeader a [p]
        +:+ message (imap decl (postSkip skip l1)
                     ++ imap (λ k, decl (n1 + k)%nat) (postSkip skip l2))%list p
      ∧ fst (proto a [p'])
        = protoHeader a [p']
          +:+ message (imap decl (postSkip skip l1)
                       ++ decl n1 f
                       :: imap (λ k, decl (n1 + 1 + k)%nat) (postSkip skip l2))%list
              p'.
Proof.
  intros decl message declared skip fields.
  assert (∀ q, (Z.of_nat (length (Type_.Fields (MethodsOption.Type_ q)))
                ≤ GoInt.max_int)%Z →
            protoMessage a q = message (imap decl (declared q)) q) as Hmessage.
  { intros q Hq. unfold protoMessage. cbn zeta.
    by rewrite protoFieldsDef_text. }
  assert (∀ q, (Z.of_nat (length (Type_.Fields (MethodsOption.Type_ q)))
                ≤ GoInt.max_int)%Z →
            fst (proto a [q])
            = protoHeader a [q] +:+ message (imap decl (declared q)) q)
    as Hone.
  { intros q Hq. rewrite proto_nonempty by done. cbn [fst].
    change (sortStable [q]) with [q]. cbn [fmap list_fmap].
    rewrite Hmessage by done. unfold strings.Join. cbn [String.concat]. done. }
  split.
  - intros Hpc. destruct (decide (pc = [])) as [->|Hne]; [done|].
    rewrite proto_nonempty by done. cbn [fst snd]. do 2 f_equal.
    apply Forall_fmap_ext_1.
    rewrite (sortStable_perm pc). eapply Forall_impl; [exact Hpc|].
    intros q Hq. by apply Hmessage.
  - intros c l1 f l2 Hlen Hfields Hc Hin Hothers HT Hskip n1.
    rewrite !Hone by (by rewrite ?HT). unfold declared.
    rewrite HT, Hskip. fold skip fields. clearbody fields skip.
    apply Forall_app in Hothers as [H1 H2].
    rewrite Hfields, !postSkip_app.
    change (f :: l2) with ([f] ++ l2)%list. rewrite !postSkip_app.
    rewrite (postSkip_unskip skip c l1 H1), (postSkip_unskip skip c l2 H2).
    assert (postSkip skip [f] = []) as ->.
    { unfold postSkip. rewrite filter_cons_False; [done|]. rewrite Hc. auto. }
    assert (postSkip (skip ∖ {[c]}) [f] = [f]) as ->.
    { unfold postSkip. rewrite filter_cons_True; [done|]. rewrite Hc.
      intros [_ Hn]%elem_of_difference. apply Hn. by apply elem_of_singleton. }
    cbn [app]. rewrite !imap_app. cbn [imap]. subst n1.
    split.
    + done.
    + do 3 f_equal. rewrite Nat.add_0_r. f_equal.
      apply imap_ext. intros k g _. cbn. f_equal. lia.
Qed.

Lemma proto_numbers_post_skip_fields_witness :
  let key := exampleField "id" "int64" in
  let secret := exampleField "secret" "string" in
  let name := exampleField "name" "string" in
  let p := exampleOption [key; secret; name] {["secret"]} in
  let p' := exampleOption [key; secret; name] ∅ in
  ((Z.of_nat (length (Type_.Fields (MethodsOption.Type_ p)))
    ≤ GoInt.max_int)%Z
   ∧ Type_.Fields (MethodsOption.Type_ p) = ([key] ++ secret :: [name])%list
   ∧ Column.ColumnName (Field.Col secret) = "secret"
   ∧ "secret" ∈ ModelToPBConfig.SkipFields (MethodsOption.ModelToPBConfig p)
   ∧ Forall (λ g, Column.ColumnName (Field.Col g) ≠ "secret")
       ([key] ++ [name])%list
   ∧ MethodsOption.Type_ p' = MethodsOption.Type_ p
   ∧ ModelToPBConfig.SkipFields (MethodsOption.ModelToPBConfig p')
     = ModelToPBConfig.SkipFields (MethodsOption.ModelToPBConfig p)
         ∖ {["secret"]})
  ∧ fst (proto exampleArgs [p])
    = protoHeader exampleArgs [p]
      +:+ "message User {" +:+ LF
      +:+ TAB +:+ "int64 id = 1;" +:+ LF
      +:+ TAB +:+ "string name = 2;" +:+ LF
      +:+ "}" +:+ LF
  ∧ fst (proto exampleArgs [p'])
    = protoHeader exampleArgs [p']
      +:+ "message User {" +:+ LF
      +:+ TAB +:+ "int64 id = 1;" +:+ LF
      +:+ TAB +:+ "string secret = 2;" +:+ LF
      +:+ TAB +:+ "string name = 3;" +:+ LF
      +:+ "}" +:+ LF.
Proof.
  intros key secret name p p'.
  assert (Z.of_nat (length (Type_.Fields (MethodsOption.Type_ p)))
          ≤ GoInt.max_int)%Z as H1 by (vm_compute; discriminate).
  assert (Type_.Fields (MethodsOption.Type_ p)
          = ([key] ++ secret :: [name])%list) as H2 by done.
  assert (Column.ColumnName (Field.Col secret) = "secret") as H3 by done.
  assert ("secret"
          ∈ ModelToPBConfig.SkipFields (MethodsOption.ModelToPBConfig p)) as H4
    by (by vm_compute).
  assert (Forall (λ g, Column.ColumnName (Field.Col g) ≠ "secret")
            ([key] ++ [name])%list) as H5 by (by repeat constructor).
  assert (MethodsOption.Type_ p' = MethodsOption.Type_ p) as H6 by done.
  assert (ModelToPBConfig.SkipFields (MethodsOption.ModelToPBConfig p')
          = ModelToPBConfig.SkipFields (MethodsOption.ModelToPBConfig p)
              ∖ {["secret"]}) as H7 by (by vm_compute).
  split; [by repeat split|].
  destruct (proto_numbers_post_skip_fields exampleArgs [p] p p')
    as [_ Hshift].
  destruct (Hshift "secret" [key] secret [name] H1 H2 H3 H4 H5 H6 H7)
    as [Hp Hp'].
  split.
  - rewrite Hp. by vm_compute.
  - rewrite Hp'. by vm_compute.
Defined.



(** ** The letters of a short name *)

Lemma shortnameLetters_filter CamelToSnake typ :
  shortnameLetters CamelToSnake typ
  = strings.Join
      (strings.first_byte
         <$> filter (λ w, w ≠ "" ∧ w ≠ "id")
               (strings.Split (strings.ToLower (CamelToSnake typ)) "_"%char))
      "".
Proof.
  unfold shortnameLetters. cbn zeta. f_equal.
  generalize (strings.Split (strings.ToLower (CamelToSnake typ)) "_"%char).
  intros words.
  assert (∀ u, foldl (λ u s,
      if decide (0 < String.length s ∧ s ≠ "id")
      then (u ++ [strings.first_byte s])%list else u) u words
    = (u ++ (strings.first_byte
               <$> filter (λ w, w ≠ "" ∧ w ≠ "id") words))%list) as Hloop;
    [|by rewrite Hloop].
  induction words as [|w words IH]; intros u; cbn [foldl].
  - by rewrite app_nil_r.
  - rewrite IH.
    destruct (decide (w ≠ "" ∧ w ≠ "id")) as [[Hw Hid]|Hn].
    + rewrite filter_cons_True by done.
      rewrite decide_True by (split; [destruct w; [done|cbn; lia]|done]).
      cbn [fmap list_fmap]. by rewrite <- app_assoc.
    + rewrite filter_cons_False by done.
      rewrite decide_False; [done|]. intros [Hlen Hid]. apply Hn.
      split; [|done]. intros ->. cbn in Hlen. lia.
Qed.

(** C5. [shortname] can return a Go reserved word. The name computed for
    "TheYellowPageEntry" is the keyword "type"; it is replaced by its alias
    "typ"; with "typ" in the conflict scope and [NameConflictSuffix = "e"]
    the suffix is appended without a second look at [goReservedNames], and
    [shortname] returns the keyword "type". In the same way, with the suffix
    "nt" and the name "i" in the conflict scope, the computed name "int"
    becomes "i" and then "int" again. *)
Lemma shortname_returns_reserved_word :
  (ShortNameTypeMap emptyState !! "TheYellowPageEntry" = None
   ∧ exampleCamelToSnake "TheYellowPageEntry" = "the_yellow_page_entry"
   ∧ shortnameLetters exampleCamelToSnake "TheYellowPageEntry" = "type"
   ∧ goReservedNames !! "type" = Some "typ"
   ∧ fst (shortname exampleCamelToSnake (exampleArgsSuffix "e")
            "TheYellowPageEntry" [ScopeString "typ"] emptyState) = Ok "type")
  ∧ (ShortNameTypeMap emptyState !! "IsNotTrue" = None
     ∧ shortnameLetters exampleCamelToSnake "IsNotTrue" = "int"
     ∧ goReservedNames !! "int" = Some "i"
     ∧ fst (shortname exampleCamelToSnake (exampleArgsSuffix "nt") "IsNotTrue"
              [ScopeString "i"] emptyState) = Ok "int").
Proof. repeat split; by vm_compute. Qed.

(** X22. When the cache has no entry for the type name and the conflict
    scopes are of the recognised kinds, [shortname] computes the first bytes
    of the words of the lower-cased snake form, the empty words and the
    words "id" left out; replaces this by its alias if it is a key of
    [goReservedNames]; stores the outcome, which is no key of
    [goReservedNames], for the type name; and returns it, followed by
    [NameConflictSuffix] exactly when it is a default package name or a name
    of a conflict scope. *)
Theorem shortname_computes_letters CamelToSnake a typ scopeConflicts st :
  ShortNameTypeMap st !! typ = None →
  ScopeOther ∉ scopeConflicts →
  let letters :=
    strings.Join
      (strings.first_byte
         <$> filter (λ w, w ≠ "" ∧ w ≠ "id")
               (strings.Split (strings.ToLower (CamelToSnake typ)) "_"%char))
      "" in
  let v := default letters (goReservedNames !! letters) in
  let r := shortname CamelToSnake a typ scopeConflicts st in
  goReservedNames !! v = None
  ∧ ShortNameTypeMap (snd r) !! typ = Some v
  ∧ fst r = Ok (if decide (v ∈ defaultNames ∨ v ∈ scopeNames scopeConflicts)
                then v +:+ ArgType.NameConflictSuffix a else v).
Proof.
  intros Hmiss Hsup letters v r.
  assert (calcShortName CamelToSnake typ = v) as Hcalc.
  { unfold calcShortName, checkReserved. rewrite shortnameLetters_filter.
    fold letters. subst v. by destruct (goReservedNames !! letters). }
  subst r. rewrite shortname_supported by (by apply supported_no_other).
  unfold cachedOrCalc, cacheAfter. rewrite Hmiss, Hcalc. cbn [fst snd].
  cbn zeta. split; [|split; [apply lookup_insert_eq | done]].
  subst v. destruct (goReservedNames !! letters) as [alias|] eqn:Hres; [|done].
  by eapply reserved_aliases_not_reserved.
Qed.

Lemma shortname_computes_letters_witness :
  (ShortNameTypeMap emptyState !! "UserId" = None
   ∧ ScopeOther ∉ [ScopeFields [exampleField "u" "int"]])
  ∧ exampleCamelToSnake "UserId" = "user_id"
  ∧ fst (shortname exampleCamelToSnake exampleArgs "UserId"
           [ScopeFields [exampleField "u" "int"]] emptyState) = Ok "uVal"
  ∧ ShortNameTypeMap
      (snd (shortname exampleCamelToSnake exampleArgs "UserId"
              [ScopeFields [exampleField "u" "int"]] emptyState)) !! "UserId"
    = Some "u".
Proof.
  assert (ShortNameTypeMap emptyState !! "UserId" = None) as H1
    by (by vm_compute).
  assert (ScopeOther ∉ [ScopeFields [exampleField "u" "int"]]) as H2
    by (intros H; not_in_list H).
  split; [by split|]. split; [by vm_compute|].
  destruct (shortname_computes_letters exampleCamelToSnake exampleArgs "UserId"
              [ScopeFields [exampleField "u" "int"]] emptyState H1 H2)
    as (_ & Hcache & Hres).
  split.
  - rewrite Hres. by vm_compute.
  - rewrite Hcache. by vm_compute.
Defined.
